(** * ofxImageSequence: a shallow embedding of [src/ofxImageSequence.h]

  The class [ofxImageSequence<T>] plays a directory of still images like
  the frames of a movie.  This development embeds its fields as a record,
  its methods as functions in a state monad whose failure value stands for
  undefined behaviour of the C++ program, and the collaborators of
  openFrameworks it calls (the image decoder, the directory listing, the
  file test) as the fields of a record of oracles.

  Layout: the C++ scalar types, binary32 arithmetic, [sprintf], the state
  and its methods with the loader thread, concrete disks and objects, the
  vocabulary of the statements, and then the theorems: the paths
  [sprintf] writes, rounding to [float], [loadFrame], [preloadAllFrames],
  what the methods keep, the invariant, the loads by folder and by range,
  the display, the cursor and the loader thread. *)

From Stdlib Require Import ZArith QArith Qround Qabs Qpower Qreduction Lia Lqa Bool.
From Stdlib Require Import Ascii Decimal DecimalString DecimalPos DecimalN.
From stdpp Require Import base list strings.

Local Open Scope Z_scope.

(* ===================================================================== *)
(** ** C++ scalar types *)
(* ===================================================================== *)

Module CTypes.

Definition INT_MAX : Z := 2147483647.
Definition INT_MIN : Z := -2147483648.
Definition SIZE_MAX : Z := 18446744073709551615.

Definition in_int (z : Z) : bool := (INT_MIN <=? z) && (z <=? INT_MAX).

(** Signed overflow is undefined behaviour: the checked operations have no
    result there. *)
Definition int_checked (z : Z) : option Z :=
  if in_int z then Some z else None.

Definition int_add (a b : Z) : option Z := int_checked (a + b).
Definition int_sub (a b : Z) : option Z := int_checked (a - b).

(** [a % b] on [int]: truncating remainder, undefined for [b = 0]. *)
Definition int_rem (a b : Z) : option Z :=
  if b =? 0 then None else int_checked (Z.rem a b).

(** Conversion of an [int] to [size_t] and of a [size_t] to [int]
    (both are reductions modulo a power of two). *)
Definition to_size_t (z : Z) : Z := z mod (SIZE_MAX + 1).
Definition to_int (z : Z) : Z :=
  let r := z mod 4294967296 in
  if r <=? INT_MAX then r else r - 4294967296.

(** The macro [MIN(x,y) (((x) < (y)) ? (x) : (y))] at an [int] and a
    [size_t]: both operands are converted to [size_t]. *)
Definition MIN_int_size_t (x y : Z) : Z :=
  if to_size_t x <? y then to_size_t x else y.

(** [MIN] and [MAX] at two [int]s. *)
Definition MIN (x y : Z) : Z := if x <? y then x else y.
Definition MAX (x y : Z) : Z := if x >? y then x else y.

End CTypes.

(* ===================================================================== *)
(** ** Binary floating point

  A finite [float] or [double] is the rational it denotes.  Every
  operation is the exact operation followed by rounding to nearest, ties
  to even, at the precision of the type of the operation (IEEE 754, each
  operation evaluated in its own format); NaN and the infinities have no
  value here, so an operation that would produce one has no result. *)
(* ===================================================================== *)

Module Float.

Definition pow2 (e : Z) : Q := Qpower 2 e.

(** [floor (log2 |x|)] for [x <> 0]. *)
Definition ilog2 (x : Q) : Z :=
  let a := Qabs x in
  if Qle_bool 1 a then Z.log2 (Qfloor a)
  else - Z.log2_up (Qceiling (/ a)).

(** Nearest integer, ties to even. *)
Definition rne (x : Q) : Z :=
  let f := Qfloor x in
  match Qcompare (x - inject_Z f) (1 # 2) with
  | Lt => f
  | Gt => f + 1
  | Eq => if Z.even f then f else f + 1
  end.

(** Rounding to a format of [prec] significant bits whose least
    exponent is [emin]. *)
Definition round_to (prec emin : Z) (x : Q) : Q :=
  let x := Qred x in
  if Qeq_bool x 0 then 0%Q
  else
    let e := Z.max (ilog2 x - (prec - 1)) emin in
    Qred (inject_Z (rne (x / pow2 e)) * pow2 e).

Definition round32 : Q -> Q := round_to 24 (-149).
Definition round64 : Q -> Q := round_to 53 (-1074).

(** Largest finite binary32 value, [(2 - 2^-23) * 2^127]. *)
Definition FLT_MAX : Q := inject_Z (2 ^ 128 - 2 ^ 104).

Definition finite32 (x : Q) : option Q :=
  if Qle_bool (Qabs x) FLT_MAX then Some x else None.

Definition f32_sub (x y : Q) : option Q := finite32 (round32 (x - y)).
Definition f32_mul (x y : Q) : option Q := finite32 (round32 (x * y)).
Definition f32_div (x y : Q) : option Q :=
  if Qeq_bool y 0 then None else finite32 (round32 (x / y)).

(** Conversion of an integer ([int] or [size_t]) to [float]. *)
Definition f32_of_Z (z : Z) : option Q := finite32 (round32 (inject_Z z)).

(** A [size_t] is below [FLT_MAX]: its conversion is always finite. *)
Definition f32_of_size_t (z : Z) : Q := round32 (inject_Z z).

(** [floor] of a [float] is exact. *)
Definition f32_floor (x : Q) : Q := inject_Z (Qfloor x).

(** [(int) x]: truncation toward zero, undefined when the truncated
    value is not an [int]. *)
Definition truncate (x : Q) : Z :=
  if Qle_bool 0 x then Qfloor x else Qceiling x.
Definition f32_to_int (x : Q) : option Z := CTypes.int_checked (truncate x).

Definition f32_lt (x y : Q) : bool := negb (Qle_bool y x).

End Float.

(* ===================================================================== *)
(** ** Strings of the C library: [ostream <<] on an [int] and [sprintf] *)
(* ===================================================================== *)

Module CStdio.

Definition digits (n : N) : string := NilZero.string_of_uint (N.to_uint n).

(** [stream << z] for an [int]. *)
Definition ostream_int (z : Z) : string :=
  if z <? 0 then "-" +:+ digits (Z.to_N (- z)) else digits (Z.to_N z).

Definition replicate_char (n : nat) (c : ascii) : string :=
  String.string_of_list_ascii (replicate n c).

(** The conversion [%d] with the flags [-] and [0] and a minimum field
    width, as the C standard defines it: the sign comes first, zeros pad
    between sign and digits, [-] pads with blanks on the right and
    overrides [0]. *)
Definition format_d (minus zeroPad : bool) (width : N) (v : Z) : string :=
  let sign := if v <? 0 then "-" else EmptyString in
  let body := digits (Z.to_N (Z.abs v)) in
  let fill := (N.to_nat width - (String.length sign + String.length body))%nat in
  if minus then sign +:+ body +:+ replicate_char fill " "
  else if zeroPad then sign +:+ replicate_char fill "0" +:+ body
  else replicate_char fill " " +:+ sign +:+ body.

Definition digit_of (c : ascii) : option N :=
  let n := N_of_ascii c in
  if ((48 <=? n) && (n <=? 57))%N then Some (n - 48)%N else None.

(** Where the interpreter of a format string stands: in literal text, or
    inside a conversion specification after [%], having read flags and
    perhaps the first digits of the width. *)
Inductive FmtState :=
| Literal
| Spec (minus zeroPad : bool) (width : option N).

(** The formats this interpreter covers: literal text, [%%], and [%d] or
    [%i] with the flags [-] and [0] and a decimal width.  The formats the
    class builds lie inside.  Anything else has no result here: another
    conversion (which C leaves undefined for an [int] argument), a flag,
    precision or length modifier outside the list, a specification cut
    short by the end of the format, a [%d] with no argument left. *)
Fixpoint vsprintf (st : FmtState) (fmt : string) (args : list Z) : option string :=
  match fmt with
  | EmptyString =>
      match st with Literal => Some EmptyString | Spec _ _ _ => None end
  | String c rest =>
      match st with
      | Literal =>
          if Ascii.eqb c "%" then vsprintf (Spec false false None) rest args
          else String c <$> vsprintf Literal rest args
      | Spec minus zeroPad width =>
          if Ascii.eqb c "d" || Ascii.eqb c "i" then
            match args with
            | [] => None
            | v :: args' =>
                String.append (format_d minus zeroPad (default 0%N width) v)
                  <$> vsprintf Literal rest args'
            end
          else if Ascii.eqb c "%" then
            match minus, zeroPad, width with
            | false, false, None => String c <$> vsprintf Literal rest args
            | _, _, _ => None
            end
          else
            match width with
            | None =>
                if Ascii.eqb c "-" then vsprintf (Spec true zeroPad None) rest args
                else if Ascii.eqb c "0" then vsprintf (Spec minus true None) rest args
                else match digit_of c with
                     | Some d => vsprintf (Spec minus zeroPad (Some d)) rest args
                     | None => None
                     end
            | Some w =>
                match digit_of c with
                | Some d => vsprintf (Spec minus zeroPad (Some (10 * w + d)%N)) rest args
                | None => None
                end
            end
      end
  end.

(** [s.c_str()] read as a C string: it ends at the first NUL. *)
Fixpoint c_str (s : string) : string :=
  match s with
  | EmptyString => EmptyString
  | String c rest => if Ascii.eqb c Ascii.zero then EmptyString else String c (c_str rest)
  end.

(** [sprintf(buf, fmt, args...)] into [char buf[size]]: writing past the
    buffer (the text and its final NUL) is undefined. *)
Definition sprintf (size : nat) (fmt : string) (args : list Z) : option string :=
  match vsprintf Literal (c_str fmt) args with
  | Some out => if (String.length out <? size)%nat then Some out else None
  | None => None
  end.

End CStdio.

(* ===================================================================== *)
(** ** Pixel buffers, run-time type names and collaborators *)
(* ===================================================================== *)

Module Model.
Import CTypes Float CStdio.

(** The element types the class is instantiated at. *)
Inductive PixelType := ofPixels | ofShortPixels | ofFloatPixels.

(** What [typeid(X).name()] points to: the name of a pixel type, or the
    name of the class [ofxImageSequence<T>] itself.  The source compares
    these pointers with [==]; two of them are equal exactly when they
    name the same type. *)
Inductive TypeName :=
| NameOfPixels (T : PixelType)
| NameOfImageSequence (T : PixelType).

Definition PixelType_eqb (a b : PixelType) : bool :=
  match a, b with
  | ofPixels, ofPixels | ofShortPixels, ofShortPixels
  | ofFloatPixels, ofFloatPixels => true
  | _, _ => false
  end.

Definition TypeName_eqb (a b : TypeName) : bool :=
  match a, b with
  | NameOfPixels x, NameOfPixels y => PixelType_eqb x y
  | NameOfImageSequence x, NameOfImageSequence y => PixelType_eqb x y
  | _, _ => false
  end.

(** A decoded image. *)
Record Image := { imageWidth : Z; imageHeight : Z; imageData : list Z }.

(** A pixel buffer [T]: [None] is the buffer [T()] that holds nothing. *)
Abbreviation Pixels := (option Image).

Definition isAllocated (p : Pixels) : bool :=
  match p with Some _ => true | None => false end.
Definition getWidth (p : Pixels) : Z :=
  match p with Some img => imageWidth img | None => 0 end.
Definition getHeight (p : Pixels) : Z :=
  match p with Some img => imageHeight img | None => 0 end.

(** The collaborators of openFrameworks.
    - [decodeImageFile path]: what [ofLoadImage(pix, path)] decodes; on
      [None] it returns [false] and leaves [pix] as it was.
    - [fileExists path]: [ofFile(path).exists()].
    - [listDir folder ext]: the paths [dir.getPath(0)], [dir.getPath(1)],
      ... after [dir.allowExt(ext)] (when [ext] is not empty),
      [dir.listDir(folder)] and, on Linux, [dir.sort()]. *)
Record Collaborators := {
  decodeImageFile : string -> option Image;
  fileExists : string -> bool;
  listDir : string -> string -> list string
}.

(** What the object does to the outside, in order. *)
Inductive Event :=
| LogError (module message : string)
| LoadImage (index : nat) (path : string) (ok : bool)
| TextureLoadData (pix : Pixels).

(** ** The loader thread [ImageSequenceLoader<T>] *)

(** Where [threadedFunction] stands: not yet run, about to test the loop
    condition of [preloadAllFrames] at [i], or returned. *)
Inductive WorkerPc := AtStart | AtFrame (i : nat) | Finished.

Record ImageSequenceLoader := {
  loading : bool;
  cancelLoading : bool;
  listening : bool; (* registered with [ofEvents().update] *)
  pc : WorkerPc     (* ghost *)
}.

(** ** The fields of [ofxImageSequence<T>] *)

Record ofxImageSequence := {
  threadLoader : option ImageSequenceLoader; (* NULL is [None] *)
  sequence : list Pixels;
  filenames : list string;
  loadFailed : list bool;
  currentFrame : Z;
  texture : Pixels;
  extension : string;
  folderToLoad : string;
  curLoadFrame : Z;
  maxFrames : Z;
  useThread : bool;
  loaded : bool;
  width : Q; (* float *)
  height : Q;
  lastFrameLoaded : Z;
  frameRate : Q; (* float *)
  minFilter : Z;
  magFilter : Z;
  log : list Event (* ghost: what the object did to the outside *)
}.

(** Assignment to one field. *)
Definition set_threadLoader (v : option ImageSequenceLoader) (s : ofxImageSequence) :=
  {| threadLoader := v; sequence := sequence s; filenames := filenames s;
     loadFailed := loadFailed s; currentFrame := currentFrame s;
     texture := texture s; extension := extension s;
     folderToLoad := folderToLoad s; curLoadFrame := curLoadFrame s;
     maxFrames := maxFrames s; useThread := useThread s;
     loaded := loaded s; width := width s; height := height s;
     lastFrameLoaded := lastFrameLoaded s; frameRate := frameRate s;
     minFilter := minFilter s; magFilter := magFilter s; log := log s |}.
Definition set_sequence (v : list Pixels) (s : ofxImageSequence) :=
  {| threadLoader := threadLoader s; sequence := v;
     filenames := filenames s; loadFailed := loadFailed s;
     currentFrame := currentFrame s; texture := texture s;
     extension := extension s; folderToLoad := folderToLoad s;
     curLoadFrame := curLoadFrame s; maxFrames := maxFrames s;
     useThread := useThread s; loaded := loaded s; width := width s;
     height := height s; lastFrameLoaded := lastFrameLoaded s;
     frameRate := frameRate s; minFilter := minFilter s;
     magFilter := magFilter s; log := log s |}.
Definition set_filenames (v : list string) (s : ofxImageSequence) :=
  {| threadLoader := threadLoader s; sequence := sequence s;
     filenames := v; loadFailed := loadFailed s;
     currentFrame := currentFrame s; texture := texture s;
     extension := extension s; folderToLoad := folderToLoad s;
     curLoadFrame := curLoadFrame s; maxFrames := maxFrames s;
     useThread := useThread s; loaded := loaded s; width := width s;
     height := height s; lastFrameLoaded := lastFrameLoaded s;
     frameRate := frameRate s; minFilter := minFilter s;
     magFilter := magFilter s; log := log s |}.
Definition set_loadFailed (v : list bool) (s : ofxImageSequence) :=
  {| threadLoader := threadLoader s; sequence := sequence s;
     filenames := filenames s; loadFailed := v;
     currentFrame := currentFrame s; texture := texture s;
     extension := extension s; folderToLoad := folderToLoad s;
     curLoadFrame := curLoadFrame s; maxFrames := maxFrames s;
     useThread := useThread s; loaded := loaded s; width := width s;
     height := height s; lastFrameLoaded := lastFrameLoaded s;
     frameRate := frameRate s; minFilter := minFilter s;
     magFilter := magFilter s; log := log s |}.
Definition set_currentFrame (v : Z) (s : ofxImageSequence) :=
  {| threadLoader := threadLoader s; sequence := sequence s;
     filenames := filenames s; loadFailed := loadFailed s;
     currentFrame := v; texture := texture s; extension := extension s;
     folderToLoad := folderToLoad s; curLoadFrame := curLoadFrame s;
     maxFrames := maxFrames s; useThread := useThread s;
     loaded := loaded s; width := width s; height := height s;
     lastFrameLoaded := lastFrameLoaded s; frameRate := frameRate s;
     minFilter := minFilter s; magFilter := magFilter s; log := log s |}.
Definition set_texture (v : Pixels) (s : ofxImageSequence) :=
  {| threadLoader := threadLoader s; sequence := sequence s;
     filenames := filenames s; loadFailed := loadFailed s;
     currentFrame := currentFrame s; texture := v;
     extension := extension s; folderToLoad := folderToLoad s;
     curLoadFrame := curLoadFrame s; maxFrames := maxFrames s;
     useThread := useThread s; loaded := loaded s; width := width s;
     height := height s; lastFrameLoaded := lastFrameLoaded s;
     frameRate := frameRate s; minFilter := minFilter s;
     magFilter := magFilter s; log := log s |}.
Definition set_extension (v : string) (s : ofxImageSequence) :=
  {| threadLoader := threadLoader s; sequence := sequence s;
     filenames := filenames s; loadFailed := loadFailed s;
     currentFrame := currentFrame s; texture := texture s; extension := v;
     folderToLoad := folderToLoad s; curLoadFrame := curLoadFrame s;
     maxFrames := maxFrames s; useThread := useThread s;
     loaded := loaded s; width := width s; height := height s;
     lastFrameLoaded := lastFrameLoaded s; frameRate := frameRate s;
     minFilter := minFilter s; magFilter := magFilter s; log := log s |}.
Definition set_folderToLoad (v : string) (s : ofxImageSequence) :=
  {| threadLoader := threadLoader s; sequence := sequence s;
     filenames := filenames s; loadFailed := loadFailed s;
     currentFrame := currentFrame s; texture := texture s;
     extension := extension s; folderToLoad := v;
     curLoadFrame := curLoadFrame s; maxFrames := maxFrames s;
     useThread := useThread s; loaded := loaded s; width := width s;
     height := height s; lastFrameLoaded := lastFrameLoaded s;
     frameRate := frameRate s; minFilter := minFilter s;
     magFilter := magFilter s; log := log s |}.
Definition set_curLoadFrame (v : Z) (s : ofxImageSequence) :=
  {| threadLoader := threadLoader s; sequence := sequence s;
     filenames := filenames s; loadFailed := loadFailed s;
     currentFrame := currentFrame s; texture := texture s;
     extension := extension s; folderToLoad := folderToLoad s;
     curLoadFrame := v; maxFrames := maxFrames s; useThread := useThread s;
     loaded := loaded s; width := width s; height := height s;
     lastFrameLoaded := lastFrameLoaded s; frameRate := frameRate s;
     minFilter := minFilter s; magFilter := magFilter s; log := log s |}.
Definition set_maxFrames (v : Z) (s : ofxImageSequence) :=
  {| threadLoader := threadLoader s; sequence := sequence s;
     filenames := filenames s; loadFailed := loadFailed s;
     currentFrame := currentFrame s; texture := texture s;
     extension := extension s; folderToLoad := folderToLoad s;
     curLoadFrame := curLoadFrame s; maxFrames := v;
     useThread := useThread s; loaded := loaded s; width := width s;
     height := height s; lastFrameLoaded := lastFrameLoaded s;
     frameRate := frameRate s; minFilter := minFilter s;
     magFilter := magFilter s; log := log s |}.
Definition set_useThread (v : bool) (s : ofxImageSequence) :=
  {| threadLoader := threadLoader s; sequence := sequence s;
     filenames := filenames s; loadFailed := loadFailed s;
     currentFrame := currentFrame s; texture := texture s;
     extension := extension s; folderToLoad := folderToLoad s;
     curLoadFrame := curLoadFrame s; maxFrames := maxFrames s;
     useThread := v; loaded := loaded s; width := width s;
     height := height s; lastFrameLoaded := lastFrameLoaded s;
     frameRate := frameRate s; minFilter := minFilter s;
     magFilter := magFilter s; log := log s |}.
Definition set_loaded (v : bool) (s : ofxImageSequence) :=
  {| threadLoader := threadLoader s; sequence := sequence s;
     filenames := filenames s; loadFailed := loadFailed s;
     currentFrame := currentFrame s; texture := texture s;
     extension := extension s; folderToLoad := folderToLoad s;
     curLoadFrame := curLoadFrame s; maxFrames := maxFrames s;
     useThread := useThread s; loaded := v; width := width s;
     height := height s; lastFrameLoaded := lastFrameLoaded s;
     frameRate := frameRate s; minFilter := minFilter s;
     magFilter := magFilter s; log := log s |}.
Definition set_width (v : Q) (s : ofxImageSequence) :=
  {| threadLoader := threadLoader s; sequence := sequence s;
     filenames := filenames s; loadFailed := loadFailed s;
     currentFrame := currentFrame s; texture := texture s;
     extension := extension s; folderToLoad := folderToLoad s;
     curLoadFrame := curLoadFrame s; maxFrames := maxFrames s;
     useThread := useThread s; loaded := loaded s; width := v;
     height := height s; lastFrameLoaded := lastFrameLoaded s;
     frameRate := frameRate s; minFilter := minFilter s;
     magFilter := magFilter s; log := log s |}.
Definition set_height (v : Q) (s : ofxImageSequence) :=
  {| threadLoader := threadLoader s; sequence := sequence s;
     filenames := filenames s; loadFailed := loadFailed s;
     currentFrame := currentFrame s; texture := texture s;
     extension := extension s; folderToLoad := folderToLoad s;
     curLoadFrame := curLoadFrame s; maxFrames := maxFrames s;
     useThread := useThread s; loaded := loaded s; width := width s;
     height := v; lastFrameLoaded := lastFrameLoaded s;
     frameRate := frameRate s; minFilter := minFilter s;
     magFilter := magFilter s; log := log s |}.
Definition set_lastFrameLoaded (v : Z) (s : ofxImageSequence) :=
  {| threadLoader := threadLoader s; sequence := sequence s;
     filenames := filenames s; loadFailed := loadFailed s;
     currentFrame := currentFrame s; texture := texture s;
     extension := extension s; folderToLoad := folderToLoad s;
     curLoadFrame := curLoadFrame s; maxFrames := maxFrames s;
     useThread := useThread s; loaded := loaded s; width := width s;
     height := height s; lastFrameLoaded := v; frameRate := frameRate s;
     minFilter := minFilter s; magFilter := magFilter s; log := log s |}.
Definition set_frameRate (v : Q) (s : ofxImageSequence) :=
  {| threadLoader := threadLoader s; sequence := sequence s;
     filenames := filenames s; loadFailed := loadFailed s;
     currentFrame := currentFrame s; texture := texture s;
     extension := extension s; folderToLoad := folderToLoad s;
     curLoadFrame := curLoadFrame s; maxFrames := maxFrames s;
     useThread := useThread s; loaded := loaded s; width := width s;
     height := height s; lastFrameLoaded := lastFrameLoaded s;
     frameRate := v; minFilter := minFilter s; magFilter := magFilter s;
     log := log s |}.
Definition set_minFilter (v : Z) (s : ofxImageSequence) :=
  {| threadLoader := threadLoader s; sequence := sequence s;
     filenames := filenames s; loadFailed := loadFailed s;
     currentFrame := currentFrame s; texture := texture s;
     extension := extension s; folderToLoad := folderToLoad s;
     curLoadFrame := curLoadFrame s; maxFrames := maxFrames s;
     useThread := useThread s; loaded := loaded s; width := width s;
     height := height s; lastFrameLoaded := lastFrameLoaded s;
     frameRate := frameRate s; minFilter := v; magFilter := magFilter s;
     log := log s |}.
Definition set_magFilter (v : Z) (s : ofxImageSequence) :=
  {| threadLoader := threadLoader s; sequence := sequence s;
     filenames := filenames s; loadFailed := loadFailed s;
     currentFrame := currentFrame s; texture := texture s;
     extension := extension s; folderToLoad := folderToLoad s;
     curLoadFrame := curLoadFrame s; maxFrames := maxFrames s;
     useThread := useThread s; loaded := loaded s; width := width s;
     height := height s; lastFrameLoaded := lastFrameLoaded s;
     frameRate := frameRate s; minFilter := minFilter s; magFilter := v;
     log := log s |}.
Definition set_log (v : list Event) (s : ofxImageSequence) :=
  {| threadLoader := threadLoader s; sequence := sequence s;
     filenames := filenames s; loadFailed := loadFailed s;
     currentFrame := currentFrame s; texture := texture s;
     extension := extension s; folderToLoad := folderToLoad s;
     curLoadFrame := curLoadFrame s; maxFrames := maxFrames s;
     useThread := useThread s; loaded := loaded s; width := width s;
     height := height s; lastFrameLoaded := lastFrameLoaded s;
     frameRate := frameRate s; minFilter := minFilter s;
     magFilter := magFilter s; log := v |}.

(* ===================================================================== *)
(** ** The monad of methods

    A method reads and updates the object; it has no result where the C++
    program has undefined behaviour (an index outside a vector, signed
    overflow, a malformed format, a null pointer). *)
(* ===================================================================== *)

Definition M (A : Type) : Type := ofxImageSequence -> option (A * ofxImageSequence).

Definition ret {A} (a : A) : M A := fun s => Some (a, s).
Definition bind {A B} (m : M A) (k : A -> M B) : M B :=
  fun s => match m s with Some (a, s') => k a s' | None => None end.
Definition undefined {A} : M A := fun _ => None.
Definition get : M ofxImageSequence := fun s => Some (s, s).
Definition modify (f : ofxImageSequence -> ofxImageSequence) : M unit :=
  fun s => Some (tt, f s).
Definition defined {A} (o : option A) : M A :=
  fun s => match o with Some a => Some (a, s) | None => None end.

Notation "'do' x <- m ; k" := (bind m (fun x => k))
  (at level 10, x name, m at level 100, k at level 200,
   format "'[v' 'do'  x  <-  m ; '/' k ']'").
Notation "'run' m ; k" := (bind m (fun _ => k))
  (at level 10, m at level 100, k at level 200,
   format "'[v' 'run'  m ; '/' k ']'").

(** [v[i]] on a [vector]: undefined outside the vector. *)
Definition at_index {A} (v : list A) (i : nat) : M A := defined (v !! i).

Definition ofLogError (module message : string) : M unit :=
  modify (fun s => set_log (log s ++ [LogError module message]) s).

Definition getTotalFrames (s : ofxImageSequence) : Z :=
  to_int (Z.of_nat (length (sequence s))).

Definition isLoaded (s : ofxImageSequence) : bool := loaded s.

Definition isLoading (s : ofxImageSequence) : bool :=
  match threadLoader s with Some l => loading l | None => false end.

(** The constructor sets neither [width] and [height] nor the two filters:
    they start with whatever the memory holds. *)
Definition constructor (width0 height0 : Q) (minFilter0 magFilter0 : Z) : ofxImageSequence :=
  {| threadLoader := None; sequence := []; filenames := []; loadFailed := [];
     currentFrame := 0; texture := None; extension := EmptyString;
     folderToLoad := EmptyString;
     curLoadFrame := 0; maxFrames := 0; useThread := false; loaded := false;
     width := width0; height := height0; lastFrameLoaded := -1;
     frameRate := 30%Q; minFilter := minFilter0; magFilter := magFilter0;
     log := [] |}.

Section Methods.

Variable T : PixelType.
Variable env : Collaborators.

(** [ofLoadImage(sequence[i], filenames[i])]. *)
Definition ofLoadImage (i : nat) : M bool :=
  do s <- get;
  do _ <- at_index (sequence s) i;
  do path <- at_index (filenames s) i;
  match decodeImageFile env path with
  | Some img =>
      run modify (fun s => set_log (log s ++ [LoadImage i path true])
                             (set_sequence (<[i := Some img]> (sequence s)) s));
      ret true
  | None =>
      run modify (fun s => set_log (log s ++ [LoadImage i path false]) s);
      ret false
  end.

(** [loadFailed[i] = true]. *)
Definition markFailed (i : nat) : M unit :=
  do s <- get;
  do _ <- at_index (loadFailed s) i;
  modify (fun s => set_loadFailed (<[i := true]> (loadFailed s)) s).

(** [texture.loadData(sequence[i])]. *)
Definition textureLoadData (i : nat) : M unit :=
  do s <- get;
  do pix <- at_index (sequence s) i;
  modify (fun s => set_log (log s ++ [TextureLoadData pix]) (set_texture pix s)).

Definition loadFrame (imageIndex : Z) : M unit :=
  do s <- get;
  if lastFrameLoaded s =? imageIndex then ret tt
  else if (imageIndex <? 0) || (imageIndex >=? Z.of_nat (length (sequence s))) then
    ofLogError "ofxImageSequence<T>::loadFrame"
      ("Calling a frame out of bounds: " +:+ ostream_int imageIndex)
  else
    let i := Z.to_nat imageIndex in
    do pix <- at_index (sequence s) i;
    do todo <- (if isAllocated pix then ret false
                else do failed <- at_index (loadFailed s) i; ret (negb failed));
    run (if todo : bool then
           do path <- at_index (filenames s) i;
           do ok <- ofLoadImage i;
           if ok : bool then ret tt
           else
             run markFailed i;
             ofLogError "ofxImageSequence<T>::loadFrame"
               ("Image failed to load: " +:+ path)
         else ret tt);
    do s <- get;
    do failed <- at_index (loadFailed s) i;
    if failed : bool then ret tt
    else
      run textureLoadData i;
      modify (set_lastFrameLoaded imageIndex).

(** One turn of the loop of [preloadAllFrames] at index [i]; the result is
    [false] when the method returns from inside the loop.  The lock around
    the read of [cancelLoading] and [ofSleepMillis(15)] change nothing of
    the object. *)
Definition preloadFrame (i : nat) : M bool :=
  do s <- get;
  let go :=
    if useThread s then
      match threadLoader s with
      | None => false
      | Some l => negb (cancelLoading l)
      end
    else true in
  if go then
    run modify (set_curLoadFrame (Z.of_nat i));
    do path <- at_index (filenames s) i;
    do ok <- ofLoadImage i;
    if ok : bool then ret true
    else
      run markFailed i;
      run ofLogError "ofxImageSequence<T>::loadFrame"
            ("Image failed to load: " +:+ path);
      ret true
  else ret false.

(** The loop [for (int i = ...; i < sequence.size(); i++)] from [i] on,
    [n] being the number of indices from [i] to the size. *)
Fixpoint preloadFrames (n i : nat) : M unit :=
  match n with
  | O => ret tt
  | S n' =>
      do continue <- preloadFrame i;
      if continue : bool then preloadFrames n' (S i) else ret tt
  end.

Definition preloadAllFrames : M unit :=
  do s <- get;
  if (length (sequence s) =? 0)%nat then
    ofLogError "ofxImageSequence<T>::loadFrame"
      "Calling preloadAllFrames on unitialized image sequence."
  else preloadFrames (length (sequence s)) 0.

(** The block that pushes an empty buffer of the type [pixelType] names;
    the result is [false] on the branch that logs and returns. *)
Definition pushPixels (pixelType : TypeName) : M bool :=
  if TypeName_eqb pixelType (NameOfPixels ofPixels) then
    run modify (fun s => set_sequence (sequence s ++ [None]) s); ret true
  else if TypeName_eqb pixelType (NameOfPixels ofShortPixels) then
    run modify (fun s => set_sequence (sequence s ++ [None]) s); ret true
  else if TypeName_eqb pixelType (NameOfPixels ofFloatPixels) then
    run modify (fun s => set_sequence (sequence s ++ [None]) s); ret true
  else
    run ofLogError "ofxImageSequence<T>::loadSequence"
          "Unrecognised type. Only ofPixels, ofShortPixels, ofFloatPixels are valid.";
    ret false.

(** The loop of [preloadAllFilenames] over [dir.getPath(i)], [i < numFiles];
    [pixelType] there is [typeid( *this).name()]. *)
Fixpoint pushPaths (paths : list string) : M bool :=
  match paths with
  | [] => ret true
  | path :: rest =>
      run modify (fun s => set_filenames (filenames s ++ [path]) s);
      do ok <- pushPixels (NameOfImageSequence T);
      if ok : bool then
        run modify (fun s => set_loadFailed (loadFailed s ++ [false]) s);
        pushPaths rest
      else ret false
  end.

(** [listing] is what the directory holds after [dir.listDir], the count
    that call returns being its length. *)
Definition preloadAllFilenames : M bool :=
  do s <- get;
  if negb (fileExists env (folderToLoad s)) then
    run ofLogError "ofxImageSequence<T>::loadSequence"
          ("Could not find folder " +:+ folderToLoad s);
    ret false
  else
    let listing := listDir env (folderToLoad s) (extension s) in
    let listed := Z.of_nat (length listing) in
    let numFiles := if maxFrames s >? 0 then MIN listed (maxFrames s) else listed in
    if numFiles =? 0 then
      run ofLogError "ofxImageSequence<T>::loadSequence"
            ("No image files found in " +:+ folderToLoad s);
      ret false
    else pushPaths (take (Z.to_nat numFiles) listing).

Definition completeLoading : M unit :=
  do s <- get;
  if (length (sequence s) =? 0)%nat then
    ofLogError "ofxImageSequence<T>::completeLoading"
      "load failed with empty image sequence"
  else
    run modify (set_loaded true);
    run modify (set_lastFrameLoaded (-1));
    run loadFrame 0;
    do s <- get;
    do first <- at_index (sequence s) 0;
    run modify (set_width (f32_of_size_t (getWidth first)));
    modify (set_height (f32_of_size_t (getHeight first))).

(** *** The loader thread *)

Definition setLoader (f : ImageSequenceLoader -> ImageSequenceLoader) : M unit :=
  do s <- get;
  match threadLoader s with
  | Some l => modify (set_threadLoader (Some (f l)))
  | None => undefined
  end.

Definition set_loading (v : bool) (l : ImageSequenceLoader) :=
  {| loading := v; cancelLoading := cancelLoading l;
     listening := listening l; pc := pc l |}.
Definition set_cancelLoading (v : bool) (l : ImageSequenceLoader) :=
  {| loading := loading l; cancelLoading := v;
     listening := listening l; pc := pc l |}.
Definition set_listening (v : bool) (l : ImageSequenceLoader) :=
  {| loading := loading l; cancelLoading := cancelLoading l;
     listening := v; pc := pc l |}.
Definition set_pc (v : WorkerPc) (l : ImageSequenceLoader) :=
  {| loading := loading l; cancelLoading := cancelLoading l;
     listening := listening l; pc := v |}.

(** [threadedFunction] returns, after [loading = false]. *)
Definition workerReturn : M unit :=
  run setLoader (set_loading false);
  setLoader (set_pc Finished).

(** One atomic step of [threadedFunction]: from its start up to the first
    test of the loop of [preloadAllFrames], or one turn of that loop. *)
Definition workerStep : M unit :=
  do s <- get;
  match threadLoader s with
  | None => ret tt
  | Some l =>
      match pc l with
      | AtStart =>
          run setLoader (set_listening true);
          do found <- preloadAllFilenames;
          if negb found then workerReturn
          else
            do s <- get;
            do l <- defined (threadLoader s);
            if cancelLoading l then
              run setLoader (set_cancelLoading false);
              workerReturn
            else if (length (sequence s) =? 0)%nat then
              run ofLogError "ofxImageSequence<T>::loadFrame"
                    "Calling preloadAllFrames on unitialized image sequence.";
              workerReturn
            else setLoader (set_pc (AtFrame 0))
      | AtFrame i =>
          if (i <? length (sequence s))%nat then
            do continue <- preloadFrame i;
            if continue : bool then setLoader (set_pc (AtFrame (S i)))
            else workerReturn
          else workerReturn
      | Finished => ret tt
      end
  end.

Fixpoint workerSteps (n : nat) : M unit :=
  match n with
  | O => ret tt
  | S n' => run workerStep; workerSteps n'
  end.

(** [waitForThread(true)]: the caller blocks until [threadedFunction] has
    returned; the loop has at most one turn per frame left. *)
Definition waitForThread : M unit :=
  run workerStep;
  do s <- get;
  workerSteps (S (length (sequence s))).

(** [ImageSequenceLoader::cancel]. *)
Definition cancel : M unit :=
  do s <- get;
  do l <- defined (threadLoader s);
  if loading l then
    run setLoader (set_listening false);
    run setLoader (set_cancelLoading true);
    run setLoader (set_loading false);
    waitForThread
  else ret tt.

(** [delete threadLoader; threadLoader = NULL;] (the destructor calls
    [cancel]). *)
Definition deleteLoader : M unit :=
  run cancel;
  modify (set_threadLoader None).

(** [ImageSequenceLoader::updateThreadedLoad], called on the owner's thread
    at every update event while the loader listens.  The event is the one
    delivered to the loader the object holds: a listener that a deleted
    loader has left registered ([cancel] removes it only while [loading])
    is outside this model. *)
Definition updateThreadedLoad : M unit :=
  do s <- get;
  match threadLoader s with
  | Some l =>
      if listening l then
        if loading l then ret tt
        else
          run setLoader (set_listening false);
          if getTotalFrames s >? 0 then completeLoading else ret tt
      else ret tt
  | None => ret tt
  end.

(** *** Loading and unloading *)

Definition cancelLoad : M unit :=
  do s <- get;
  if useThread s && bool_decide (threadLoader s <> None) then
    run cancel;
    deleteLoader
  else ret tt.

Definition unloadSequence : M unit :=
  do s <- get;
  run (if bool_decide (threadLoader s <> None) then deleteLoader else ret tt);
  run modify (set_sequence []);
  run modify (set_filenames []);
  run modify (set_loadFailed []);
  run modify (set_loaded false);
  run modify (set_width 0%Q);
  run modify (set_height 0%Q);
  run modify (set_curLoadFrame 0);
  run modify (set_lastFrameLoaded (-1));
  modify (set_currentFrame 0).

(** The loop [for (int i = ...; i <= endDigit; i++)] of the load by an
    explicit range, from [i] on; [fuel] bounds the number of turns. *)
Fixpoint loadRange (fuel : nat) (format : string) (i endDigit : Z) : M bool :=
  if i <=? endDigit then
    match fuel with
    | O => undefined
    | S fuel' =>
        do imagename <- defined (sprintf 1024 format [i]);
        run modify (fun s => set_filenames (filenames s ++ [imagename]) s);
        do ok <- pushPixels (NameOfPixels T);
        if ok : bool then
          run modify (fun s => set_loadFailed (loadFailed s ++ [false]) s);
          do i' <- defined (int_add i 1);
          loadRange fuel' format i' endDigit
        else ret false
    end
  else ret true.

Definition loadSequence (prefix filetype : string)
    (startDigit endDigit numDigits : Z) : M bool :=
  run unloadSequence;
  do d <- defined (int_sub endDigit startDigit);
  do numFiles <- defined (int_add d 1);
  if numFiles <=? 0 then
    run ofLogError "ofxImageSequence<T>::loadSequence" "No image files found.";
    ret false
  else
    let format :=
      if negb (numDigits =? 0)
      then prefix +:+ "%0" +:+ ostream_int numDigits +:+ "d." +:+ filetype
      else prefix +:+ "%d." +:+ filetype in
    do ok <- loadRange (Z.to_nat numFiles) format startDigit endDigit;
    if ok : bool then
      run modify (set_loaded true);
      run modify (set_lastFrameLoaded (-1));
      run loadFrame 0;
      do s <- get;
      do first <- at_index (sequence s) 0;
      run modify (set_width (f32_of_size_t (getWidth first)));
      run modify (set_height (f32_of_size_t (getHeight first)));
      ret true
    else ret false.

(** The overload without [numDigits]. *)
Definition loadSequence4 (prefix filetype : string) (startDigit endDigit : Z) : M bool :=
  loadSequence prefix filetype startDigit endDigit 0.

Definition newLoader : ImageSequenceLoader :=
  {| loading := true; cancelLoading := false; listening := false; pc := AtStart |}.

Definition loadSequenceFolder (folder : string) : M bool :=
  run unloadSequence;
  run modify (set_folderToLoad folder);
  do s <- get;
  if useThread s then
    run modify (set_threadLoader (Some newLoader));
    ret true
  else
    do found <- preloadAllFilenames;
    if found : bool then
      run completeLoading;
      ret true
    else ret false.

(** *** Configuration *)

Definition setMaxFrames (newMaxFrames : Z) : M unit :=
  run modify (set_maxFrames (MAX newMaxFrames 0));
  do s <- get;
  if loaded s then
    ofLogError "ofxImageSequence<T>::setMaxFrames"
      "Max frames must be called before load"
  else ret tt.

Definition setExtension (ext : string) : M unit := modify (set_extension ext).

Definition enableThreadedLoad (enable : bool) : M unit :=
  do s <- get;
  run (if loaded s then
         ofLogError "ofxImageSequence<T>::enableThreadedLoad"
           "Need to enable threaded loading before calling load"
       else ret tt);
  modify (set_useThread enable).

Definition setMinMagFilter (newMinFilter newMagFilter : Z) : M unit :=
  run modify (set_minFilter newMinFilter);
  modify (set_magFilter newMagFilter).

Definition setFrameRate (rate : Q) : M unit := modify (set_frameRate rate).

(** *** Queries *)

(** [1.0 * curLoadFrame / sequence.size()] is a division of [double]s whose
    quotient is returned as a [float]. *)
Definition percentLoaded (s : ofxImageSequence) : Q :=
  if isLoaded s then 1%Q
  else if isLoading s && (0 <? length (sequence s))%nat then
    round32 (round64 (inject_Z (curLoadFrame s)
                      / inject_Z (Z.of_nat (length (sequence s)))))
  else 0%Q.

Definition getFilePath (index : Z) : M string :=
  do s <- get;
  if (index >? 0) && (index <? Z.of_nat (length (filenames s))) then
    at_index (filenames s) (Z.to_nat index)
  else
    run ofLogError "ofxImageSequence<T>::getFilePath"
          "Getting filename outside of range";
    ret EmptyString.

(** [if (percent < 0.0 || percent > 1.0) percent -= floor(percent);]
    The comparisons with the [double] constants are exact; [floor] at a
    [float] is the [float] function, and the difference is a [float]. *)
Definition wrapPercent (percent : Q) : option Q :=
  if f32_lt percent 0 || f32_lt 1 percent
  then f32_sub percent (f32_floor percent)
  else Some percent.

Definition getFrameIndexAtPercent (percent : Q) : M Z :=
  do s <- get;
  let size := Z.of_nat (length (sequence s)) in
  do percent <- defined (wrapPercent percent);
  do product <- defined (f32_mul percent (f32_of_size_t size));
  do index <- defined (f32_to_int product);
  ret (to_int (MIN_int_size_t index (to_size_t (size - 1)))).

(** *** The cursor *)

Definition setFrame (index : Z) : M unit :=
  do s <- get;
  if negb (loaded s) then
    ofLogError "ofxImageSequence<T>::setFrame"
      "Calling getFrame on unitialized image sequence."
  else if index <? 0 then
    ofLogError "ofxImageSequence<T>::setFrame" "Asking for negative index."
  else
    do index <- defined (int_rem index (getTotalFrames s));
    run loadFrame index;
    modify (set_currentFrame index).

Definition setFrameAtPercent (percent : Q) : M unit :=
  do index <- getFrameIndexAtPercent percent;
  setFrame index.

Definition setFrameForTime (time : Q) : M unit :=
  do s <- get;
  do totalTime <- defined (f32_div (f32_of_size_t (Z.of_nat (length (sequence s))))
                                   (frameRate s));
  do percent <- defined (f32_div time totalTime);
  setFrameAtPercent percent.

Definition getTexture : M Pixels := do s <- get; ret (texture s).

Definition getTextureForFrame (index : Z) : M Pixels :=
  run setFrame index; getTexture.
Definition getTextureForTime (time : Q) : M Pixels :=
  run setFrameForTime time; getTexture.
Definition getTextureForPercent (percent : Q) : M Pixels :=
  run setFrameAtPercent percent; getTexture.

(** [return sequence[lastFrameLoaded];] *)
Definition pixelsAtLastFrame : M Pixels :=
  do s <- get;
  if lastFrameLoaded s <? 0 then undefined
  else at_index (sequence s) (Z.to_nat (lastFrameLoaded s)).

Definition getPixelsForFrame (index : Z) : M Pixels :=
  run setFrame index; pixelsAtLastFrame.
Definition getPixelsForTime (time : Q) : M Pixels :=
  run setFrameForTime time; pixelsAtLastFrame.
Definition getPixelsForPercent (percent : Q) : M Pixels :=
  run setFrameAtPercent percent; pixelsAtLastFrame.

(** *** Every operation on the object *)

(** The public methods, and the two things that happen to the object from
    the outside: a step of the loader thread and an update event. *)
Inductive Call :=
| CallSetExtension (ext : string)
| CallSetMaxFrames (maxFrames : Z)
| CallEnableThreadedLoad (enable : bool)
| CallLoadSequence4 (prefix filetype : string) (startIndex endIndex : Z)
| CallLoadSequence (prefix filetype : string) (startIndex endIndex numDigits : Z)
| CallLoadSequenceFolder (folder : string)
| CallCancelLoad
| CallPreloadAllFrames
| CallUnloadSequence
| CallSetFrameRate (rate : Q)
| CallGetTextureForFrame (index : Z)
| CallGetTextureForTime (time : Q)
| CallGetTextureForPercent (percent : Q)
| CallGetPixelsForFrame (index : Z)
| CallGetPixelsForTime (time : Q)
| CallGetPixelsForPercent (percent : Q)
| CallSetFrame (index : Z)
| CallSetFrameForTime (time : Q)
| CallSetFrameAtPercent (percent : Q)
| CallGetFilePath (index : Z)
| CallLoadFrame (imageIndex : Z)
| CallSetMinMagFilter (minFilter magFilter : Z)
| CallCompleteLoading
| CallPreloadAllFilenames
| WorkerStep
| UpdateEvent.

Definition discard {A} (m : M A) : M unit := run m; ret tt.

Definition call (c : Call) : M unit :=
  match c with
  | CallSetExtension ext => setExtension ext
  | CallSetMaxFrames n => setMaxFrames n
  | CallEnableThreadedLoad b => enableThreadedLoad b
  | CallLoadSequence4 prefix filetype a b => discard (loadSequence4 prefix filetype a b)
  | CallLoadSequence prefix filetype a b n => discard (loadSequence prefix filetype a b n)
  | CallLoadSequenceFolder folder => discard (loadSequenceFolder folder)
  | CallCancelLoad => cancelLoad
  | CallPreloadAllFrames => preloadAllFrames
  | CallUnloadSequence => unloadSequence
  | CallSetFrameRate rate => setFrameRate rate
  | CallGetTextureForFrame index => discard (getTextureForFrame index)
  | CallGetTextureForTime time => discard (getTextureForTime time)
  | CallGetTextureForPercent percent => discard (getTextureForPercent percent)
  | CallGetPixelsForFrame index => discard (getPixelsForFrame index)
  | CallGetPixelsForTime time => discard (getPixelsForTime time)
  | CallGetPixelsForPercent percent => discard (getPixelsForPercent percent)
  | CallSetFrame index => setFrame index
  | CallSetFrameForTime time => setFrameForTime time
  | CallSetFrameAtPercent percent => setFrameAtPercent percent
  | CallGetFilePath index => discard (getFilePath index)
  | CallLoadFrame imageIndex => loadFrame imageIndex
  | CallSetMinMagFilter a b => setMinMagFilter a b
  | CallCompleteLoading => completeLoading
  | CallPreloadAllFilenames => discard preloadAllFilenames
  | WorkerStep => workerStep
  | UpdateEvent => updateThreadedLoad
  end.

(** The states the object can be in: built by the constructor, then any
    operation whose behaviour is defined. *)
Inductive reachable : ofxImageSequence -> Prop :=
| reachable_new w h minF magF : reachable (constructor w h minF magF)
| reachable_call c s s' :
    reachable s -> call c s = Some (tt, s') -> reachable s'.

End Methods.

End Model.

(* ===================================================================== *)
(** ** Concrete disks and objects used as examples *)
(* ===================================================================== *)

Module Fixtures.
Import Model.

Definition image (n : Z) : Image :=
  {| imageWidth := 4; imageHeight := 3; imageData := [n] |}.

(** A disk with no file at all. *)
Definition emptyDisk : Collaborators :=
  {| decodeImageFile := fun _ => None;
     fileExists := fun _ => false;
     listDir := fun _ _ => [] |}.

(** A disk with the frames [img8.png], [img9.png], [img10.png] and the
    folder [frames] that holds [a.png] and [b.png]. *)
Definition framesDisk : Collaborators :=
  {| decodeImageFile := fun path =>
       if String.eqb path "img8.png" then Some (image 8)
       else if String.eqb path "img9.png" then Some (image 9)
       else if String.eqb path "img10.png" then Some (image 10)
       else if String.eqb path "frames/a.png" then Some (image 1)
       else if String.eqb path "frames/b.png" then Some (image 2)
       else None;
     fileExists := fun path => String.eqb path "frames";
     listDir := fun folder _ =>
       if String.eqb folder "frames" then ["frames/a.png"; "frames/b.png"] else [] |}.

(** A disk on which every path decodes. *)
Definition solidDisk : Collaborators :=
  {| decodeImageFile := fun _ => Some (image 0);
     fileExists := fun _ => true;
     listDir := fun _ _ => [] |}.

Definition fresh : ofxImageSequence := constructor 0 0 0 0.

Definition stateAfter {A} (m : M A) (s : ofxImageSequence) : ofxImageSequence :=
  match m s with Some (_, s') => s' | None => s end.

(** The object after [loadSequence("img", "png", 8, 10)] on [framesDisk]. *)
Definition loadedExample : ofxImageSequence :=
  stateAfter (loadSequence4 ofPixels framesDisk "img" "png" 8 10) fresh.

(** The object after [loadSequence("img", "png", 8, 11)] on [framesDisk]:
    its last frame names a file that is not there. *)
Definition fourFrames : ofxImageSequence :=
  stateAfter (loadSequence4 ofPixels framesDisk "img" "png" 8 11) fresh.

(** The object after [loadSequence("f", "png", 0, 9)] on [solidDisk]: ten
    frames, the first of them decoded. *)
Definition tenFrames : ofxImageSequence :=
  stateAfter (loadSequence4 ofPixels solidDisk "f" "png" 0 9) fresh.

(** The object after [enableThreadedLoad(true)] and
    [loadSequence("frames")] on [framesDisk]: the loader thread is created
    and has not run yet. *)
Definition threadedLoad : ofxImageSequence :=
  stateAfter (loadSequenceFolder ofPixels framesDisk "frames")
    (stateAfter (enableThreadedLoad true) fresh).

(** The same object once the thread has run. *)
Definition threadReturned : ofxImageSequence :=
  stateAfter (workerStep ofPixels framesDisk) threadedLoad.

End Fixtures.
Import Model Fixtures CTypes Float CStdio.

(* ===================================================================== *)
(** ** Vocabulary of the statements *)
(* ===================================================================== *)

(** *** Paths of a load by range *)

(** A string that [sprintf] copies as it is: no [%] and no NUL. *)
Fixpoint plain (s : string) : bool :=
  match s with
  | EmptyString => true
  | String c rest => negb (Ascii.eqb c "%") && negb (Ascii.eqb c Ascii.zero) && plain rest
  end.

(** The decimal text of [i], filled with zeros after the sign up to
    [digits] characters; [digits = 0] asks for no filling. *)
Definition pad (i : Z) (digits : nat) : string :=
  if (digits =? 0)%nat then ostream_int i
  else
    let sign := if i <? 0 then "-" else EmptyString in
    let body := CStdio.digits (Z.to_N (Z.abs i)) in
    sign +:+ replicate_char (digits - (String.length sign + String.length body)) "0" +:+ body.

(** The path [prefix + pad(i, digits) + "." + filetype]. *)
Definition expectedPath (prefix filetype : string) (digits : nat) (i : Z) : string :=
  prefix +:+ pad i digits +:+ "." +:+ filetype.

(** The value of a decimal numeral read from the left, [acc] being the
    value of the digits already read. *)
Fixpoint uvalue (d : uint) (acc : N) : N :=
  match d with
  | Nil => acc
  | D0 l => uvalue l (10 * acc + 0)
  | D1 l => uvalue l (10 * acc + 1)
  | D2 l => uvalue l (10 * acc + 2)
  | D3 l => uvalue l (10 * acc + 3)
  | D4 l => uvalue l (10 * acc + 4)
  | D5 l => uvalue l (10 * acc + 5)
  | D6 l => uvalue l (10 * acc + 6)
  | D7 l => uvalue l (10 * acc + 7)
  | D8 l => uvalue l (10 * acc + 8)
  | D9 l => uvalue l (10 * acc + 9)
  end%N.

(** The format string [loadSequence] builds in its [stringstream]. *)
Definition formatOf (prefix filetype : string) (numDigits : Z) : string :=
  if negb (numDigits =? 0)
  then prefix +:+ "%0" +:+ ostream_int numDigits +:+ "d." +:+ filetype
  else prefix +:+ "%d." +:+ filetype.

(** The names [sprintf] writes for [i], [i + 1], ..., [n] of them. *)
Fixpoint rangeNames (format : string) (i : Z) (n : nat) : option (list string) :=
  match n with
  | O => Some []
  | S n' =>
      match sprintf 1024 format [i], rangeNames format (i + 1) n' with
      | Some name, Some rest => Some (name :: rest)
      | _, _ => None
      end
  end.

(** *** Frame index of a percentage *)

(** The exponent of the last place of [x] in a format. *)
Definition exponent (prec emin : Z) (x : Q) : Z := Z.max (ilog2 x - (prec - 1)) emin.

(** The index the method returns for a percentage [p] already wrapped:
    the product is rounded to [float] before it is cut to an [int]. *)
Definition frameIndexOf (p : Q) (n : Z) : Z :=
  Z.min (Qfloor (round32 (p * inject_Z n))) (n - 1).

Definition inUnit (p : Q) : Prop := (0 <= p /\ p <= 1)%Q.

(** The index as the specification words it, over the rationals: [p]
    less its floor when it lies outside [0, 1], then the floor of the
    product with the frame count, at most the last index. *)
Definition frameIndexAtPercent_spec (p : Q) (frameCount : Z) : Z :=
  let p' := if Qle_bool 0 p && Qle_bool p 1 then p else (p - inject_Z (Qfloor p))%Q in
  Z.min (Qfloor (p' * inject_Z frameCount)) (frameCount - 1).

(** *** Well-formed objects and what the methods keep *)

(** The three vectors go together: one flag per buffer, and a name for
    every buffer. *)
Definition wf (s : ofxImageSequence) : Prop :=
  length (loadFailed s) = length (sequence s) /\
  (length (sequence s) <= length (filenames s))%nat.

(** What decoding, uploading, logging and the loader thread leave alone. *)
Definition keeps (s s' : ofxImageSequence) : Prop :=
  length (sequence s') = length (sequence s) /\
  length (loadFailed s') = length (loadFailed s) /\
  (length (filenames s) <= length (filenames s'))%nat /\
  loaded s' = loaded s /\ useThread s' = useThread s /\
  extension s' = extension s /\ maxFrames s' = maxFrames s.

(** Every defined run of [m] relates the object before to the object
    after. *)
Definition stable {A} (R : relation ofxImageSequence) (m : M A) : Prop :=
  forall s a s', m s = Some (a, s') -> R s s'.

(** *** Counting decodes *)

(** The calls of [ofLoadImage] in a log. *)
Fixpoint decodeCalls (l : list Event) : nat :=
  match l with
  | [] => 0
  | LoadImage _ _ _ :: l' => S (decodeCalls l')
  | _ :: l' => decodeCalls l'
  end.

(** The calls of [ofLoadImage] on frame [i] in a log. *)
Fixpoint decodeCallsAt (i : nat) (l : list Event) : nat :=
  match l with
  | [] => 0
  | LoadImage j _ _ :: l' => (if (j =? i)%nat then 1 else 0) + decodeCallsAt i l'
  | _ :: l' => decodeCallsAt i l'
  end.

(** *** The outcomes of [loadFrame] *)

(** The texture takes [pix] and [idx] becomes the last frame loaded. *)
Definition upload (idx : Z) (pix : Pixels) (s : ofxImageSequence) : ofxImageSequence :=
  set_lastFrameLoaded idx (set_log (log s ++ [TextureLoadData pix]) (set_texture pix s)).

(** Frame [i] decoded to [img]. *)
Definition decoded (i : nat) (path : string) (img : Image) (s : ofxImageSequence) :=
  set_log (log s ++ [LoadImage i path true]) (set_sequence (<[i := Some img]> (sequence s)) s).

(** Frame [i] failed to decode: its flag is set and the error is logged. *)
Definition failedDecode (i : nat) (path : string) (s : ofxImageSequence) :=
  set_log (log s ++ [LoadImage i path false;
                     LogError "ofxImageSequence<T>::loadFrame" ("Image failed to load: " +:+ path)])
    (set_loadFailed (<[i := true]> (loadFailed s)) s).

(** The object [loadFrame idx] leaves for an index inside the vector that
    is not the last frame loaded, by the buffer, the flag and the name of
    the frame. *)
Definition loadFrameOutcome (env : Collaborators) (idx : Z) (pix : Pixels) (failed : bool)
    (path : string) (s : ofxImageSequence) : ofxImageSequence :=
  let i := Z.to_nat idx in
  match pix, failed with
  | Some _, false => upload idx pix s
  | Some _, true => s
  | None, true => s
  | None, false =>
      match decodeImageFile env path with
      | Some img => upload idx (Some img) (decoded i path img s)
      | None => failedDecode i path s
      end
  end.

(** A frame with an empty buffer and no failure recorded. *)
Definition isFresh (s : ofxImageSequence) (i : nat) : bool :=
  match sequence s !! i, loadFailed s !! i with
  | Some None, Some false => true
  | _, _ => false
  end.

(** [loadFrame idx] will call the decoder. *)
Definition needsDecode (s : ofxImageSequence) (idx : Z) : bool :=
  negb (lastFrameLoaded s =? idx) && isFresh s (Z.to_nat idx).

(** A series of calls of [loadFrame]. *)
Fixpoint loadFrames (env : Collaborators) (indices : list Z) : M unit :=
  match indices with
  | [] => ret tt
  | index :: rest => run loadFrame env index; loadFrames env rest
  end.

(** The decodes of frame [i] so far, plus the one still to come while the
    frame is fresh: [loadFrame] never makes it grow. *)
Definition potential (s : ofxImageSequence) (i : nat) : nat :=
  decodeCallsAt i (log s) + (if isFresh s i then 1 else 0).

(** *** The loop of [preloadAllFrames] *)

(** The loop goes on to the next frame. *)
Definition willContinue (s : ofxImageSequence) : bool :=
  if useThread s then
    match threadLoader s with
    | None => false
    | Some l => negb (cancelLoading l)
    end
  else true.

(** The object after one turn of the loop at frame [i]. *)
Definition preloadOne (env : Collaborators) (i : nat) (path : string)
    (s : ofxImageSequence) : ofxImageSequence :=
  match decodeImageFile env path with
  | Some img => decoded i path img (set_curLoadFrame (Z.of_nat i) s)
  | None => failedDecode i path (set_curLoadFrame (Z.of_nat i) s)
  end.

Definition decodes (env : Collaborators) (path : string) : bool :=
  match decodeImageFile env path with Some _ => true | None => false end.

(** What a run of the loop from frame [i] to the end leaves behind: the
    texture and the last frame loaded are untouched, the frames before [i]
    are as they were, and every frame from [i] on has been given to the
    decoder, with its buffer filled or its failure recorded. *)
Definition preloadedFrom (env : Collaborators) (i : nat) (s s' : ofxImageSequence) : Prop :=
  texture s' = texture s /\ lastFrameLoaded s' = lastFrameLoaded s /\
  filenames s' = filenames s /\ keeps s s' /\
  willContinue s' = willContinue s /\
  (forall j, (j < i)%nat ->
     sequence s' !! j = sequence s !! j /\ loadFailed s' !! j = loadFailed s !! j) /\
  exists events, log s' = log s ++ events /\
    forall j path, (i <= j < length (sequence s))%nat -> filenames s !! j = Some path ->
      LoadImage j path (decodes env path) ∈ events /\
      match decodeImageFile env path with
      | Some img => sequence s' !! j = Some (Some img)
      | None => loadFailed s' !! j = Some true /\ sequence s' !! j = sequence s !! j
      end.

(** *** Loading and unloading *)

(** The object after the error of the type test. *)
Definition unrecognised (s : ofxImageSequence) : ofxImageSequence :=
  set_log (log s ++ [LogError "ofxImageSequence<T>::loadSequence"
    "Unrecognised type. Only ofPixels, ofShortPixels, ofFloatPixels are valid."]) s.

(** The assignments of [unloadSequence] after the loader is gone. *)
Definition reset (s : ofxImageSequence) : ofxImageSequence :=
  set_currentFrame 0 (set_lastFrameLoaded (-1) (set_curLoadFrame 0
    (set_height 0%Q (set_width 0%Q (set_loaded false (set_loadFailed []
      (set_filenames [] (set_sequence [] s)))))))).

(** One empty entry pushed for each of [names]. *)
Definition pushed (names : list string) (s : ofxImageSequence) : ofxImageSequence :=
  set_loadFailed (loadFailed s ++ replicate (length names) false)
    (set_sequence (sequence s ++ replicate (length names) None)
       (set_filenames (filenames s ++ names) s)).

(** The object between the loop of the load by range and the forced
    decode of frame 0. *)
Definition listed (names : list string) (s : ofxImageSequence) : ofxImageSequence :=
  set_lastFrameLoaded (-1) (set_loaded true (pushed names (reset s))).

(** Width and height taken from the buffer of frame 0. *)
Definition measured (first : Pixels) (s : ofxImageSequence) : ofxImageSequence :=
  set_height (f32_of_size_t (getHeight first))
    (set_width (f32_of_size_t (getWidth first)) s).

(** *** The invariant *)

(** A well-formed object that, when loaded, holds at least one frame, and
    whose frame count is an [int]. *)
Definition Inv (s : ofxImageSequence) : Prop :=
  wf s /\ (loaded s = true -> sequence s <> []) /\
  Z.of_nat (length (sequence s)) <= INT_MAX.

Definition keepsInv (s s' : ofxImageSequence) : Prop := Inv s -> Inv s'.

(** *** The loader and the frames *)

(** A method that creates no loader, leaves the end of the sequence where
    it is, and sets [loaded] only on a sequence with a frame. *)
Definition loaderKept (s s' : ofxImageSequence) : Prop :=
  (is_Some (threadLoader s') -> is_Some (threadLoader s)) /\
  length (sequence s') = length (sequence s) /\
  (loaded s' = true -> loaded s = true \/ sequence s <> []).

(** An object that holds a loader holds no frame and is not loaded. *)
Definition loaderWithoutFrames (s : ofxImageSequence) : Prop :=
  is_Some (threadLoader s) -> sequence s = [] /\ loaded s = false.

(** *** What belongs to the owner's thread *)

(** The uploads to the texture in a log. *)
Fixpoint uploads (l : list Event) : nat :=
  match l with
  | [] => 0
  | TextureLoadData _ :: l' => S (uploads l')
  | _ :: l' => uploads l'
  end.

(** What the loader thread and the listing of a folder leave alone: the
    texture and its uploads, the cursor, the dimensions, the frame rate,
    the filters and the folder; and they do not delete the loader. *)
Definition ownerOnly (s s' : ofxImageSequence) : Prop :=
  texture s' = texture s /\ uploads (log s') = uploads (log s) /\
  lastFrameLoaded s' = lastFrameLoaded s /\ currentFrame s' = currentFrame s /\
  width s' = width s /\ height s' = height s /\ frameRate s' = frameRate s /\
  minFilter s' = minFilter s /\ magFilter s' = magFilter s /\
  folderToLoad s' = folderToLoad s /\
  (is_Some (threadLoader s) -> is_Some (threadLoader s')).

(** The fields [unloadSequence] does not assign. *)
Definition configuration (s : ofxImageSequence) :=
  (texture s, extension s, folderToLoad s, maxFrames s, useThread s,
   frameRate s, minFilter s, magFilter s).

(** *** Frames that will not be decoded *)

(** No frame is fresh: every buffer is set or its failure is recorded. *)
Definition settled (s : ofxImageSequence) : Prop :=
  forall i, isFresh s i = false.

(** *** The frame on display *)

(** Every buffer holds what the decoder gives for the name of its frame. *)
Definition decodedFromNames (env : Collaborators) (s : ofxImageSequence) : Prop :=
  forall i img, sequence s !! i = Some (Some img) ->
    exists path, filenames s !! i = Some path /\ decodeImageFile env path = Some img.

(** [lastFrameLoaded] is -1, or the index of a frame whose buffer is set
    and is what the texture holds. *)
Definition showsLastFrame (s : ofxImageSequence) : Prop :=
  lastFrameLoaded s = -1 \/
  (0 <= lastFrameLoaded s /\
   exists img, sequence s !! Z.to_nat (lastFrameLoaded s) = Some (Some img) /\
     texture s = Some img).

Definition Shows (env : Collaborators) (s : ofxImageSequence) : Prop :=
  wf s /\ decodedFromNames env s /\ showsLastFrame s.

Definition keepsShows (env : Collaborators) (s s' : ofxImageSequence) : Prop :=
  Shows env s -> Shows env s'.

(** *** The cursor *)

(** A method that moves neither the cursor nor the end of the sequence. *)
Definition cursorKept (s s' : ofxImageSequence) : Prop :=
  currentFrame s' = currentFrame s /\ length (sequence s') = length (sequence s).

(** The cursor is 0 or the index of a frame of the sequence. *)
Definition cursorOnFrame (s : ofxImageSequence) : Prop :=
  0 <= currentFrame s /\
  (currentFrame s < Z.of_nat (length (sequence s)) \/ currentFrame s = 0).
(* ===================================================================== *)
(** ** The paths [sprintf] writes *)
(* ===================================================================== *)

#[local] Arguments String.append !_ _ : simpl nomatch.

(** [uvalue] continues a positive accumulator as [Pos.of_uint_acc] does. *)
Lemma uvalue_pos d : forall p, uvalue d (Npos p) = Npos (Pos.of_uint_acc d p).
Proof.
  induction d; intros p; cbn [uvalue Pos.of_uint_acc]; try reflexivity;
    match goal with
    | |- uvalue _ ?a = N.pos (Pos.of_uint_acc _ ?q) =>
        replace a with (N.pos q) by lia
    end; apply IHd.
Qed.

(** [uvalue] from 0 is the value of the numeral. *)
Lemma uvalue_of_uint d : uvalue d 0 = N.of_uint d.
Proof.
  unfold N.of_uint.
  induction d; cbn [uvalue Pos.of_uint]; try reflexivity; try exact IHd;
    match goal with
    | |- uvalue _ ?a = N.pos (Pos.of_uint_acc _ ?q) =>
        replace a with (N.pos q) by lia
    end; apply uvalue_pos.
Qed.

(** Reading the digits of [n] gives [n] back. *)
Lemma uvalue_to_uint n : uvalue (N.to_uint n) 0 = n.
Proof. rewrite uvalue_of_uint. apply DecimalN.Unsigned.of_to. Qed.

(** The numeral of a number has at least one digit. *)
Lemma to_uint_nonnil n : N.to_uint n <> Nil.
Proof.
  destruct n as [|p]; [discriminate|]. apply DecimalPos.Unsigned.to_uint_nonnil.
Qed.

(** [digits] never takes the branch of the empty numeral. *)
Lemma digits_eq n : digits n = NilEmpty.string_of_uint (N.to_uint n).
Proof.
  unfold digits, NilZero.string_of_uint.
  pose proof (to_uint_nonnil n). destruct (N.to_uint n); congruence.
Qed.

Lemma append_assoc (a b c : string) : (a +:+ b) +:+ c = a +:+ (b +:+ c).
Proof.
  induction a as [|x a IH]; [reflexivity|].
  change (String x ((a +:+ b) +:+ c) = String x (a +:+ (b +:+ c))).
  f_equal. exact IH.
Qed.

(** [c_str] goes through plain text. *)
Lemma c_str_plain pre rest : plain pre = true -> c_str (pre +:+ rest) = pre +:+ c_str rest.
Proof.
  induction pre as [|c pre IH]; cbn; [done|].
  intros [[_ Hc%negb_true_iff]%andb_prop Hp]%andb_prop. rewrite Hc. f_equal. auto.
Qed.

Lemma c_str_plain_end s : plain s = true -> c_str s = s.
Proof.
  induction s as [|c s IH]; cbn; [done|].
  intros [[_ Hc%negb_true_iff]%andb_prop Hp]%andb_prop. rewrite Hc. f_equal. auto.
Qed.

(** [c_str] goes through a decimal numeral. *)
Lemma c_str_uint d rest :
  c_str (NilEmpty.string_of_uint d +:+ rest) = NilEmpty.string_of_uint d +:+ c_str rest.
Proof. induction d; cbn; try reflexivity; f_equal; exact IHd. Qed.

(** [vsprintf] copies plain text. *)
Lemma vsprintf_plain pre rest args :
  plain pre = true ->
  vsprintf Literal (pre +:+ rest) args = String.append pre <$> vsprintf Literal rest args.
Proof.
  induction pre as [|c pre IH]; cbn [plain String.append vsprintf].
  - intros _. destruct (vsprintf Literal rest args); reflexivity.
  - intros [[Hc%negb_true_iff _]%andb_prop Hp]%andb_prop. rewrite Hc, (IH Hp).
    destruct (vsprintf Literal rest args); reflexivity.
Qed.

Lemma vsprintf_plain_end s args : plain s = true -> vsprintf Literal s args = Some s.
Proof.
  induction s as [|c s IH]; cbn [plain vsprintf]; [done|].
  intros [[Hc%negb_true_iff _]%andb_prop Hp]%andb_prop. rewrite Hc, (IH Hp). reflexivity.
Qed.

(** Inside a specification with the flag [0], the digits of a width
    followed by [d] print the argument at that width. *)
Lemma vsprintf_width d : forall minus width rest v args,
  vsprintf (Spec minus true width) (NilEmpty.string_of_uint d +:+ String "d" rest) (v :: args)
  = String.append (format_d minus true (uvalue d (default 0%N width)) v)
      <$> vsprintf Literal rest args.
Proof.
  induction d; intros minus width rest v args;
    cbn [NilEmpty.string_of_uint String.append uvalue]; try reflexivity;
    destruct width as [w|]; cbn -[format_d uvalue N.mul N.add digit_of];
    repeat match goal with
      | |- context [digit_of ?c] =>
          let r := eval vm_compute in (digit_of c) in
          change (digit_of c) with r
      end; cbv beta iota; rewrite IHd; reflexivity.
Qed.

(** [%d] is the text [ostream <<] gives. *)
Lemma format_d_plain i : format_d false false 0 i = ostream_int i.
Proof.
  unfold format_d, ostream_int. cbn [N.to_nat Nat.sub replicate_char replicate].
  destruct (Z.ltb_spec i 0).
  - rewrite Z.abs_neq by lia. reflexivity.
  - rewrite Z.abs_eq by lia. reflexivity.
Qed.

(** [%0nd] is [pad] at [n] for [n > 0]. *)
Lemma format_d_zero n i :
  (0 < n)%nat -> format_d false true (N.of_nat n) i = pad i n.
Proof.
  intros Hn. unfold format_d, pad. rewrite Nat2N.id.
  destruct (Nat.eqb_spec n 0); [lia|]. reflexivity.
Qed.

Lemma c_str_percent_d filetype :
  c_str ("%d." +:+ filetype) = "%d." +:+ c_str filetype.
Proof. reflexivity. Qed.

Lemma c_str_percent_0 rest : c_str ("%0" +:+ rest) = "%0" +:+ c_str rest.
Proof. reflexivity. Qed.

Lemma c_str_d_dot filetype : c_str ("d." +:+ filetype) = "d." +:+ c_str filetype.
Proof. reflexivity. Qed.

Lemma vsprintf_percent_d filetype i :
  vsprintf Literal ("%d." +:+ filetype) [i] =
    String.append (format_d false false 0 i) <$>
      (String "." <$> vsprintf Literal filetype []).
Proof. reflexivity. Qed.

Lemma vsprintf_percent_0 rest args :
  vsprintf Literal ("%0" +:+ rest) args = vsprintf (Spec false true None) rest args.
Proof. reflexivity. Qed.

Lemma vsprintf_dot filetype args :
  vsprintf Literal (String "." filetype) args = String "." <$> vsprintf Literal filetype args.
Proof. reflexivity. Qed.

(** On a plain prefix and a plain extension the format of [loadSequence]
    prints the expected path. *)
Lemma vsprintf_format prefix filetype numDigits i :
  plain prefix = true -> plain filetype = true -> 0 <= numDigits ->
  vsprintf Literal (c_str (formatOf prefix filetype numDigits)) [i] =
    Some (expectedPath prefix filetype (Z.to_nat numDigits) i).
Proof.
  intros Hp Hf Hn. unfold formatOf, expectedPath.
  destruct (Z.eqb_spec numDigits 0) as [->|Hnz]; cbn [negb].
  - rewrite c_str_plain, c_str_percent_d, c_str_plain_end by done.
    rewrite vsprintf_plain, vsprintf_percent_d, vsprintf_plain_end by done.
    rewrite format_d_plain. reflexivity.
  - unfold ostream_int. destruct (Z.ltb_spec numDigits 0); [lia|].
    rewrite digits_eq.
    rewrite c_str_plain, c_str_percent_0, c_str_uint, c_str_d_dot, c_str_plain_end by done.
    rewrite vsprintf_plain, vsprintf_percent_0 by done.
    change ("d." +:+ filetype) with (String "d" (String "." filetype)).
    rewrite vsprintf_width, vsprintf_dot, vsprintf_plain_end by done.
    cbn [default]. rewrite uvalue_to_uint.
    replace (Z.to_N numDigits) with (N.of_nat (Z.to_nat numDigits)) by lia.
    rewrite format_d_zero by lia. reflexivity.
Qed.

(** The same through [sprintf], when the path fits the buffer. *)
Lemma sprintf_format prefix filetype numDigits i :
  plain prefix = true -> plain filetype = true -> 0 <= numDigits ->
  (String.length (expectedPath prefix filetype (Z.to_nat numDigits) i) < 1024)%nat ->
  sprintf 1024 (formatOf prefix filetype numDigits) [i] =
    Some (expectedPath prefix filetype (Z.to_nat numDigits) i).
Proof.
  intros Hp Hf Hn Hlen. unfold sprintf. rewrite vsprintf_format by done.
  destruct (Nat.ltb_spec (String.length (expectedPath prefix filetype (Z.to_nat numDigits) i)) 1024);
    [reflexivity|lia].
Qed.

(** The names of a whole range. *)
Lemma rangeNames_format prefix filetype numDigits n : forall i,
  plain prefix = true -> plain filetype = true -> 0 <= numDigits ->
  (forall j, i <= j < i + Z.of_nat n ->
     (String.length (expectedPath prefix filetype (Z.to_nat numDigits) j) < 1024)%nat) ->
  rangeNames (formatOf prefix filetype numDigits) i n =
    Some (map (expectedPath prefix filetype (Z.to_nat numDigits)) (seqZ i (Z.of_nat n))).
Proof.
  induction n as [|n IH]; intros i Hp Hf Hn Hlen; [reflexivity|].
  cbn [rangeNames]. rewrite sprintf_format by (try done; apply Hlen; lia).
  rewrite IH by (try done; intros j Hj; apply Hlen; lia).
  rewrite (seqZ_cons i (Z.of_nat (S n))) by lia. cbn [map].
  replace (Z.succ i) with (i + 1) by lia.
  replace (Z.pred (Z.of_nat (S n))) with (Z.of_nat n) by lia. reflexivity.
Qed.
(* ===================================================================== *)
(** ** Rounding to [float] *)
(* ===================================================================== *)

Section FloatFacts.
Local Open Scope Q_scope.

Lemma pow2_pos e : 0 < pow2 e.
Proof. unfold pow2. apply Qpower_0_lt. reflexivity. Qed.

(** Rounding to nearest goes to the floor or to the integer above it. *)
Lemma rne_cases x :
  rne x = Qfloor x \/ (rne x = (Qfloor x + 1)%Z /\ inject_Z (Qfloor x) < x).
Proof.
  unfold rne. destruct (x - inject_Z (Qfloor x) ?= 1 # 2) eqn:E.
  - apply Qeq_alt in E. destruct (Z.even (Qfloor x)); [left; reflexivity|].
    right. split; [reflexivity|]. lra.
  - left. reflexivity.
  - apply Qgt_alt in E. right. split; [reflexivity|]. lra.
Qed.

(** Rounding to nearest does not jump over an integer. *)
Lemma rne_le_int x k : x <= inject_Z k -> (rne x <= k)%Z.
Proof.
  intros H. pose proof (Qfloor_resp_le _ _ H) as Hf. rewrite Qfloor_Z in Hf.
  destruct (rne_cases x) as [->|[-> Hlt]]; [exact Hf|].
  assert (inject_Z (Qfloor x) < inject_Z k) as Hk by lra.
  rewrite <- Zlt_Qlt in Hk. lia.
Qed.

Lemma rne_ge_int x k : inject_Z k <= x -> (k <= rne x)%Z.
Proof.
  intros H. pose proof (Qfloor_resp_le _ _ H) as Hf. rewrite Qfloor_Z in Hf.
  destruct (rne_cases x) as [->|[-> _]]; lia.
Qed.

Lemma round_to_zero prec emin x : x == 0 -> round_to prec emin x = 0.
Proof.
  intros H. unfold round_to.
  assert (Qeq_bool (Qred x) 0 = true) as ->; [|reflexivity].
  apply Qeq_bool_iff. rewrite Qred_correct. exact H.
Qed.

(** The rounding of a value other than 0: the nearest multiple of the
    unit in its last place. *)
Lemma round_to_nonzero prec emin x :
  ~ x == 0 ->
  round_to prec emin x ==
    inject_Z (rne (Qred x / pow2 (exponent prec emin (Qred x))))
    * pow2 (exponent prec emin (Qred x)).
Proof.
  intros H. unfold round_to.
  assert (Qeq_bool (Qred x) 0 = false) as ->.
  { destruct (Qeq_bool (Qred x) 0) eqn:E; [|reflexivity].
    apply Qeq_bool_iff in E. rewrite Qred_correct in E. contradiction. }
  rewrite Qred_correct. reflexivity.
Qed.

(** Rounding does not jump over a multiple of the unit in the last place. *)
Lemma round_to_le_multiple prec emin x k :
  ~ x == 0 ->
  x <= inject_Z k * pow2 (exponent prec emin (Qred x)) ->
  round_to prec emin x <= inject_Z k * pow2 (exponent prec emin (Qred x)).
Proof.
  intros Hnz Hle. rewrite (round_to_nonzero _ _ _ Hnz).
  set (e := exponent prec emin (Qred x)) in *.
  pose proof (pow2_pos e) as Hp.
  apply Qmult_le_compat_r; [|lra].
  rewrite <- Zle_Qle. apply rne_le_int.
  apply Qle_shift_div_r; [exact Hp|]. rewrite Qred_correct. exact Hle.
Qed.

Lemma round_to_ge_multiple prec emin x k :
  ~ x == 0 ->
  inject_Z k * pow2 (exponent prec emin (Qred x)) <= x ->
  inject_Z k * pow2 (exponent prec emin (Qred x)) <= round_to prec emin x.
Proof.
  intros Hnz Hle. rewrite (round_to_nonzero _ _ _ Hnz).
  set (e := exponent prec emin (Qred x)) in *.
  pose proof (pow2_pos e) as Hp.
  apply Qmult_le_compat_r; [|lra].
  rewrite <- Zle_Qle. apply rne_ge_int.
  apply Qle_shift_div_l; [exact Hp|]. rewrite Qred_correct. exact Hle.
Qed.

(** Rounding keeps the sign. *)
Lemma round_to_nonneg prec emin x : 0 <= x -> 0 <= round_to prec emin x.
Proof.
  intros H. destruct (Qeq_dec x 0) as [Hz|Hnz].
  - rewrite (round_to_zero _ _ _ Hz). lra.
  - pose proof (round_to_ge_multiple prec emin x 0 Hnz) as Hr.
    rewrite Qmult_0_l in Hr. auto.
Qed.

(** Equal rationals round to the same fraction. *)
Lemma round_to_comp prec emin x y : x == y -> round_to prec emin x = round_to prec emin y.
Proof. intros H. unfold round_to. rewrite (Qred_complete _ _ H). reflexivity. Qed.

Lemma pow2_nonpos e k :
  (e <= 0)%Z -> inject_Z (k * 2 ^ (- e)) * pow2 e == inject_Z k.
Proof.
  intros He. unfold pow2.
  replace e with (- - e)%Z at 2 by lia. rewrite Qpower_opp.
  rewrite inject_Z_mult, Zpower_Qpower by lia.
  change (inject_Z 2) with 2.
  assert (0 < 2 ^ (- e)) by (apply Qpower_0_lt; reflexivity).
  field. lra.
Qed.

(** Below [2^24] the unit in the last place of a [float] is at most 1;
    at [2^24] itself it is 2. *)
Lemma exponent32_cases x n :
  0 < x -> x <= inject_Z n -> (n <= 2 ^ 24)%Z ->
  (exponent 24 (-149) (Qred x) <= 0)%Z \/
  (exponent 24 (-149) (Qred x) = 1%Z /\ n = (2 ^ 24)%Z).
Proof.
  intros Hpos Hle Hn. unfold exponent, ilog2.
  assert (Hx : Qred x == x) by apply Qred_correct.
  assert (Habs : Qabs (Qred x) == x) by (rewrite Qabs_pos; lra).
  destruct (Qle_bool 1 (Qabs (Qred x))) eqn:E.
  - apply Qle_bool_iff in E. rewrite Habs in *.
    assert (Hf : (1 <= Qfloor x <= n)%Z).
    { split.
      - change 1%Z with (Qfloor 1). apply Qfloor_resp_le. exact E.
      - rewrite <- (Qfloor_Z n). apply Qfloor_resp_le. exact Hle. }
    destruct (Z_lt_dec (Qfloor x) (2 ^ 24)) as [Hlt|Hge].
    + left. apply Z.log2_lt_pow2 in Hlt; lia.
    + right. assert (Qfloor x = (2 ^ 24)%Z) as -> by lia.
      split; [reflexivity | lia].
  - left. pose proof (Z.log2_up_nonneg (Qceiling (/ Qabs (Qred x)))). lia.
Qed.

(** An integer up to [2^24] is a multiple of the unit in the last place
    of every positive value below it. *)
Lemma int_multiple x n :
  0 < x -> x <= inject_Z n -> (n <= 2 ^ 24)%Z ->
  exists k, inject_Z n == inject_Z k * pow2 (exponent 24 (-149) (Qred x)).
Proof.
  intros Hpos Hle Hn.
  destruct (exponent32_cases x n Hpos Hle Hn) as [He|[-> ->]].
  - exists (n * 2 ^ (- exponent 24 (-149) (Qred x)))%Z.
    symmetry. apply pow2_nonpos. exact He.
  - exists (2 ^ 23)%Z. reflexivity.
Qed.

(** A value at most the integer [n <= 2^24] rounds to at most [n]. *)
Lemma round32_le_int x n :
  0 <= x -> x <= inject_Z n -> (n <= 2 ^ 24)%Z -> round32 x <= inject_Z n.
Proof.
  intros Hx Hle Hn. unfold round32.
  destruct (Qeq_dec x 0) as [Hz|Hnz].
  - rewrite (round_to_zero _ _ _ Hz). lra.
  - destruct (int_multiple x n) as [k Hk]; [lra|auto|auto|].
    rewrite Hk. apply round_to_le_multiple; [exact Hnz|]. rewrite <- Hk. exact Hle.
Qed.

(** The integers up to [2^24] are values of [float]. *)
Lemma round32_int n : (0 <= n <= 2 ^ 24)%Z -> round32 (inject_Z n) == inject_Z n.
Proof.
  intros Hn. unfold round32.
  destruct (Z.eq_dec n 0%Z) as [->|Hnz]; [reflexivity|].
  assert (Hpos : 0 < inject_Z n) by (rewrite <- (Zlt_Qlt 0%Z); lia).
  destruct (int_multiple (inject_Z n) n) as [k Hk]; [auto|lra|lia|].
  assert (Hq : ~ inject_Z n == 0) by lra.
  apply Qle_antisym.
  - rewrite Hk at 2. apply round_to_le_multiple; [exact Hq|]. rewrite <- Hk. lra.
  - rewrite Hk at 1. apply round_to_ge_multiple; [exact Hq|]. rewrite <- Hk. lra.
Qed.

End FloatFacts.

(** *** The percentage of [getFrameIndexAtPercent] *)

Section Percent.
Local Open Scope Q_scope.

Lemma finite32_small x : 0 <= x -> x <= inject_Z (2 ^ 24) -> finite32 x = Some x.
Proof.
  intros H0 H1. unfold finite32.
  assert (Qle_bool (Qabs x) FLT_MAX = true) as ->; [|reflexivity].
  apply Qle_bool_iff. rewrite Qabs_pos by exact H0.
  eapply Qle_trans; [exact H1|]. unfold FLT_MAX. rewrite <- Zle_Qle. apply Z.leb_le. reflexivity.
Qed.

Lemma outside_unit p : f32_lt p 0 || f32_lt 1 p = negb (Qle_bool 0 p && Qle_bool p 1).
Proof. unfold f32_lt. destruct (Qle_bool 0 p), (Qle_bool p 1); reflexivity. Qed.

(** The wrapped percentage: the argument itself inside [0, 1], else the
    rounded difference with its floor; in both cases a value of [0, 1],
    1 included. *)
Lemma wrapPercent_spec p :
  exists p', wrapPercent p = Some p' /\ 0 <= p' <= 1 /\
    (inUnit p -> p' = p) /\
    (~ inUnit p -> p' = round32 (p - f32_floor p)).
Proof.
  unfold wrapPercent, inUnit. rewrite outside_unit.
  destruct (Qle_bool 0 p) eqn:E0; [destruct (Qle_bool p 1) eqn:E1|]; cbn [andb negb].
  - apply Qle_bool_iff in E0, E1. exists p. split_and!; auto. tauto.
  - assert (~ p <= 1) by (intros H; apply Qle_bool_iff in H; congruence).
    unfold f32_sub, f32_floor.
    pose proof (Qfloor_le p). pose proof (Qlt_floor p).
    assert (Hlt : inject_Z (Qfloor p + 1) == inject_Z (Qfloor p) + 1)
      by (rewrite inject_Z_plus; reflexivity).
    assert (Hr0 : 0 <= round32 (p - inject_Z (Qfloor p))) by (apply round_to_nonneg; lra).
    assert (Hr1 : round32 (p - inject_Z (Qfloor p)) <= inject_Z 1)
      by (apply round32_le_int; [lra | change (inject_Z 1) with 1; lra | lia]).
    rewrite finite32_small; [|exact Hr0|].
    2:{ eapply Qle_trans; [exact Hr1|]. rewrite <- Zle_Qle. lia. }
    eexists. split_and!; [reflexivity|exact Hr0|exact Hr1|tauto|reflexivity].
  - assert (~ 0 <= p) by (intros H; apply Qle_bool_iff in H; congruence).
    unfold f32_sub, f32_floor.
    pose proof (Qfloor_le p). pose proof (Qlt_floor p).
    assert (Hlt : inject_Z (Qfloor p + 1) == inject_Z (Qfloor p) + 1)
      by (rewrite inject_Z_plus; reflexivity).
    assert (Hr0 : 0 <= round32 (p - inject_Z (Qfloor p))) by (apply round_to_nonneg; lra).
    assert (Hr1 : round32 (p - inject_Z (Qfloor p)) <= inject_Z 1)
      by (apply round32_le_int; [lra | change (inject_Z 1) with 1; lra | lia]).
    rewrite finite32_small; [|exact Hr0|].
    2:{ eapply Qle_trans; [exact Hr1|]. rewrite <- Zle_Qle. lia. }
    eexists. split_and!; [reflexivity|exact Hr0|exact Hr1|tauto|reflexivity].
Qed.

End Percent.

(** For operands below [2^24] the two conversions of the macro [MIN] do
    nothing. *)
Lemma MIN_to_int k n :
  0 <= k <= 2 ^ 24 -> 1 <= n <= 2 ^ 24 ->
  to_int (MIN_int_size_t k (to_size_t (n - 1))) = Z.min k (n - 1).
Proof.
  intros Hk Hn. unfold MIN_int_size_t, to_size_t, to_int, SIZE_MAX, INT_MAX.
  rewrite !(Z.mod_small k), (Z.mod_small (n - 1)) by lia.
  destruct (Z.ltb_spec k (n - 1)).
  - rewrite Z.mod_small, Z.min_l by lia. destruct (Z.leb_spec k 2147483647); lia.
  - rewrite Z.mod_small, Z.min_r by lia. destruct (Z.leb_spec (n - 1) 2147483647); lia.
Qed.

(** The index for a wrapped percentage, for up to [2^24] frames. *)
Lemma getFrameIndexAtPercent_wrapped s percent p :
  1 <= Z.of_nat (length (sequence s)) <= 2 ^ 24 ->
  wrapPercent percent = Some p -> (0 <= p <= 1)%Q ->
  getFrameIndexAtPercent percent s =
    Some (frameIndexOf p (Z.of_nat (length (sequence s))), s) /\
  0 <= frameIndexOf p (Z.of_nat (length (sequence s)))
    <= Z.of_nat (length (sequence s)) - 1.
Proof.
  intros Hn Hw [Hp0 Hp1]. set (n := Z.of_nat (length (sequence s))) in *.
  assert (Hn0 : (0 <= inject_Z n)%Q) by (rewrite <- (Zle_Qle 0); lia).
  assert (Hcomp : round32 (p * f32_of_size_t n) = round32 (p * inject_Z n)).
  { apply round_to_comp. unfold f32_of_size_t. rewrite round32_int by lia. reflexivity. }
  assert (Hr0 : (0 <= round32 (p * inject_Z n))%Q).
  { apply round_to_nonneg. apply Qmult_le_0_compat; auto. }
  assert (Hr1 : (round32 (p * inject_Z n) <= inject_Z n)%Q).
  { apply round32_le_int; [apply Qmult_le_0_compat; auto| |lia].
    rewrite <- (Qmult_1_l (inject_Z n)) at 2. apply Qmult_le_compat_r; auto. }
  assert (Hfl : 0 <= Qfloor (round32 (p * inject_Z n)) <= n).
  { split.
    - change 0 with (Qfloor 0). apply Qfloor_resp_le. exact Hr0.
    - rewrite <- (Qfloor_Z n) at 2. apply Qfloor_resp_le. exact Hr1. }
  unfold getFrameIndexAtPercent. unfold bind at 1, get. fold n.
  unfold bind at 1, defined. rewrite Hw.
  unfold bind at 1, defined, f32_mul. rewrite Hcomp.
  rewrite finite32_small; [|exact Hr0|].
  2:{ eapply Qle_trans; [exact Hr1|]. rewrite <- Zle_Qle. lia. }
  unfold bind at 1, defined, f32_to_int, truncate.
  assert (Qle_bool 0 (round32 (p * inject_Z n)) = true) as -> by (apply Qle_bool_iff; exact Hr0).
  unfold int_checked, in_int, INT_MIN, INT_MAX.
  destruct (Z.leb_spec (-2147483648) (Qfloor (round32 (p * inject_Z n)))); [|lia].
  destruct (Z.leb_spec (Qfloor (round32 (p * inject_Z n))) 2147483647); [|lia].
  cbn [andb]. unfold ret. rewrite MIN_to_int by lia.
  split; [reflexivity|]. unfold frameIndexOf. lia.
Qed.

Lemma frameIndexOf_zero n : 1 <= n -> frameIndexOf 0 n = 0.
Proof.
  intros Hn. unfold frameIndexOf, round32.
  rewrite (round_to_comp 24 (-149) (0 * inject_Z n) 0) by (apply Qmult_0_l).
  change (round_to 24 (-149) 0) with 0%Q. change (Qfloor 0) with 0. lia.
Qed.

Lemma frameIndexOf_one n : 1 <= n <= 2 ^ 24 -> frameIndexOf 1 n = n - 1.
Proof.
  intros Hn. unfold frameIndexOf, round32.
  rewrite (round_to_comp 24 (-149) (1 * inject_Z n) (inject_Z n)) by (apply Qmult_1_l).
  fold round32.
  rewrite (Qfloor_comp _ _ (round32_int n ltac:(lia))), Qfloor_Z. lia.
Qed.

(** C4, as amended.  For a sequence of 1 to [2^24] frames,
    [getFrameIndexAtPercent] takes a percentage inside [0, 1] as it is and
    replaces one outside by the [float] nearest to its difference with its
    floor, a value of [0, 1] that can be 1 itself; it returns the floor of
    the product with the frame count, the product rounded to [float], and
    at most the last index.  The result is an index of the sequence; the
    percentage 0 gives frame 0 and the percentage 1 the last frame. *)
Theorem getFrameIndexAtPercent_wraps_and_clamps s percent :
  1 <= Z.of_nat (length (sequence s)) <= 2 ^ 24 ->
  let n := Z.of_nat (length (sequence s)) in
  (exists p, wrapPercent percent = Some p /\ (0 <= p <= 1)%Q /\
     (inUnit percent -> p = percent) /\
     (~ inUnit percent -> p = round32 (percent - f32_floor percent)) /\
     getFrameIndexAtPercent percent s = Some (frameIndexOf p n, s) /\
     0 <= frameIndexOf p n <= n - 1) /\
  getFrameIndexAtPercent 0 s = Some (0, s) /\
  getFrameIndexAtPercent 1 s = Some (n - 1, s).
Proof.
  intros Hn n. split_and!.
  - destruct (wrapPercent_spec percent) as (p & Hw & Hp & Hin & Hout).
    destruct (getFrameIndexAtPercent_wrapped s percent p Hn Hw Hp) as [Hrun Hr].
    exists p. split; [exact Hw|]. split; [exact Hp|]. split; [exact Hin|].
    split; [exact Hout|]. split; [exact Hrun|exact Hr].
  - destruct (getFrameIndexAtPercent_wrapped s 0 0%Q Hn) as [Hrun _];
      [reflexivity|split; discriminate|].
    rewrite Hrun, frameIndexOf_zero by lia. reflexivity.
  - destruct (getFrameIndexAtPercent_wrapped s 1 1%Q Hn) as [Hrun _];
      [reflexivity|split; discriminate|].
    rewrite Hrun, frameIndexOf_one by lia. reflexivity.
Qed.

(** The wrap does not stay below 1: the percentage [-2^-30] lies outside
    [0, 1], and its difference with its floor [-1] rounds to 1. *)
Lemma wrapPercent_reaches_one :
  ~ inUnit (-1 # 1073741824) /\ wrapPercent (-1 # 1073741824) = Some 1%Q.
Proof.
  split; [|vm_compute; reflexivity].
  intros [H _]. revert H. vm_compute. intros H. apply H. reflexivity.
Qed.

(** C4, counterexample.  With ten frames and the percentage
    [11744051 / 2^24], a [float] of [0, 1], the method returns frame 7:
    the product, a little below 7, rounds to 7 as a [float].  The floor
    of the exact product is 6. *)
Lemma getFrameIndexAtPercent_rounds_the_product :
  inUnit (11744051 # 16777216) /\
  round32 (11744051 # 16777216) = (11744051 # 16777216)%Q /\
  length (sequence tenFrames) = 10%nat /\
  getFrameIndexAtPercent (11744051 # 16777216) tenFrames = Some (7, tenFrames) /\
  frameIndexAtPercent_spec (11744051 # 16777216) 10 = 6.
Proof.
  split_and!.
  - split; vm_compute; discriminate.
  - vm_compute. reflexivity.
  - reflexivity.
  - vm_compute. reflexivity.
  - vm_compute. reflexivity.
Qed.

(** Beyond [2^24] frames the frame count itself is rounded: with 67108867
    frames the percentage 1 gives frame 67108864, not the last one. *)
Lemma getFrameIndexAtPercent_one_of_many s :
  length (sequence s) = Z.to_nat 67108867 ->
  getFrameIndexAtPercent 1 s = Some (67108864, s).
Proof.
  intros H. unfold getFrameIndexAtPercent. unfold bind at 1, get.
  rewrite H, Z2Nat.id by lia.
  vm_compute. reflexivity.
Qed.
(* ===================================================================== *)
(** ** Reasoning about methods *)
(* ===================================================================== *)

Ltac munfold :=
  unfold at_index, ofLogError in *;
  unfold bind, ret, get, modify, defined, undefined in *.

(** Inversion of a defined [bind]. *)
Lemma bind_Some {A B} (m : M A) (k : A -> M B) s r :
  bind m k s = Some r <-> exists a s1, m s = Some (a, s1) /\ k a s1 = Some r.
Proof.
  unfold bind. destruct (m s) as [[a s1]|].
  - split; [eauto | intros (? & ? & [= <- <-] & ?); done].
  - split; [done | intros (? & ? & ? & ?); done].
Qed.

Lemma defined_Some {A} (o : option A) s a s' :
  defined o s = Some (a, s') -> o = Some a /\ s' = s.
Proof. unfold defined. destruct o; intros [= <- <-]; auto. Qed.

Lemma at_index_Some {A} (v : list A) i s a s' :
  at_index v i s = Some (a, s') -> v !! i = Some a /\ s' = s.
Proof. apply defined_Some. Qed.

(** *** Relations every run of a method respects *)

#[local] Instance keeps_preorder : PreOrder keeps.
Proof.
  split.
  - intros s. unfold keeps. repeat split; auto.
  - intros a b c (H1 & H2 & H3 & H4 & H5 & H6 & H7) (G1 & G2 & G3 & G4 & G5 & G6 & G7).
    unfold keeps. repeat split; try congruence. lia.
Qed.

Section Stable.
Context (R : relation ofxImageSequence) `{!PreOrder R}.

Lemma stable_ret {A} (a : A) : stable R (ret a).
Proof. intros s b s' [= <- <-]. reflexivity. Qed.
Lemma stable_get : stable R get.
Proof. intros s b s' [= <- <-]. reflexivity. Qed.
Lemma stable_undefined {A} : stable R (@undefined A).
Proof. intros s b s' [=]. Qed.
Lemma stable_defined {A} (o : option A) : stable R (defined o).
Proof. intros s b s'. unfold defined. destruct o; intros [= <- <-]. reflexivity. Qed.
Lemma stable_at_index {A} (v : list A) i : stable R (at_index v i).
Proof. apply stable_defined. Qed.
Lemma stable_modify f : (forall s, R s (f s)) -> stable R (modify f).
Proof. intros H s b s' [= <- <-]. apply H. Qed.
Lemma stable_bind {A B} (m : M A) (k : A -> M B) :
  stable R m -> (forall a, stable R (k a)) -> stable R (bind m k).
Proof.
  intros Hm Hk s b s' (a & s1 & H1 & H2)%bind_Some.
  etransitivity; [eapply Hm | eapply Hk]; eauto.
Qed.
End Stable.

Ltac stable_step :=
  lazymatch goal with
  | |- stable _ (bind _ _) => apply stable_bind; [ try typeclasses eauto | | intros ? ]
  | |- stable _ (ret _) => apply stable_ret; typeclasses eauto
  | |- stable _ get => apply stable_get; typeclasses eauto
  | |- stable _ undefined => apply stable_undefined
  | |- stable _ (defined _) => apply stable_defined; typeclasses eauto
  | |- stable _ (at_index _ _) => apply stable_at_index; typeclasses eauto
  | |- stable _ (modify _) => apply stable_modify; intros ?
  | |- stable _ (if ?c then _ else _) => destruct c
  | |- stable _ (match ?x with _ => _ end) => destruct x
  end.

Create HintDb stable discriminated.

Ltac stable_auto := repeat (first [ solve [eauto with stable] | stable_step ]).

Lemma keeps_set_log v s : keeps s (set_log v s).
Proof. done. Qed.
Lemma keeps_set_texture v s : keeps s (set_texture v s).
Proof. done. Qed.
Lemma keeps_set_lastFrameLoaded v s : keeps s (set_lastFrameLoaded v s).
Proof. done. Qed.
Lemma keeps_set_curLoadFrame v s : keeps s (set_curLoadFrame v s).
Proof. done. Qed.
Lemma keeps_set_currentFrame v s : keeps s (set_currentFrame v s).
Proof. done. Qed.
Lemma keeps_set_threadLoader v s : keeps s (set_threadLoader v s).
Proof. done. Qed.

Lemma stable_ofLogError a b : stable keeps (ofLogError a b).
Proof. apply stable_modify. intros s. done. Qed.
#[local] Hint Resolve stable_ofLogError : stable.

Lemma stable_ofLoadImage env i : stable keeps (ofLoadImage env i).
Proof.
  unfold ofLoadImage. stable_auto.
  - unfold keeps; cbn. rewrite length_insert. done.
  - done.
Qed.
#[local] Hint Resolve stable_ofLoadImage : stable.

(* ===================================================================== *)
(** ** [loadFrame] *)
(* ===================================================================== *)

(** Two objects with the same fields are equal. *)
Lemma record_eq (s s' : ofxImageSequence) :
  threadLoader s = threadLoader s' -> sequence s = sequence s' ->
  filenames s = filenames s' -> loadFailed s = loadFailed s' ->
  currentFrame s = currentFrame s' -> texture s = texture s' ->
  extension s = extension s' -> folderToLoad s = folderToLoad s' ->
  curLoadFrame s = curLoadFrame s' -> maxFrames s = maxFrames s' ->
  useThread s = useThread s' -> loaded s = loaded s' ->
  width s = width s' -> height s = height s' ->
  lastFrameLoaded s = lastFrameLoaded s' -> frameRate s = frameRate s' ->
  minFilter s = minFilter s' -> magFilter s = magFilter s' ->
  log s = log s' -> s = s'.
Proof. destruct s, s'; cbn; intros; subst; reflexivity. Qed.

Ltac state_eq := apply record_eq; cbn; rewrite <- ?app_assoc; try reflexivity.

(** [loadFrame] at the last frame loaded returns at once. *)
Lemma loadFrame_last env s : loadFrame env (lastFrameLoaded s) s = Some (tt, s).
Proof. unfold loadFrame. munfold. rewrite Z.eqb_refl. reflexivity. Qed.

(** [loadFrame] outside the vector logs the error and nothing else. *)
Lemma loadFrame_out_of_bounds env s idx :
  idx <> lastFrameLoaded s ->
  idx < 0 \/ Z.of_nat (length (sequence s)) <= idx ->
  loadFrame env idx s =
    Some (tt, set_log (log s ++ [LogError "ofxImageSequence<T>::loadFrame"
                                   ("Calling a frame out of bounds: " +:+ ostream_int idx)]) s).
Proof.
  intros Hne Hr. unfold loadFrame. munfold.
  destruct (Z.eqb_spec (lastFrameLoaded s) idx); [congruence|].
  destruct (Z.ltb_spec idx 0); [reflexivity|].
  destruct (Z.geb_spec idx (Z.of_nat (length (sequence s)))); [reflexivity|lia].
Qed.

(** [loadFrame] inside the vector, in closed form. *)
Lemma loadFrame_in_range env s idx pix failed path :
  idx <> lastFrameLoaded s ->
  0 <= idx < Z.of_nat (length (sequence s)) ->
  sequence s !! Z.to_nat idx = Some pix ->
  loadFailed s !! Z.to_nat idx = Some failed ->
  filenames s !! Z.to_nat idx = Some path ->
  loadFrame env idx s = Some (tt, loadFrameOutcome env idx pix failed path s).
Proof.
  intros Hne Hr Hs Hf Hp.
  assert (Hlt : (Z.to_nat idx < length (sequence s))%nat) by lia.
  assert (Hlf : (Z.to_nat idx < length (loadFailed s))%nat) by (eapply lookup_lt_Some; eauto).
  unfold loadFrame, ofLoadImage, markFailed, textureLoadData, loadFrameOutcome. munfold.
  destruct (Z.eqb_spec (lastFrameLoaded s) idx); [congruence|].
  destruct (Z.ltb_spec idx 0); [lia|].
  destruct (Z.geb_spec idx (Z.of_nat (length (sequence s)))); [lia|].
  cbn. rewrite Hs. destruct pix as [img|]; cbn.
  - rewrite Hf. destruct failed; cbn; [reflexivity|]. rewrite Hs. cbn. reflexivity.
  - rewrite Hf. destruct failed; cbn.
    + rewrite Hf. reflexivity.
    + rewrite Hp. cbn. rewrite Hs. cbn. rewrite Hp.
      destruct (decodeImageFile env path) as [img|]; cbn.
      * rewrite Hf. cbn. rewrite list_lookup_insert_eq by done. cbn.
        first [reflexivity | do 2 f_equal; state_eq].
      * rewrite Hf. cbn. rewrite list_lookup_insert_eq by done. cbn.
        first [reflexivity | do 2 f_equal; state_eq].
Qed.

Lemma wf_keeps s s' : wf s -> keeps s s' -> wf s'.
Proof. unfold wf, keeps. intros (H1 & H2) (G1 & G2 & G3 & _). split; lia. Qed.

(** In a well-formed object every frame has a buffer, a flag and a name. *)
Lemma wf_lookup s i :
  wf s -> (i < length (sequence s))%nat ->
  exists pix failed path,
    sequence s !! i = Some pix /\ loadFailed s !! i = Some failed /\
    filenames s !! i = Some path.
Proof.
  intros (H1 & H2) Hi.
  destruct (lookup_lt_is_Some_2 (sequence s) i) as [pix ?]; [lia|].
  destruct (lookup_lt_is_Some_2 (loadFailed s) i) as [failed ?]; [lia|].
  destruct (lookup_lt_is_Some_2 (filenames s) i) as [path ?]; [lia|].
  eauto 10.
Qed.

Lemma decodeCalls_app l l' : decodeCalls (l ++ l') = (decodeCalls l + decodeCalls l')%nat.
Proof. induction l as [|[] l IH]; cbn; auto. Qed.

(** [loadFrame] is defined at every index of a well-formed object. *)
Lemma loadFrame_defined env s idx :
  wf s -> exists s', loadFrame env idx s = Some (tt, s').
Proof.
  intros Hwf.
  destruct (Z.eq_dec idx (lastFrameLoaded s)) as [->|Hne].
  { eexists. apply loadFrame_last. }
  destruct (Z_lt_dec idx 0).
  { eexists. apply loadFrame_out_of_bounds; auto. }
  destruct (Z_le_dec (Z.of_nat (length (sequence s))) idx).
  { eexists. apply loadFrame_out_of_bounds; auto. }
  destruct (wf_lookup s (Z.to_nat idx) Hwf) as (pix & failed & path & Hs & Hf & Hp); [lia|].
  eexists. eapply loadFrame_in_range; eauto. lia.
Qed.

(** C10.  [loadFrame] at the index [lastFrameLoaded] returns with the
    object unchanged and nothing logged, whatever the index, -1 on a new
    object included: the test of equality comes before the test of bounds.
    At any other index outside the vector it logs the error and changes
    nothing else. *)
Theorem loadFrame_equality_check_precedes_bounds_check env s imageIndex :
  (imageIndex = lastFrameLoaded s -> loadFrame env imageIndex s = Some (tt, s)) /\
  (imageIndex <> lastFrameLoaded s ->
   imageIndex < 0 \/ Z.of_nat (length (sequence s)) <= imageIndex ->
   loadFrame env imageIndex s =
     Some (tt, set_log (log s ++ [LogError "ofxImageSequence<T>::loadFrame"
              ("Calling a frame out of bounds: " +:+ ostream_int imageIndex)]) s)).
Proof.
  split.
  - intros ->. apply loadFrame_last.
  - apply loadFrame_out_of_bounds.
Qed.

#[local] Arguments loadFrame : simpl never.
#[local] Arguments upload : simpl never.
#[local] Arguments decoded : simpl never.
#[local] Arguments failedDecode : simpl never.

Ltac count_calls :=
  unfold upload, decoded, failedDecode;
  cbn [log set_log set_lastFrameLoaded set_texture set_sequence set_loadFailed
       set_curLoadFrame set_threadLoader];
  rewrite ?decodeCalls_app; cbn [decodeCalls]; lia.

(** At every index of a well-formed sequence, [loadFrame] called twice is
    defined and its second call changes nothing.  The two calls together
    give the frame to the decoder once when the frame is fresh (empty
    buffer, no failure recorded) and is not the last frame loaded, and not
    at all otherwise. *)
Lemma loadFrame_twice env s idx :
  wf s -> 0 <= idx < Z.of_nat (length (sequence s)) ->
  exists s1,
    loadFrame env idx s = Some (tt, s1) /\
    loadFrame env idx s1 = Some (tt, s1) /\
    decodeCalls (log s1) =
      (decodeCalls (log s) + if needsDecode s idx then 1 else 0)%nat.
Proof.
  intros Hwf Hr. unfold needsDecode, isFresh.
  destruct (Z.eq_dec idx (lastFrameLoaded s)) as [->|Hne].
  { exists s. rewrite loadFrame_last, Z.eqb_refl. cbn. auto with lia. }
  destruct (Z.eqb_spec (lastFrameLoaded s) idx) as [|_]; [congruence|].
  destruct (wf_lookup s (Z.to_nat idx) Hwf) as (pix & failed & path & Hs & Hf & Hp); [lia|].
  assert (Hlt : (Z.to_nat idx < length (sequence s))%nat) by lia.
  assert (Hlf : (Z.to_nat idx < length (loadFailed s))%nat) by (eapply lookup_lt_Some; eauto).
  rewrite (loadFrame_in_range env s idx pix failed path) by auto.
  rewrite Hs, Hf. eexists; split; [reflexivity|].
  unfold loadFrameOutcome.
  destruct pix as [img|], failed; cbn.
  - split; [|lia]. erewrite loadFrame_in_range by eauto. reflexivity.
  - split; [|count_calls].
    apply (loadFrame_last env (upload idx (Some img) s)).
  - split; [|lia]. erewrite loadFrame_in_range by eauto. reflexivity.
  - destruct (decodeImageFile env path) as [img|] eqn:Hd.
    + split.
      * apply (loadFrame_last env (upload idx (Some img) (decoded (Z.to_nat idx) path img s))).
      * count_calls.
    + split.
      * erewrite (loadFrame_in_range env _ idx None true path); unfold failedDecode; cbn; eauto.
        apply list_lookup_insert_eq; done.
      * count_calls.
Qed.

(* ===================================================================== *)
(** ** [preloadAllFrames] *)
(* ===================================================================== *)

(** A turn of the loop on a cancelled or missing loader returns. *)
Lemma preloadFrame_stop env i s :
  willContinue s = false -> preloadFrame env i s = Some (false, s).
Proof.
  unfold willContinue, preloadFrame. munfold. intros H.
  destruct (useThread s); [|done].
  destruct (threadLoader s) as [l|]; [|done].
  destruct (cancelLoading l); done.
Qed.

(** A turn of the loop, in closed form. *)
Lemma preloadFrame_go env i s pix failed path :
  willContinue s = true ->
  sequence s !! i = Some pix -> loadFailed s !! i = Some failed ->
  filenames s !! i = Some path ->
  preloadFrame env i s = Some (true, preloadOne env i path s).
Proof.
  intros Hgo Hs Hf Hp.
  assert (Hlf : (i < length (loadFailed s))%nat) by (eapply lookup_lt_Some; eauto).
  unfold preloadFrame, ofLoadImage, markFailed, preloadOne.
  unfold willContinue in Hgo. munfold.
  assert ((if useThread s
           then match threadLoader s with
                | Some l => negb (cancelLoading l)
                | None => false
                end
           else true) = true) as -> by exact Hgo.
  cbn. rewrite Hp. cbn. rewrite Hs. cbn. rewrite Hp.
  destruct (decodeImageFile env path) as [img|]; cbn.
  - reflexivity.
  - rewrite Hf. cbn. do 2 f_equal. unfold failedDecode. state_eq.
Qed.

Lemma willContinue_preloadOne env i path s :
  willContinue (preloadOne env i path s) = willContinue s.
Proof. unfold preloadOne. destruct (decodeImageFile env path); reflexivity. Qed.

Lemma keeps_preloadOne env i path s : keeps s (preloadOne env i path s).
Proof.
  unfold preloadOne, keeps, decoded, failedDecode.
  destruct (decodeImageFile env path); cbn; rewrite ?length_insert;
    repeat split; first [reflexivity | lia].
Qed.

(** The loop of [preloadAllFrames] runs to the end when nobody cancels. *)
Lemma preloadFrames_run env n : forall i s,
  wf s -> willContinue s = true -> (i + n = length (sequence s))%nat ->
  exists s', preloadFrames env n i s = Some (tt, s') /\ preloadedFrom env i s s'.
Proof.
  induction n as [|n IH]; intros i s Hwf Hgo Hlen.
  - exists s. split; [reflexivity|]. unfold preloadedFrom.
    repeat split; auto; try reflexivity.
    exists []. rewrite app_nil_r. split; [done|]. intros; lia.
  - destruct (wf_lookup s i Hwf) as (pix & failed & path & Hs & Hf & Hp); [lia|].
    cbn [preloadFrames]. unfold bind at 1.
    rewrite (preloadFrame_go env i s pix failed path) by auto.
    set (s1 := preloadOne env i path s).
    assert (Hk1 : keeps s s1) by apply keeps_preloadOne.
    destruct (IH (S i) s1) as (s' & Hrun & H1 & H2 & H3 & H4 & H5 & H6 & events & H7 & H8).
    { eapply wf_keeps; eauto. }
    { unfold s1. rewrite willContinue_preloadOne. done. }
    { destruct Hk1 as (-> & _). lia. }
    exists s'. split; [exact Hrun|].
    assert (Hlf : (i < length (loadFailed s))%nat) by (eapply lookup_lt_Some; eauto).
    assert (Hls : (i < length (sequence s))%nat) by (eapply lookup_lt_Some; eauto).
    assert (Hother : forall j, j <> i ->
              sequence s1 !! j = sequence s !! j /\ loadFailed s1 !! j = loadFailed s !! j).
    { intros j Hj. unfold s1, preloadOne, decoded, failedDecode.
      destruct (decodeImageFile env path); cbn;
        rewrite ?list_lookup_insert_ne by done; done. }
    assert (Hfn : filenames s1 = filenames s).
    { unfold s1, preloadOne. destruct (decodeImageFile env path); reflexivity. }
    unfold preloadedFrom. split_and!.
    + rewrite H1. unfold s1, preloadOne. destruct (decodeImageFile env path); reflexivity.
    + rewrite H2. unfold s1, preloadOne. destruct (decodeImageFile env path); reflexivity.
    + congruence.
    + etransitivity; eauto.
    + rewrite H5. apply willContinue_preloadOne.
    + intros j Hj. destruct (H6 j) as [-> ->]; [lia|]. apply Hother. lia.
    + assert (exists ev1, log s1 = log s ++ ev1 /\ LoadImage i path (decodes env path) ∈ ev1)
        as (ev1 & Hev1 & Hin1).
      { unfold s1, preloadOne, decodes, decoded, failedDecode.
        destruct (decodeImageFile env path); cbn; eexists; split; try reflexivity;
          apply list_elem_of_In; cbn; auto. }
      exists (ev1 ++ events). split.
      { rewrite H7, Hev1, app_assoc. reflexivity. }
      intros j path' Hj Hp'.
      destruct (decide (j = i)) as [->|Hji].
      * assert (path' = path) as -> by congruence.
        split; [apply elem_of_app; auto|].
        destruct (H6 i) as [Ha Hb]; [lia|]. rewrite Ha, Hb.
        unfold s1, preloadOne, decoded, failedDecode.
        destruct (decodeImageFile env path); cbn;
          rewrite ?list_lookup_insert_eq by done; auto.
      * destruct (H8 j path') as [Hin Hres].
        { destruct Hk1 as (-> & _). lia. }
        { congruence. }
        split; [apply elem_of_app; auto|].
        destruct (decodeImageFile env path'); [done|].
        destruct Hres as [? ->]. split; [done|]. apply Hother. done.
Qed.

(** C3.  On a well-formed sequence: when the decode of a fresh frame
    fails, [loadFrame] marks the frame failed and leaves the texture and
    [lastFrameLoaded] as they were; and [preloadAllFrames], unless it is
    cancelled, gives every frame to the decoder, marks the frames whose
    decode fails, fills the buffer of every other frame, and leaves the
    texture and [lastFrameLoaded] as they were. *)
Theorem decode_failure_marks_frame_and_preload_goes_on env s :
  wf s ->
  (forall idx path,
     idx <> lastFrameLoaded s ->
     0 <= idx < Z.of_nat (length (sequence s)) ->
     isFresh s (Z.to_nat idx) = true ->
     filenames s !! Z.to_nat idx = Some path ->
     decodeImageFile env path = None ->
     exists s', loadFrame env idx s = Some (tt, s') /\
       loadFailed s' !! Z.to_nat idx = Some true /\
       texture s' = texture s /\ lastFrameLoaded s' = lastFrameLoaded s) /\
  (willContinue s = true ->
   exists s' events, preloadAllFrames env s = Some (tt, s') /\
     texture s' = texture s /\ lastFrameLoaded s' = lastFrameLoaded s /\
     log s' = log s ++ events /\
     forall i path, (i < length (sequence s))%nat -> filenames s !! i = Some path ->
       LoadImage i path (decodes env path) ∈ events /\
       (decodeImageFile env path = None -> loadFailed s' !! i = Some true) /\
       (forall img, decodeImageFile env path = Some img ->
                    sequence s' !! i = Some (Some img))).
Proof.
  intros Hwf. split.
  - intros idx path Hne Hr Hfresh Hp Hd. unfold isFresh in Hfresh.
    destruct (sequence s !! Z.to_nat idx) as [[|]|] eqn:Hs; try discriminate.
    destruct (loadFailed s !! Z.to_nat idx) as [[|]|] eqn:Hf; try discriminate.
    rewrite (loadFrame_in_range env s idx None false path) by auto.
    unfold loadFrameOutcome. rewrite Hd. eexists. split; [reflexivity|].
    unfold failedDecode; cbn. split; [|done].
    apply list_lookup_insert_eq. eapply lookup_lt_Some; eauto.
  - intros Hgo. unfold preloadAllFrames. unfold bind at 1, get.
    destruct (Nat.eqb_spec (length (sequence s)) 0) as [Hz|Hnz].
    + eexists _, _. unfold ofLogError, modify. split; [reflexivity|]. cbn.
      split_and!; try reflexivity. intros; lia.
    + destruct (preloadFrames_run env (length (sequence s)) 0%nat s) as
        (s' & Hrun & H1 & H2 & H3 & H4 & H5 & H6 & events & H7 & H8); auto.
      exists s', events. split_and!; auto.
      intros i path Hi Hp. destruct (H8 i path) as [Hin Hres]; [lia|done|].
      split_and!; [done| |].
      * intros Hd. rewrite Hd in Hres. tauto.
      * intros img Hd. rewrite Hd in Hres. done.
Qed.

(* ===================================================================== *)
(** ** What the methods keep *)
(* ===================================================================== *)

Ltac keeps_tac :=
  unfold keeps; cbn; rewrite ?length_insert, ?length_app;
  repeat split; first [reflexivity | cbn; lia].

Lemma stable_markFailed i : stable keeps (markFailed i).
Proof. unfold markFailed. stable_auto. keeps_tac. Qed.
#[local] Hint Resolve stable_markFailed : stable.

Lemma stable_textureLoadData i : stable keeps (textureLoadData i).
Proof. unfold textureLoadData. stable_auto. done. Qed.
#[local] Hint Resolve stable_textureLoadData : stable.

Lemma stable_loadFrame env idx : stable keeps (loadFrame env idx).
Proof. unfold loadFrame. stable_auto; done. Qed.
#[local] Hint Resolve stable_loadFrame : stable.

Lemma stable_preloadFrame env i : stable keeps (preloadFrame env i).
Proof. unfold preloadFrame. stable_auto; done. Qed.
#[local] Hint Resolve stable_preloadFrame : stable.

Lemma stable_preloadFrames env n : forall i, stable keeps (preloadFrames env n i).
Proof. induction n; intros i; cbn [preloadFrames]; stable_auto. Qed.
#[local] Hint Resolve stable_preloadFrames : stable.

Lemma stable_preloadAllFrames env : stable keeps (preloadAllFrames env).
Proof. unfold preloadAllFrames. stable_auto. Qed.
#[local] Hint Resolve stable_preloadAllFrames : stable.

(** *** Listing a folder *)

(** The type test fails on the name of the class. *)
Lemma pushPixels_class_name T s :
  pushPixels (NameOfImageSequence T) s = Some (false, unrecognised s).
Proof. destruct T; reflexivity. Qed.

(** The type test succeeds on the name of a pixel type. *)
Lemma pushPixels_pixel_name T s :
  pushPixels (NameOfPixels T) s = Some (true, set_sequence (sequence s ++ [None]) s).
Proof. destruct T; reflexivity. Qed.

Lemma pushPaths_nil T s : pushPaths T [] s = Some (true, s).
Proof. reflexivity. Qed.

(** The loop of [preloadAllFilenames] stops in its first turn: one name
    pushed, no buffer. *)
Lemma pushPaths_cons T path rest s :
  pushPaths T (path :: rest) s =
    Some (false, unrecognised (set_filenames (filenames s ++ [path]) s)).
Proof.
  cbn [pushPaths]. unfold bind at 1, modify. unfold bind at 1.
  rewrite pushPixels_class_name. reflexivity.
Qed.

Lemma stable_pushPaths T paths : stable keeps (pushPaths T paths).
Proof.
  intros s b s'. destruct paths as [|path rest].
  - rewrite pushPaths_nil. intros [= <- <-]. reflexivity.
  - rewrite pushPaths_cons. intros [= <- <-]. keeps_tac.
Qed.
#[local] Hint Resolve stable_pushPaths : stable.

Lemma stable_preloadAllFilenames T env : stable keeps (preloadAllFilenames T env).
Proof. unfold preloadAllFilenames. stable_auto. Qed.
#[local] Hint Resolve stable_preloadAllFilenames : stable.

Lemma pushPaths_defined T paths s : exists b s', pushPaths T paths s = Some (b, s') /\
  threadLoader s' = threadLoader s.
Proof.
  destruct paths as [|path rest].
  - rewrite pushPaths_nil. eauto.
  - rewrite pushPaths_cons. eauto.
Qed.

(** [preloadAllFilenames] is defined everywhere and leaves the loader. *)
Lemma preloadAllFilenames_defined T env s :
  exists b s', preloadAllFilenames T env s = Some (b, s') /\
    threadLoader s' = threadLoader s.
Proof.
  unfold preloadAllFilenames. unfold bind at 1, get.
  destruct (fileExists env (folderToLoad s)); cbn [negb].
  - match goal with |- context [if ?c then _ else pushPaths _ _] => destruct c end.
    + eexists _, _. split; reflexivity.
    + apply pushPaths_defined.
  - eexists _, _. split; reflexivity.
Qed.

(** *** The loader thread *)

Lemma setLoader_Some f s l :
  threadLoader s = Some l ->
  setLoader f s = Some (tt, set_threadLoader (Some (f l)) s).
Proof. intros H. unfold setLoader. munfold. rewrite H. reflexivity. Qed.

Lemma workerReturn_Some s l :
  threadLoader s = Some l ->
  workerReturn s =
    Some (tt, set_threadLoader (Some (set_pc Finished (set_loading false l))) s).
Proof.
  intros H. unfold workerReturn. unfold bind at 1.
  rewrite (setLoader_Some _ s l H).
  rewrite (setLoader_Some _ _ (set_loading false l)) by reflexivity.
  do 2 f_equal.
Qed.

Lemma stable_setLoader f : stable keeps (setLoader f).
Proof. unfold setLoader. stable_auto. done. Qed.
#[local] Hint Resolve stable_setLoader : stable.

Lemma stable_workerReturn : stable keeps workerReturn.
Proof. unfold workerReturn. stable_auto. Qed.
#[local] Hint Resolve stable_workerReturn : stable.

Lemma stable_workerStep T env : stable keeps (workerStep T env).
Proof. unfold workerStep. stable_auto. Qed.
#[local] Hint Resolve stable_workerStep : stable.

Lemma stable_workerSteps T env n : stable keeps (workerSteps T env n).
Proof. induction n; cbn [workerSteps]; stable_auto. Qed.
#[local] Hint Resolve stable_workerSteps : stable.

Lemma stable_waitForThread T env : stable keeps (waitForThread T env).
Proof. unfold waitForThread. stable_auto. Qed.
#[local] Hint Resolve stable_waitForThread : stable.

Lemma stable_cancel T env : stable keeps (cancel T env).
Proof. unfold cancel. stable_auto. Qed.
#[local] Hint Resolve stable_cancel : stable.

Lemma stable_deleteLoader T env : stable keeps (deleteLoader T env).
Proof. unfold deleteLoader. stable_auto. done. Qed.
#[local] Hint Resolve stable_deleteLoader : stable.

Lemma stable_cancelLoad T env : stable keeps (cancelLoad T env).
Proof. unfold cancelLoad. stable_auto. Qed.
#[local] Hint Resolve stable_cancelLoad : stable.

(** A step of the thread is defined on every well-formed object and leaves
    the loader in place. *)
Lemma workerStep_defined T env s :
  wf s -> exists s', workerStep T env s = Some (tt, s') /\
    (is_Some (threadLoader s) -> is_Some (threadLoader s')).
Proof.
  intros Hwf. unfold workerStep. unfold bind at 1, get.
  destruct (threadLoader s) as [l|] eqn:Hl; [|eexists; split; [reflexivity|]; rewrite Hl; done].
  destruct (pc l) as [|i|] eqn:Hpc.
  - unfold bind at 1. rewrite (setLoader_Some _ s l Hl).
    set (s1 := set_threadLoader _ s).
    destruct (preloadAllFilenames_defined T env s1) as (found & s2 & Hrun & Hl2).
    unfold bind at 1. rewrite Hrun.
    destruct found; cbn [negb].
    + unfold bind at 1, get. unfold bind at 1, defined. rewrite Hl2. cbn [threadLoader s1 set_threadLoader].
      match goal with |- context [cancelLoading ?x] => destruct (cancelLoading x) end.
      * unfold bind at 1. erewrite setLoader_Some by exact Hl2.
        erewrite workerReturn_Some by reflexivity. eexists; split; [reflexivity|done].
      * destruct (length (sequence s2) =? 0)%nat.
        -- unfold bind at 1, ofLogError, modify.
           erewrite workerReturn_Some by exact Hl2. eexists; split; [reflexivity|done].
        -- erewrite setLoader_Some by exact Hl2. eexists; split; [reflexivity|done].
    + erewrite workerReturn_Some by exact Hl2. eexists; split; [reflexivity|done].
  - destruct (Nat.ltb_spec i (length (sequence s))) as [Hi|Hi].
    + unfold bind at 1.
      destruct (willContinue s) eqn:Hgo.
      * destruct (wf_lookup s i Hwf Hi) as (pix & failed & path & Hs & Hf & Hp).
        rewrite (preloadFrame_go env i s pix failed path) by auto.
        erewrite setLoader_Some.
        2:{ unfold preloadOne. destruct (decodeImageFile env path); exact Hl. }
        eexists; split; [reflexivity|done].
      * rewrite preloadFrame_stop by auto.
        erewrite workerReturn_Some by exact Hl. eexists; split; [reflexivity|done].
    + erewrite workerReturn_Some by exact Hl. eexists; split; [reflexivity|done].
  - eexists; split; [reflexivity|]. rewrite Hl. done.
Qed.

Lemma workerSteps_defined T env n : forall s,
  wf s -> exists s', workerSteps T env n s = Some (tt, s').
Proof.
  induction n as [|n IH]; intros s Hwf; [eexists; reflexivity|].
  cbn [workerSteps]. unfold bind at 1.
  destruct (workerStep_defined T env s Hwf) as (s1 & Hrun & _). rewrite Hrun.
  apply IH. eapply wf_keeps; [exact Hwf|]. eapply stable_workerStep; eauto.
Qed.

Lemma waitForThread_defined T env s :
  wf s -> exists s', waitForThread T env s = Some (tt, s').
Proof.
  intros Hwf. unfold waitForThread. unfold bind at 1.
  destruct (workerStep_defined T env s Hwf) as (s1 & Hrun & _). rewrite Hrun.
  unfold bind at 1, get. apply workerSteps_defined.
  eapply wf_keeps; [exact Hwf|]. eapply stable_workerStep; eauto.
Qed.

Lemma cancel_defined T env s :
  wf s -> is_Some (threadLoader s) -> exists s', cancel T env s = Some (tt, s').
Proof.
  intros Hwf [l Hl]. unfold cancel. unfold bind at 1, get. unfold bind at 1, defined.
  rewrite Hl. destruct (loading l); [|eexists; reflexivity].
  unfold bind at 1. rewrite (setLoader_Some _ s l Hl).
  unfold bind at 1. erewrite setLoader_Some by reflexivity.
  unfold bind at 1. erewrite setLoader_Some by reflexivity.
  apply waitForThread_defined. exact Hwf.
Qed.

Lemma deleteLoader_defined T env s :
  wf s -> is_Some (threadLoader s) ->
  exists s', deleteLoader T env s = Some (tt, s') /\ threadLoader s' = None /\ keeps s s'.
Proof.
  intros Hwf Hl. destruct (cancel_defined T env s Hwf Hl) as (s1 & Hrun).
  unfold deleteLoader. unfold bind at 1. rewrite Hrun.
  eexists; split; [reflexivity|]. split; [reflexivity|].
  etransitivity; [eapply stable_cancel; eauto|]. done.
Qed.

(** *** Unloading and loading by range *)

(** [unloadSequence] is defined on every well-formed object: the loader
    goes, then the fields are reset. *)
Lemma unloadSequence_defined T env s :
  wf s ->
  exists s1, unloadSequence T env s = Some (tt, reset s1) /\
    keeps s s1 /\ threadLoader s1 = None /\
    (threadLoader s = None -> s1 = s).
Proof.
  intros Hwf. unfold unloadSequence. unfold bind at 1, get.
  destruct (threadLoader s) as [l|] eqn:Hl.
  - destruct (deleteLoader_defined T env s Hwf) as (s1 & Hrun & Hnone & Hk); [rewrite Hl; done|].
    rewrite bool_decide_true by done. unfold bind at 1. rewrite Hrun.
    exists s1. split; [reflexivity|]. split_and!; auto; done.
  - rewrite bool_decide_false by (intros Hne; apply Hne; reflexivity).
    exists s. split; [reflexivity|]. split_and!; auto; reflexivity.
Qed.

Lemma wf_reset s : wf (reset s).
Proof. split; reflexivity. Qed.

(** The loop of the load by range, when [sprintf] writes every name. *)
Lemma loadRange_run T n : forall fuel format i e s names,
  (n <= fuel)%nat -> e - i + 1 = Z.of_nat n ->
  INT_MIN <= i -> e < INT_MAX ->
  rangeNames format i n = Some names ->
  loadRange T fuel format i e s = Some (true, pushed names s).
Proof.
  induction n as [|n IH]; intros fuel format i e s names Hfuel Hn Hlo Hhi Hnames.
  - injection Hnames as <-.
    destruct fuel; cbn [loadRange]; (destruct (Z.leb_spec i e); [lia|]);
      unfold ret; do 2 f_equal; unfold pushed; state_eq; rewrite app_nil_r; reflexivity.
  - destruct fuel as [|fuel]; [lia|]. cbn [loadRange].
    destruct (Z.leb_spec i e); [|lia].
    cbn [rangeNames] in Hnames.
    destruct (sprintf 1024 format [i]) as [name|] eqn:Hname; [|discriminate].
    destruct (rangeNames format (i + 1) n) as [rest|] eqn:Hrest; [|discriminate].
    injection Hnames as <-.
    unfold bind at 1, defined. unfold bind at 1, modify. unfold bind at 1.
    rewrite pushPixels_pixel_name. unfold bind at 1. unfold bind at 1, defined.
    unfold int_add, int_checked, in_int.
    destruct (Z.leb_spec INT_MIN (i + 1)); [|lia].
    destruct (Z.leb_spec (i + 1) INT_MAX); [|unfold INT_MAX in *; lia].
    cbn [andb].
    erewrite IH; [|lia|lia|lia|lia|exact Hrest].
    do 2 f_equal. unfold pushed. state_eq; cbn; rewrite <- ?app_assoc; reflexivity.
Qed.

(** Whenever the loop is defined it returns [true], having pushed one
    entry per turn. *)
Lemma loadRange_Some T fuel : forall format i e s b s',
  loadRange T fuel format i e s = Some (b, s') ->
  b = true /\ exists names, s' = pushed names s /\
    (length names <= fuel)%nat /\ (i <= e -> names <> []).
Proof.
  induction fuel as [|fuel IH]; intros format i e s b s'; cbn [loadRange].
  - destruct (Z.leb_spec i e); [discriminate|].
    intros [= <- <-]. split; [reflexivity|]. exists []. split_and!; [|done|lia].
    unfold pushed. state_eq; rewrite app_nil_r; reflexivity.
  - destruct (Z.leb_spec i e).
    + intros (name & s1 & H1 & Hk)%bind_Some.
      unfold defined in H1. destruct (sprintf 1024 format [i]) as [nm|]; [|discriminate].
      assert (name = nm /\ s1 = s) as [-> ->] by (split; congruence). clear H1.
      unfold bind at 1, modify in Hk. unfold bind at 1 in Hk.
      rewrite pushPixels_pixel_name in Hk. unfold bind at 1, modify in Hk.
      apply bind_Some in Hk as (i' & s2 & H2 & Hk).
      unfold defined in H2. destruct (int_add i 1) as [j|]; [|discriminate].
      assert (i' = j) as -> by congruence.
      assert (s2 = set_loadFailed (loadFailed (set_sequence
                (sequence (set_filenames (filenames s ++ [nm]) s) ++ [None])
                (set_filenames (filenames s ++ [nm]) s)) ++ [false])
                (set_sequence (sequence (set_filenames (filenames s ++ [nm]) s) ++ [None])
                   (set_filenames (filenames s ++ [nm]) s))) as -> by congruence.
      clear H2.
      apply IH in Hk as (-> & names & -> & Hlen & _). split; [reflexivity|].
      exists (nm :: names). split_and!; [|cbn; lia|done].
      unfold pushed. state_eq; cbn; rewrite <- ?app_assoc; reflexivity.
    + intros [= <- <-]. split; [reflexivity|]. exists []. split_and!; [|cbn; lia|lia].
      unfold pushed. state_eq; rewrite app_nil_r; reflexivity.
Qed.

Lemma rangeNames_length format n : forall i names,
  rangeNames format i n = Some names -> length names = n.
Proof.
  induction n as [|n IH]; intros i names; cbn.
  - intros [= <-]. reflexivity.
  - destruct (sprintf 1024 format [i]); [|discriminate].
    destruct (rangeNames format (i + 1) n) eqn:E; [|discriminate].
    intros [= <-]. cbn. f_equal. eapply IH. exact E.
Qed.

(** The load by range, in closed form: the listed entries, the forced
    decode of frame 0, the dimensions. *)
Lemma loadSequence_run T env s prefix filetype startDigit endDigit numDigits names :
  wf s ->
  INT_MIN <= startDigit -> startDigit <= endDigit -> endDigit < INT_MAX ->
  endDigit - startDigit < INT_MAX ->
  rangeNames (formatOf prefix filetype numDigits) startDigit
    (Z.to_nat (endDigit - startDigit + 1)) = Some names ->
  exists s1 name0 first,
    keeps s s1 /\ (threadLoader s = None -> s1 = s) /\
    names !! 0%nat = Some name0 /\
    sequence (loadFrameOutcome env 0 None false name0 (listed names s1)) !! 0%nat = Some first /\
    loadSequence T env prefix filetype startDigit endDigit numDigits s =
      Some (true, measured first (loadFrameOutcome env 0 None false name0 (listed names s1))).
Proof.
  intros Hwf Hlo Hle Hhi Hcount Hnames.
  destruct (unloadSequence_defined T env s Hwf) as (s1 & Hun & Hk & _ & Hsame).
  assert (Hlen : length names = Z.to_nat (endDigit - startDigit + 1))
    by (eapply rangeNames_length; eauto).
  destruct names as [|name0 rest]; [cbn in Hlen; lia|].
  unfold loadSequence. unfold bind at 1. rewrite Hun.
  unfold bind at 1, defined, int_sub, int_checked, in_int.
  destruct (Z.leb_spec INT_MIN (endDigit - startDigit)); [|unfold INT_MIN in *; lia].
  destruct (Z.leb_spec (endDigit - startDigit) INT_MAX); [|lia]. cbn [andb].
  unfold bind at 1, defined, int_add, int_checked, in_int.
  destruct (Z.leb_spec INT_MIN (endDigit - startDigit + 1)); [|unfold INT_MIN in *; lia].
  destruct (Z.leb_spec (endDigit - startDigit + 1) INT_MAX); [|lia]. cbn [andb].
  destruct (Z.leb_spec (endDigit - startDigit + 1) 0); [lia|].
  unfold bind at 1.
  erewrite (loadRange_run T (Z.to_nat (endDigit - startDigit + 1)));
    [|reflexivity|lia|lia|lia|exact Hnames].
  unfold bind at 1, modify. unfold bind at 1, modify. unfold bind at 1.
  change (set_lastFrameLoaded (-1) (set_loaded true (pushed (name0 :: rest) (reset s1))))
    with (listed (name0 :: rest) s1).
  rewrite (loadFrame_in_range env (listed (name0 :: rest) s1) 0 None false name0);
    [|cbn; lia|cbn; lia|reflexivity|reflexivity|reflexivity].
  unfold bind at 1, get.
  assert (exists first, sequence (loadFrameOutcome env 0 None false name0
            (listed (name0 :: rest) s1)) !! 0%nat = Some first) as [first Hfirst].
  { unfold loadFrameOutcome, upload, decoded, failedDecode.
    destruct (decodeImageFile env name0); cbn; eauto. }
  unfold bind at 1, at_index, defined. rewrite Hfirst.
  exists s1, name0, first. split_and!; auto.
Qed.

(** *** The cursor and the queries *)

Lemma stable_getFilePath index : stable keeps (getFilePath index).
Proof. unfold getFilePath. stable_auto. Qed.

Lemma stable_getFrameIndexAtPercent percent : stable keeps (getFrameIndexAtPercent percent).
Proof. unfold getFrameIndexAtPercent. stable_auto. Qed.
#[local] Hint Resolve stable_getFrameIndexAtPercent : stable.

Lemma stable_setFrame env index : stable keeps (setFrame env index).
Proof. unfold setFrame. stable_auto. done. Qed.
#[local] Hint Resolve stable_setFrame : stable.

Lemma stable_setFrameAtPercent env percent : stable keeps (setFrameAtPercent env percent).
Proof. unfold setFrameAtPercent. stable_auto. Qed.
#[local] Hint Resolve stable_setFrameAtPercent : stable.

Lemma stable_setFrameForTime env time : stable keeps (setFrameForTime env time).
Proof. unfold setFrameForTime. stable_auto. Qed.
#[local] Hint Resolve stable_setFrameForTime : stable.

Lemma stable_getTexture : stable keeps getTexture.
Proof. unfold getTexture. stable_auto. Qed.
#[local] Hint Resolve stable_getTexture : stable.

Lemma stable_pixelsAtLastFrame : stable keeps pixelsAtLastFrame.
Proof. unfold pixelsAtLastFrame. stable_auto. Qed.
#[local] Hint Resolve stable_pixelsAtLastFrame : stable.

Lemma stable_setFrameRate rate : stable keeps (setFrameRate rate).
Proof. unfold setFrameRate. stable_auto. done. Qed.

Lemma stable_setMinMagFilter a b : stable keeps (setMinMagFilter a b).
Proof. unfold setMinMagFilter. stable_auto; done. Qed.

Lemma stable_discard {A} R `{!PreOrder R} (m : M A) : stable R m -> stable R (discard m).
Proof. intros H. unfold discard. apply stable_bind; [done|done|]. intros a. apply stable_ret. done. Qed.

(* ===================================================================== *)
(** ** The invariant: a loaded sequence has a frame *)
(* ===================================================================== *)

#[local] Instance keepsInv_preorder : PreOrder keepsInv.
Proof. split; unfold keepsInv; [intros s; auto | intros a b c; auto]. Qed.

(** What [keeps] relates keeps the invariant. *)
Lemma keeps_Inv s s' : keeps s s' -> Inv s -> Inv s'.
Proof.
  intros Hk (Hwf & Hl & Hn). split_and!.
  - eapply wf_keeps; eauto.
  - destruct Hk as (Hlen & _ & _ & Hld & _). rewrite Hld. intros H%Hl.
    destruct (sequence s), (sequence s'); cbn in *; congruence.
  - destruct Hk as (-> & _). exact Hn.
Qed.

Lemma stable_keepsInv {A} (m : M A) : stable keeps m -> stable keepsInv m.
Proof. intros H s a s' Hrun Hinv. eapply keeps_Inv; [|exact Hinv]. eapply H; eauto. Qed.

(** The constructor establishes the invariant. *)
Lemma Inv_new w h minF magF : Inv (constructor w h minF magF).
Proof. split_and!; [split; reflexivity|discriminate|cbn; unfold INT_MAX; lia]. Qed.

Ltac inv_tac := unfold keepsInv, Inv, wf; cbn; tauto.

Lemma keepsInv_setMaxFrames n : stable keepsInv (setMaxFrames n).
Proof. unfold setMaxFrames, ofLogError. stable_auto; inv_tac. Qed.

Lemma keepsInv_setExtension ext : stable keepsInv (setExtension ext).
Proof. unfold setExtension. stable_auto; inv_tac. Qed.

Lemma keepsInv_enableThreadedLoad b : stable keepsInv (enableThreadedLoad b).
Proof. unfold enableThreadedLoad, ofLogError. stable_auto; inv_tac. Qed.

Lemma Inv_measured first s : Inv s -> Inv (measured first s).
Proof. unfold measured. inv_tac. Qed.

(** [completeLoading] sets [loaded] only on a sequence with a frame. *)
Lemma keepsInv_completeLoading env : stable keepsInv (completeLoading env).
Proof.
  intros s [] s' Hrun Hinv. unfold completeLoading in Hrun.
  unfold bind at 1, get in Hrun.
  destruct (Nat.eqb_spec (length (sequence s)) 0) as [Hz|Hnz].
  - unfold ofLogError, modify in Hrun. injection Hrun as <-. revert Hinv. inv_tac.
  - unfold bind at 1, modify in Hrun. unfold bind at 1, modify in Hrun.
    apply bind_Some in Hrun as ([] & s2 & Hload & Hrun).
    apply stable_loadFrame in Hload.
    unfold bind at 1, get in Hrun.
    apply bind_Some in Hrun as (first & s3 & Hfirst & Hrun).
    apply at_index_Some in Hfirst as [Hfirst ->].
    unfold bind, modify in Hrun. injection Hrun as <-.
    apply (Inv_measured first). destruct Hinv as (Hwf & Hl & Hn).
    destruct Hload as (Hlen & Hlf & Hfn & Hld & _). cbn in Hlen, Hlf, Hfn, Hld.
    split_and!.
    + destruct Hwf. split; lia.
    + intros _ Hnil. rewrite Hnil in Hlen. cbn in Hlen. lia.
    + rewrite Hlen. exact Hn.
Qed.

Lemma keepsInv_updateThreadedLoad env : stable keepsInv (updateThreadedLoad env).
Proof.
  unfold updateThreadedLoad.
  repeat first [ apply keepsInv_completeLoading
               | apply stable_keepsInv; solve [eauto with stable]
               | stable_step ].
Qed.

Lemma Inv_reset s : Inv (reset s).
Proof. split_and!; [apply wf_reset|discriminate|cbn; unfold INT_MAX; lia]. Qed.

Lemma keepsInv_unloadSequence T env : stable keepsInv (unloadSequence T env).
Proof.
  intros s [] s' Hrun (Hwf & _).
  destruct (unloadSequence_defined T env s Hwf) as (s1 & Heq & _).
  rewrite Heq in Hrun. injection Hrun as <-. apply Inv_reset.
Qed.

Lemma Inv_pushed names s :
  wf s -> sequence s = [] -> names <> [] -> Z.of_nat (length names) <= INT_MAX ->
  wf (pushed names s) /\ sequence (pushed names s) <> [] /\
  Z.of_nat (length (sequence (pushed names s))) <= INT_MAX.
Proof.
  intros [Hlf Hfn] Hnil Hne Hlen. rewrite Hnil in Hlf. cbn in Hlf.
  apply nil_length_inv in Hlf. unfold pushed, wf. cbn. rewrite Hnil, Hlf. cbn.
  rewrite !length_replicate, length_app. split_and!; [lia|lia| |lia].
  destruct names; [done|discriminate].
Qed.

(** The end of both loads: [loaded = true], the forced decode of frame 0,
    and the dimensions. *)
Lemma Inv_after_first_frame env s s2 first :
  wf s -> sequence s <> [] -> Z.of_nat (length (sequence s)) <= INT_MAX ->
  loadFrame env 0 (set_lastFrameLoaded (-1) (set_loaded true s)) = Some (tt, s2) ->
  Inv (measured first s2).
Proof.
  intros Hwf Hne Hlen Hload. apply stable_loadFrame in Hload.
  apply Inv_measured. destruct Hload as (Hls & Hlf & Hfn & Hld & _).
  cbn in Hls, Hlf, Hfn, Hld. destruct Hwf. split_and!.
  - split; lia.
  - intros _ Hnil. rewrite Hnil in Hls. destruct (sequence s); [done|discriminate].
  - rewrite Hls. exact Hlen.
Qed.

(** The load by range sets [loaded] only after its loop has pushed a frame. *)
Lemma keepsInv_loadSequence T env prefix filetype a b n :
  stable keepsInv (loadSequence T env prefix filetype a b n).
Proof.
  intros s r s' Hrun (Hwf & _).
  destruct (unloadSequence_defined T env s Hwf) as (s1 & Heq & _).
  unfold loadSequence in Hrun. unfold bind at 1 in Hrun. rewrite Heq in Hrun.
  pose proof (Inv_reset s1) as Hinv0.
  assert (Hnil : sequence (reset s1) = []) by reflexivity.
  clear Heq. generalize dependent (reset s1). intros s0 Hrun Hinv0 Hnil.
  apply bind_Some in Hrun as (d & s2 & Hd & Hrun).
  apply defined_Some in Hd as [Hd ->].
  unfold int_sub, int_checked in Hd.
  destruct (in_int (b - a)); [|discriminate]. injection Hd as <-.
  apply bind_Some in Hrun as (numFiles & s2 & Hd & Hrun).
  apply defined_Some in Hd as [Hd ->].
  unfold int_add, int_checked in Hd.
  destruct (in_int (b - a + 1)) eqn:Hint; [|discriminate]. injection Hd as <-.
  destruct (Z.leb_spec (b - a + 1) 0) as [Hle|Hgt].
  - unfold bind, ofLogError, modify, ret in Hrun. injection Hrun as <- <-.
    revert Hinv0. inv_tac.
  - apply bind_Some in Hrun as (ok & s2 & Hloop & Hrun).
    apply loadRange_Some in Hloop as (-> & names & -> & Hlen & Hne).
    destruct (Inv_pushed names s0) as (Hwf2 & Hne2 & Hlen2);
      [apply Hinv0|exact Hnil|apply Hne; lia| |].
    { unfold in_int in Hint. apply andb_prop in Hint as [_ Hmax%Z.leb_le]. lia. }
    generalize dependent (pushed names s0). intros s2 Hrun Hwf2 Hne2 Hlen2.
    unfold bind at 1, modify in Hrun. unfold bind at 1, modify in Hrun.
    apply bind_Some in Hrun as ([] & s3 & Hload & Hrun).
    unfold bind at 1, get in Hrun.
    apply bind_Some in Hrun as (first & s4 & Hfirst & Hrun).
    apply at_index_Some in Hfirst as [Hfirst ->].
    unfold bind, modify, ret in Hrun. injection Hrun as <- <-.
    eapply Inv_after_first_frame; eauto.
Qed.

Lemma keepsInv_loadSequenceFolder T env folder :
  stable keepsInv (loadSequenceFolder T env folder).
Proof.
  intros s r s' Hrun (Hwf & _).
  destruct (unloadSequence_defined T env s Hwf) as (s1 & Heq & _).
  unfold loadSequenceFolder in Hrun. unfold bind at 1 in Hrun. rewrite Heq in Hrun.
  pose proof (Inv_reset s1) as Hinv0.
  clear Heq. generalize dependent (reset s1). intros s0 Hrun Hinv0.
  unfold bind at 1, modify in Hrun. unfold bind at 1, get in Hrun.
  assert (Hinv : Inv (set_folderToLoad folder s0)) by (revert Hinv0; inv_tac).
  generalize dependent (set_folderToLoad folder s0). intros s2 Hrun Hinv.
  destruct (useThread s2).
  - unfold bind, modify, ret in Hrun. injection Hrun as <- <-. revert Hinv. inv_tac.
  - apply bind_Some in Hrun as (found & s3 & Hfound & Hrun).
    apply (stable_keepsInv _ (stable_preloadAllFilenames T env)) in Hfound.
    specialize (Hfound Hinv).
    destruct found.
    + apply bind_Some in Hrun as ([] & s4 & Hdone & Hrun).
      injection Hrun as <- <-. eapply keepsInv_completeLoading; eauto.
    + injection Hrun as <- <-. exact Hfound.
Qed.

Lemma keepsInv_getTextureForFrame env index :
  stable keepsInv (getTextureForFrame env index).
Proof. apply stable_keepsInv. unfold getTextureForFrame. stable_auto. Qed.

Lemma keepsInv_getTextureForTime env time :
  stable keepsInv (getTextureForTime env time).
Proof. apply stable_keepsInv. unfold getTextureForTime. stable_auto. Qed.

Lemma keepsInv_getTextureForPercent env percent :
  stable keepsInv (getTextureForPercent env percent).
Proof. apply stable_keepsInv. unfold getTextureForPercent. stable_auto. Qed.

Lemma keepsInv_getPixelsForFrame env index :
  stable keepsInv (getPixelsForFrame env index).
Proof. apply stable_keepsInv. unfold getPixelsForFrame. stable_auto. Qed.

Lemma keepsInv_getPixelsForTime env time :
  stable keepsInv (getPixelsForTime env time).
Proof. apply stable_keepsInv. unfold getPixelsForTime. stable_auto. Qed.

Lemma keepsInv_getPixelsForPercent env percent :
  stable keepsInv (getPixelsForPercent env percent).
Proof. apply stable_keepsInv. unfold getPixelsForPercent. stable_auto. Qed.

(** Every operation keeps the invariant. *)
Lemma keepsInv_call T env c : stable keepsInv (call T env c).
Proof.
  destruct c; cbn [call].
  - apply keepsInv_setExtension.
  - apply keepsInv_setMaxFrames.
  - apply keepsInv_enableThreadedLoad.
  - apply stable_discard; [typeclasses eauto|]. unfold loadSequence4.
    apply keepsInv_loadSequence.
  - apply stable_discard; [typeclasses eauto|]. apply keepsInv_loadSequence.
  - apply stable_discard; [typeclasses eauto|]. apply keepsInv_loadSequenceFolder.
  - apply stable_keepsInv, stable_cancelLoad.
  - apply stable_keepsInv, stable_preloadAllFrames.
  - apply keepsInv_unloadSequence.
  - apply stable_keepsInv, stable_setFrameRate.
  - apply stable_discard; [typeclasses eauto|]. apply keepsInv_getTextureForFrame.
  - apply stable_discard; [typeclasses eauto|]. apply keepsInv_getTextureForTime.
  - apply stable_discard; [typeclasses eauto|]. apply keepsInv_getTextureForPercent.
  - apply stable_discard; [typeclasses eauto|]. apply keepsInv_getPixelsForFrame.
  - apply stable_discard; [typeclasses eauto|]. apply keepsInv_getPixelsForTime.
  - apply stable_discard; [typeclasses eauto|]. apply keepsInv_getPixelsForPercent.
  - apply stable_keepsInv, stable_setFrame.
  - apply stable_keepsInv, stable_setFrameForTime.
  - apply stable_keepsInv, stable_setFrameAtPercent.
  - apply stable_discard; [typeclasses eauto|]. apply stable_keepsInv, stable_getFilePath.
  - apply stable_keepsInv, stable_loadFrame.
  - apply stable_keepsInv, stable_setMinMagFilter.
  - apply keepsInv_completeLoading.
  - apply stable_discard; [typeclasses eauto|].
    apply stable_keepsInv, stable_preloadAllFilenames.
  - apply stable_keepsInv, stable_workerStep.
  - apply keepsInv_updateThreadedLoad.
Qed.

(** Every state the object can be in satisfies the invariant. *)
Lemma reachable_Inv T env s : reachable T env s -> Inv s.
Proof.
  induction 1 as [|c s s' _ IH Hcall]; [apply Inv_new|].
  eapply keepsInv_call; eauto.
Qed.

(** Under the invariant [setFrame] is defined: the remainder has a
    divisor other than 0. *)
Lemma setFrame_defined env s index :
  Inv s -> 0 <= index <= INT_MAX \/ index < 0 \/ loaded s = false ->
  exists s', setFrame env index s = Some (tt, s').
Proof.
  intros (Hwf & Hl & Hn) Hidx. unfold setFrame. unfold bind at 1, get.
  destruct (loaded s) eqn:Hld; cbn [negb]; [|eexists; reflexivity].
  destruct (Z.ltb_spec index 0); [eexists; reflexivity|].
  assert (Hnz : (0 < length (sequence s))%nat).
  { specialize (Hl eq_refl). destruct (sequence s); [done|cbn; lia]. }
  assert (Htot : getTotalFrames s = Z.of_nat (length (sequence s))).
  { unfold getTotalFrames, to_int, INT_MAX in *.
    rewrite Z.mod_small by lia.
    destruct (Z.leb_spec (Z.of_nat (length (sequence s))) 2147483647); lia. }
  unfold bind at 1, defined, int_rem. rewrite Htot.
  destruct (Z.eqb_spec (Z.of_nat (length (sequence s))) 0); [lia|].
  pose proof (Z.rem_bound_pos index (Z.of_nat (length (sequence s)))).
  unfold int_checked, in_int, INT_MIN, INT_MAX in *.
  destruct (Z.leb_spec (-2147483648) (Z.rem index (Z.of_nat (length (sequence s))))); [|lia].
  destruct (Z.leb_spec (Z.rem index (Z.of_nat (length (sequence s)))) 2147483647); [|lia].
  cbn [andb].
  destruct (loadFrame_defined env s (Z.rem index (Z.of_nat (length (sequence s)))) Hwf)
    as [s1 Hs1].
  unfold bind at 1. rewrite Hs1. eexists. reflexivity.
Qed.

(** C8.  In every state the object reaches through its operations (the
    methods, the steps of the loader thread, the update events), [loaded]
    implies at least one frame and a frame count [getTotalFrames()] other
    than 0; hence [setFrame] is defined at every [int]: the remainder by
    [getTotalFrames()] never divides by 0. *)
Theorem loaded_implies_frames T env s :
  reachable T env s ->
  (loaded s = true -> (1 <= length (sequence s))%nat /\ getTotalFrames s <> 0) /\
  (forall index, INT_MIN <= index <= INT_MAX ->
     exists s', setFrame env index s = Some (tt, s')).
Proof.
  intros Hreach. pose proof (reachable_Inv T env s Hreach) as Hinv. split.
  - intros Hld. destruct Hinv as (_ & Hl & Hn). specialize (Hl Hld).
    assert ((1 <= length (sequence s))%nat) by (destruct (sequence s); [done|cbn; lia]).
    split; [done|].
    unfold getTotalFrames, to_int, INT_MAX in *. rewrite Z.mod_small by lia.
    destruct (Z.leb_spec (Z.of_nat (length (sequence s))) 2147483647); lia.
  - intros index Hidx. apply setFrame_defined; [exact Hinv|lia].
Qed.

(** *** One decode per frame over any series of calls of [loadFrame] *)

Lemma decodeCallsAt_app i l l' :
  decodeCallsAt i (l ++ l') = (decodeCallsAt i l + decodeCallsAt i l')%nat.
Proof. induction l as [|[] l IH]; cbn; rewrite ?IH; lia. Qed.

(** [loadFrame] never raises the potential of a frame. *)
Lemma loadFrame_potential env s idx s' i :
  wf s -> loadFrame env idx s = Some (tt, s') ->
  wf s' /\ (potential s' i <= potential s i)%nat.
Proof.
  intros Hwf Hrun.
  assert (Hwf' : wf s') by (eapply wf_keeps; [exact Hwf|]; eapply stable_loadFrame; eauto).
  split; [exact Hwf'|]. clear Hwf'.
  destruct (Z.eq_dec idx (lastFrameLoaded s)) as [->|Hne].
  { rewrite loadFrame_last in Hrun. injection Hrun as <-. lia. }
  destruct (Z_lt_dec idx 0) as [Hneg|Hpos].
  { rewrite loadFrame_out_of_bounds in Hrun by auto. injection Hrun as <-.
    unfold potential, isFresh. cbn. rewrite decodeCallsAt_app. cbn. lia. }
  destruct (Z_le_dec (Z.of_nat (length (sequence s))) idx) as [Hbig|Hsmall].
  { rewrite loadFrame_out_of_bounds in Hrun by auto. injection Hrun as <-.
    unfold potential, isFresh. cbn. rewrite decodeCallsAt_app. cbn. lia. }
  destruct (wf_lookup s (Z.to_nat idx) Hwf) as (pix & failed & path & Hs & Hf & Hp); [lia|].
  assert (Hlt : (Z.to_nat idx < length (sequence s))%nat) by lia.
  assert (Hlf : (Z.to_nat idx < length (loadFailed s))%nat) by (eapply lookup_lt_Some; eauto).
  rewrite (loadFrame_in_range env s idx pix failed path) in Hrun by (auto; lia).
  injection Hrun as <-. unfold loadFrameOutcome, potential, isFresh.
  destruct pix as [img|], failed; try lia.
  - unfold upload. cbn. rewrite decodeCallsAt_app. cbn. lia.
  - destruct (decodeImageFile env path) as [img|]; unfold upload, decoded, failedDecode; cbn;
      rewrite !decodeCallsAt_app; cbn;
      (destruct (Nat.eqb_spec (Z.to_nat idx) i) as [<-|Hi];
       [ rewrite Hs, Hf, ?list_lookup_insert_eq by done; cbn; lia
       | rewrite ?list_lookup_insert_ne by done; cbn; lia ]).
Qed.

Lemma loadFrames_potential env indices : forall s i,
  wf s ->
  exists s', loadFrames env indices s = Some (tt, s') /\
    (potential s' i <= potential s i)%nat.
Proof.
  induction indices as [|idx rest IH]; intros s i Hwf.
  - exists s. split; [reflexivity|lia].
  - destruct (loadFrame_defined env s idx Hwf) as [s1 Hs1].
    destruct (loadFrame_potential env s idx s1 i Hwf Hs1) as [Hwf1 Hle].
    destruct (IH s1 i Hwf1) as (s' & Hrun & Hle').
    exists s'. cbn [loadFrames]. unfold bind at 1. rewrite Hs1. split; [exact Hrun|lia].
Qed.

(** X18.  Over any series of calls of [loadFrame], at whatever indices, on
    a well-formed object whose log holds no decode of frame [i], frame [i]
    is given to the decoder at most once. *)
Lemma loadFrames_decode_each_frame_once env indices s i :
  wf s -> decodeCallsAt i (log s) = 0%nat ->
  exists s', loadFrames env indices s = Some (tt, s') /\
    (decodeCallsAt i (log s') <= 1)%nat.
Proof.
  intros Hwf Hz. destruct (loadFrames_potential env indices s i Hwf) as (s' & Hrun & Hle).
  exists s'. split; [exact Hrun|]. unfold potential in Hle. rewrite Hz in Hle.
  destruct (isFresh s' i), (isFresh s i); lia.
Qed.

(** C2.  At every index of a well-formed sequence, [loadFrame] called
    twice is defined, its second call changes nothing, and the two calls
    give the frame to the decoder at most once: once when the frame is
    fresh (empty buffer, no failure recorded) and is not the last frame
    loaded, not at all otherwise.  A call at a frame marked failed returns
    at once; a call at a frame whose buffer is set does not decode but
    uploads the buffer to the texture and makes the frame the last one
    loaded.  Over any series of calls of [loadFrame] a frame gets at most
    one decode, and none when it was not fresh at the start. *)
Theorem loadFrame_decodes_a_frame_at_most_once env s :
  wf s ->
  (forall idx, 0 <= idx < Z.of_nat (length (sequence s)) ->
     exists s1,
       loadFrame env idx s = Some (tt, s1) /\
       loadFrame env idx s1 = Some (tt, s1) /\
       decodeCalls (log s1) =
         (decodeCalls (log s) + if needsDecode s idx then 1 else 0)%nat) /\
  (forall idx, 0 <= idx < Z.of_nat (length (sequence s)) ->
     idx <> lastFrameLoaded s ->
     (loadFailed s !! Z.to_nat idx = Some true -> loadFrame env idx s = Some (tt, s)) /\
     (forall img, sequence s !! Z.to_nat idx = Some (Some img) ->
        loadFailed s !! Z.to_nat idx = Some false ->
        loadFrame env idx s = Some (tt, upload idx (Some img) s))) /\
  (forall indices i, exists s',
     loadFrames env indices s = Some (tt, s') /\
     (decodeCallsAt i (log s')
      <= decodeCallsAt i (log s) + if isFresh s i then 1 else 0)%nat).
Proof.
  intros Hwf. split_and!.
  - intros idx Hidx. apply loadFrame_twice; assumption.
  - intros idx Hidx Hne.
    destruct (wf_lookup s (Z.to_nat idx) Hwf) as (pix & failed & path & Hs & Hf & Hp); [lia|].
    split.
    + intros Hfailed. assert (failed = true) as -> by congruence.
      rewrite (loadFrame_in_range env s idx pix true path) by auto.
      unfold loadFrameOutcome. destruct pix; reflexivity.
    + intros img Hset Hok.
      rewrite (loadFrame_in_range env s idx (Some img) false path) by auto.
      reflexivity.
  - intros indices i.
    destruct (loadFrames_potential env indices s i Hwf) as (s' & Hrun & Hle).
    exists s'. split; [exact Hrun|]. unfold potential in Hle. lia.
Qed.

(** C2, counterexample.  After [loadSequence("img", "png", 8, 10)], which
    decodes frame 0, [preloadAllFrames] decodes frame 0 a second time: two
    decodes of one frame in one session.  [loadFrame] at frame 0, whose
    buffer is set, after frame 1 was shown, does not return at once: it
    uploads the buffer and makes frame 0 the last frame loaded.  And two
    calls of [loadFrame] at frame 0 right after the load decode nothing. *)
Lemma one_session_decodes_a_frame_twice :
  (exists s, preloadAllFrames framesDisk loadedExample = Some (tt, s) /\
     decodeCallsAt 0 (log loadedExample) = 1%nat /\
     decodeCallsAt 0 (log s) = 2%nat) /\
  (exists s1 s2, loadFrame framesDisk 1 loadedExample = Some (tt, s1) /\
     sequence s1 !! 0%nat = Some (Some (image 8)) /\ lastFrameLoaded s1 = 1 /\
     loadFrame framesDisk 0 s1 = Some (tt, s2) /\
     lastFrameLoaded s2 = 0 /\ uploads (log s2) = S (uploads (log s1)) /\
     decodeCalls (log s2) = decodeCalls (log s1)) /\
  (exists s, loadFrame framesDisk 0 loadedExample = Some (tt, s) /\
     loadFrame framesDisk 0 s = Some (tt, s) /\
     decodeCalls (log s) = decodeCalls (log loadedExample)).
Proof.
  split_and!.
  - eexists. split; [vm_compute; reflexivity|]. split; vm_compute; reflexivity.
  - eexists. eexists. split; [vm_compute; reflexivity|].
    split; [vm_compute; reflexivity|]. split; [reflexivity|].
    split; [vm_compute; reflexivity|]. split_and!; vm_compute; reflexivity.
  - eexists. split; [vm_compute; reflexivity|].
    split; vm_compute; reflexivity.
Qed.

(* ===================================================================== *)
(** ** Loading a folder *)
(* ===================================================================== *)

(** [preloadAllFilenames] on a folder that exists and lists a file: the
    first path is pushed, the type test fails, the error is logged. *)
Lemma preloadAllFilenames_stops_at_type_test T env s path rest :
  fileExists env (folderToLoad s) = true ->
  listDir env (folderToLoad s) (extension s) = path :: rest ->
  preloadAllFilenames T env s =
    Some (false, unrecognised (set_filenames (filenames s ++ [path]) s)).
Proof.
  intros Hex Hlist. unfold preloadAllFilenames. unfold bind at 1, get.
  rewrite Hex, Hlist. cbn [negb].
  set (numFiles := if maxFrames s >? 0
                   then MIN (Z.of_nat (length (path :: rest))) (maxFrames s)
                   else Z.of_nat (length (path :: rest))).
  assert (Hpos : 0 < numFiles).
  { unfold numFiles, MIN. cbn [length].
    destruct (Z.gtb_spec (maxFrames s) 0); [|lia].
    destruct (Z.ltb_spec (Z.of_nat (S (length rest))) (maxFrames s)); lia. }
  destruct (Z.eqb_spec numFiles 0) as [Hz|Hnz]; [lia|].
  destruct (Z.to_nat numFiles) as [|m] eqn:Hm; [lia|].
  cbn [take]. rewrite pushPaths_cons. reflexivity.
Qed.

(** C1.  A load by folder without a thread, of a folder that exists and
    lists at least one file, returns [false]: [preloadAllFilenames] pushes
    the first path, fails its type test, logs the error and returns, so
    that no frame entry is made and [loaded] stays [false].  Its test
    compares the name of the type of [*this], the class itself, with the
    names of the pixel types; the load by range compares the name of [T]. *)
Theorem loadSequenceFolder_rejects_a_listed_folder T env s folder path rest :
  wf s -> useThread s = false ->
  fileExists env folder = true ->
  listDir env folder (extension s) = path :: rest ->
  exists s', loadSequenceFolder T env folder s = Some (false, s') /\
    sequence s' = [] /\ filenames s' = [path] /\ loaded s' = false.
Proof.
  intros Hwf Hut Hex Hlist.
  destruct (unloadSequence_defined T env s Hwf) as (s1 & Hun & Hk & _).
  destruct Hk as (_ & _ & _ & _ & Hut1 & Hext1 & Hmax1).
  unfold loadSequenceFolder. unfold bind at 1. rewrite Hun. clear Hun.
  assert (Hut0 : useThread (reset s1) = false) by (cbn; congruence).
  assert (Hext0 : extension (reset s1) = extension s) by exact Hext1.
  assert (Hseq0 : sequence (reset s1) = []) by reflexivity.
  assert (Hfn0 : filenames (reset s1) = []) by reflexivity.
  assert (Hld0 : loaded (reset s1) = false) by reflexivity.
  generalize dependent (reset s1). intros s0 Hut0 Hext0 Hseq0 Hfn0 Hld0.
  unfold bind at 1, modify. unfold bind at 1, get.
  cbn [useThread set_folderToLoad]. rewrite Hut0.
  unfold bind at 1.
  rewrite (preloadAllFilenames_stops_at_type_test T env _ path rest);
    [|exact Hex|cbn [folderToLoad extension set_folderToLoad]; congruence].
  eexists. split; [reflexivity|]. cbn. rewrite Hseq0, Hfn0, Hld0.
  split_and!; reflexivity.
Qed.

(** With the thread the same load returns [true] and is loading, but the
    thread stops at the same test in its first step; the update event that
    follows finds no frame and completes nothing: the sequence is never
    loaded. *)
Lemma threaded_folder_load_never_completes T env s folder path rest :
  wf s -> useThread s = true ->
  fileExists env folder = true ->
  listDir env folder (extension s) = path :: rest ->
  exists s1 s2 s3,
    loadSequenceFolder T env folder s = Some (true, s1) /\ isLoading s1 = true /\
    workerStep T env s1 = Some (tt, s2) /\ isLoading s2 = false /\
    updateThreadedLoad env s2 = Some (tt, s3) /\
    sequence s3 = [] /\ loaded s3 = false /\ isLoading s3 = false.
Proof.
  intros Hwf Hut Hex Hlist.
  destruct (unloadSequence_defined T env s Hwf) as (s1 & Hun & Hk & _).
  destruct Hk as (_ & _ & _ & _ & Hut1 & Hext1 & Hmax1).
  unfold loadSequenceFolder. unfold bind at 1. rewrite Hun. clear Hun.
  assert (Hut0 : useThread (reset s1) = true) by (cbn; congruence).
  assert (Hext0 : extension (reset s1) = extension s) by exact Hext1.
  assert (Hseq0 : sequence (reset s1) = []) by reflexivity.
  assert (Hld0 : loaded (reset s1) = false) by reflexivity.
  generalize dependent (reset s1). intros s0 Hut0 Hext0 Hseq0 Hld0.
  unfold bind at 1, modify. unfold bind at 1, get.
  cbn [useThread set_folderToLoad]. rewrite Hut0.
  unfold bind at 1, modify, ret.
  assert (Hex2 : fileExists env (folderToLoad (set_folderToLoad folder s0)) = true)
    by exact Hex.
  assert (Hlist2 : listDir env (folderToLoad (set_folderToLoad folder s0))
                     (extension (set_folderToLoad folder s0)) = path :: rest)
    by (cbn [folderToLoad extension set_folderToLoad]; congruence).
  assert (Hseq2 : sequence (set_folderToLoad folder s0) = []) by exact Hseq0.
  assert (Hld2 : loaded (set_folderToLoad folder s0) = false) by exact Hld0.
  clear Hext0 Hseq0 Hld0 Hut0.
  generalize dependent (set_folderToLoad folder s0). intros s2 Hex2 Hlist2 Hseq2 Hld2.
  set (l1 := set_listening true newLoader).
  set (l2 := set_pc Finished (set_loading false l1)).
  set (s3 := unrecognised (set_filenames (filenames s2 ++ [path])
                             (set_threadLoader (Some l1) s2))).
  exists (set_threadLoader (Some newLoader) s2), (set_threadLoader (Some l2) s3),
         (set_threadLoader (Some (set_listening false l2)) s3).
  split_and!; try reflexivity.
  - unfold workerStep. unfold bind at 1, get.
    cbn [threadLoader set_threadLoader pc newLoader].
    unfold bind at 1. erewrite setLoader_Some by reflexivity.
    unfold bind at 1.
    rewrite (preloadAllFilenames_stops_at_type_test T env _ path rest);
      [|exact Hex2|exact Hlist2].
    cbn [negb]. erewrite workerReturn_Some by reflexivity. reflexivity.
  - unfold updateThreadedLoad. unfold bind at 1, get.
    cbn [threadLoader set_threadLoader listening loading l2 l1 set_pc set_loading
         set_listening newLoader].
    unfold bind at 1. erewrite setLoader_Some by reflexivity.
    unfold getTotalFrames, s3, unrecognised.
    cbn [sequence set_threadLoader set_log set_filenames]. rewrite Hseq2.
    reflexivity.
  - cbn. exact Hseq2.
  - cbn. exact Hld2.
Qed.

(* ===================================================================== *)
(** ** [getFilePath] *)
(* ===================================================================== *)

Lemma getFilePath_zero s :
  getFilePath 0 s =
    Some (EmptyString, set_log (log s ++ [LogError "ofxImageSequence<T>::getFilePath"
                                            "Getting filename outside of range"]) s).
Proof. reflexivity. Qed.

(** [getFilePath] at an index from 1 on returns the stored path. *)
Lemma getFilePath_inner s index path :
  0 < index -> filenames s !! Z.to_nat index = Some path ->
  getFilePath index s = Some (path, s).
Proof.
  intros Hpos Hp. unfold getFilePath. unfold bind at 1, get.
  destruct (Z.gtb_spec index 0); [|lia].
  apply lookup_lt_Some in Hp as Hlt.
  destruct (Z.ltb_spec index (Z.of_nat (length (filenames s)))); [|lia].
  cbn [andb]. unfold at_index, defined. rewrite Hp. reflexivity.
Qed.

(** C7.  [getFilePath(0)] logs the error of an index out of range and
    returns the empty string on every object, because its test is
    [index > 0]; so it does after the load of [img8.png] to [img10.png],
    where index 0 holds [img8.png] and index 1 is answered with
    [img9.png]. *)
Theorem getFilePath_refuses_index_zero :
  (forall s, getFilePath 0 s =
     Some (EmptyString, set_log (log s ++ [LogError "ofxImageSequence<T>::getFilePath"
                                             "Getting filename outside of range"]) s)) /\
  filenames loadedExample !! 0%nat = Some "img8.png" /\
  getFilePath 1 loadedExample = Some ("img9.png", loadedExample).
Proof.
  split_and!.
  - exact getFilePath_zero.
  - vm_compute. reflexivity.
  - apply getFilePath_inner; [lia | vm_compute; reflexivity].
Qed.

(* ===================================================================== *)
(** ** Loading by range *)
(* ===================================================================== *)

Lemma rangeNames_defined format n : forall i,
  (forall j, i <= j < i + Z.of_nat n -> is_Some (sprintf 1024 format [j])) ->
  exists names, rangeNames format i n = Some names /\
    names !! 0%nat = (if n is O then None else sprintf 1024 format [i]).
Proof.
  induction n as [|n IH]; intros i Hdef; [exists []; split; reflexivity|].
  destruct (Hdef i) as [name Hname]; [lia|].
  destruct (IH (i + 1)) as (rest & Hrest & _); [intros j Hj; apply Hdef; lia|].
  exists (name :: rest). cbn [rangeNames]. rewrite Hname, Hrest. split; reflexivity.
Qed.

(** C5, as amended.  For a prefix and an extension free of [%] and NUL, an
    [int] range [start <= end] and [numDigits >= 0] whose paths fit the
    1024-byte buffer, the load lists exactly the paths
    [prefix + pad(i, numDigits) + "." + ext] for [i] from [start] to [end],
    in increasing order. *)
Theorem loadSequence_lists_padded_paths T env s prefix filetype
    startDigit endDigit numDigits :
  wf s ->
  plain prefix = true -> plain filetype = true ->
  INT_MIN <= startDigit -> startDigit <= endDigit -> endDigit < INT_MAX ->
  endDigit - startDigit < INT_MAX -> 0 <= numDigits ->
  (forall i, startDigit <= i <= endDigit ->
     (String.length (expectedPath prefix filetype (Z.to_nat numDigits) i) < 1024)%nat) ->
  exists s',
    loadSequence T env prefix filetype startDigit endDigit numDigits s = Some (true, s') /\
    filenames s' =
      map (expectedPath prefix filetype (Z.to_nat numDigits))
        (seqZ startDigit (endDigit - startDigit + 1)).
Proof.
  intros Hwf Hp Hf Hlo Hle Hhi Hcount Hn Hlen.
  pose proof (rangeNames_format prefix filetype numDigits
                (Z.to_nat (endDigit - startDigit + 1)) startDigit Hp Hf Hn) as Hnames.
  rewrite Z2Nat.id in Hnames by lia.
  specialize (Hnames ltac:(intros j Hj; apply Hlen; lia)).
  destruct (loadSequence_run T env s prefix filetype startDigit endDigit numDigits _
              Hwf Hlo Hle Hhi Hcount Hnames)
    as (s1 & name0 & first & _ & _ & _ & _ & Hrun).
  eexists. split; [exact Hrun|].
  generalize (map (expectedPath prefix filetype (Z.to_nat numDigits))
                (seqZ startDigit (endDigit - startDigit + 1))) as names.
  intros names. unfold measured, loadFrameOutcome, upload, decoded, failedDecode.
  destruct (decodeImageFile env name0); reflexivity.
Qed.

(** C5, counterexample.  With the prefix [img%%] the load of 8 to 10
    lists [img%8.png], [img%9.png] and [img%10.png]: the prefix is part
    of the format [sprintf] reads, and [%%] prints one [%]. *)
Lemma loadSequence_reads_prefix_as_format :
  ~ exists s',
      loadSequence ofPixels emptyDisk "img%%" "png" 8 10 0 fresh = Some (true, s') /\
      filenames s' = map (expectedPath "img%%" "png" 0) (seqZ 8 (10 - 8 + 1)).
Proof.
  intros (s' & Hrun & Hnames).
  assert (Hs : match loadSequence ofPixels emptyDisk "img%%" "png" 8 10 0 fresh with
               | Some (_, s) => filenames s
               | None => []
               end = ["img%8.png"; "img%9.png"; "img%10.png"]) by (vm_compute; reflexivity).
  assert (He : map (expectedPath "img%%" "png" 0) (seqZ 8 (10 - 8 + 1))
               = ["img%%8.png"; "img%%9.png"; "img%%10.png"]) by (vm_compute; reflexivity).
  rewrite Hrun in Hs. rewrite Hs, He in Hnames.
  discriminate Hnames.
Qed.

(** C9.  A load by an explicit [int] range [start <= end] whose paths
    [sprintf] can write returns [true] with [loaded = true] and one entry
    per integer, whatever the disk holds; when the first path does not
    decode, only frame 0 is marked failed, no frame is decoded, and width
    and height are 0. *)
Theorem loadSequence_succeeds_without_files T env s prefix filetype
    startDigit endDigit numDigits :
  wf s ->
  INT_MIN <= startDigit -> startDigit <= endDigit -> endDigit < INT_MAX ->
  endDigit - startDigit < INT_MAX ->
  (forall i, startDigit <= i <= endDigit ->
     is_Some (sprintf 1024 (formatOf prefix filetype numDigits) [i])) ->
  exists s' name0,
    sprintf 1024 (formatOf prefix filetype numDigits) [startDigit] = Some name0 /\
    loadSequence T env prefix filetype startDigit endDigit numDigits s = Some (true, s') /\
    loaded s' = true /\
    length (sequence s') = Z.to_nat (endDigit - startDigit + 1) /\
    (decodeImageFile env name0 = None ->
       loadFailed s' = true :: replicate (Z.to_nat (endDigit - startDigit)) false /\
       sequence s' = replicate (Z.to_nat (endDigit - startDigit + 1)) None /\
       width s' = 0%Q /\ height s' = 0%Q /\ lastFrameLoaded s' = -1).
Proof.
  intros Hwf Hlo Hle Hhi Hcount Hdef.
  destruct (rangeNames_defined (formatOf prefix filetype numDigits)
              (Z.to_nat (endDigit - startDigit + 1)) startDigit)
    as (names & Hnames & Hhead).
  { intros j Hj. apply Hdef. lia. }
  pose proof (rangeNames_length _ _ _ _ Hnames) as Hlen.
  destruct (loadSequence_run T env s prefix filetype startDigit endDigit numDigits names
              Hwf Hlo Hle Hhi Hcount Hnames)
    as (s1 & name0 & first & _ & _ & Hname0 & Hfirst & Hrun).
  exists (measured first (loadFrameOutcome env 0 None false name0 (listed names s1))), name0.
  assert (Hn : Z.to_nat (endDigit - startDigit + 1) = S (Z.to_nat (endDigit - startDigit)))
    by lia.
  rewrite Hn in Hhead. split; [congruence|]. split; [exact Hrun|].
  clear Hrun. revert Hfirst.
  unfold measured, loadFrameOutcome, upload, decoded, failedDecode, listed, pushed, reset.
  destruct (decodeImageFile env name0) as [img|]; cbn; rewrite Hlen, Hn; intros Hfirst.
  - split; [reflexivity|]. split; [|discriminate].
    rewrite length_insert. cbn. rewrite length_replicate. reflexivity.
  - split; [reflexivity|]. split; [cbn; rewrite length_replicate; reflexivity|].
    intros _. cbn in Hfirst. injection Hfirst as <-. split_and!; reflexivity.
Qed.

(* ===================================================================== *)
(** ** The theorems at concrete objects *)
(* ===================================================================== *)

(** The objects of the examples are well formed. *)
Lemma wf_loadedExample : wf loadedExample.
Proof. split; vm_compute; [reflexivity|lia]. Defined.

Lemma wf_fourFrames : wf fourFrames.
Proof. split; vm_compute; [reflexivity|lia]. Defined.

Lemma wf_fresh : wf fresh.
Proof. split; vm_compute; [reflexivity|lia]. Defined.

Lemma wf_tenFrames : wf tenFrames.
Proof. split; vm_compute; [reflexivity|lia]. Defined.

Lemma length_loadedExample : length (sequence loadedExample) = 3%nat.
Proof. vm_compute. reflexivity. Defined.

Lemma length_fourFrames : length (sequence fourFrames) = 4%nat.
Proof. vm_compute. reflexivity. Defined.

(** C1 at the folder [frames] of [framesDisk], on a new object. *)
Lemma loadSequenceFolder_rejects_a_listed_folder_witness :
  fileExists framesDisk "frames" = true /\
  listDir framesDisk "frames" (extension fresh) = ["frames/a.png"; "frames/b.png"] /\
  exists s', loadSequenceFolder ofPixels framesDisk "frames" fresh = Some (false, s') /\
    sequence s' = [] /\ filenames s' = ["frames/a.png"] /\ loaded s' = false.
Proof.
  split; [reflexivity|]. split; [reflexivity|].
  apply (loadSequenceFolder_rejects_a_listed_folder ofPixels framesDisk fresh
           "frames" "frames/a.png" ["frames/b.png"]).
  - exact wf_fresh.
  - reflexivity.
  - reflexivity.
  - reflexivity.
Defined.

(** C2 at the sequence [img8.png] to [img10.png]. *)
Lemma loadFrame_decodes_a_frame_at_most_once_witness :
  (forall idx, 0 <= idx < Z.of_nat (length (sequence loadedExample)) ->
     exists s1,
       loadFrame framesDisk idx loadedExample = Some (tt, s1) /\
       loadFrame framesDisk idx s1 = Some (tt, s1) /\
       decodeCalls (log s1) =
         (decodeCalls (log loadedExample)
          + if needsDecode loadedExample idx then 1 else 0)%nat) /\
  (forall idx, 0 <= idx < Z.of_nat (length (sequence loadedExample)) ->
     idx <> lastFrameLoaded loadedExample ->
     (loadFailed loadedExample !! Z.to_nat idx = Some true ->
      loadFrame framesDisk idx loadedExample = Some (tt, loadedExample)) /\
     (forall img, sequence loadedExample !! Z.to_nat idx = Some (Some img) ->
        loadFailed loadedExample !! Z.to_nat idx = Some false ->
        loadFrame framesDisk idx loadedExample
        = Some (tt, upload idx (Some img) loadedExample))) /\
  (forall indices i, exists s',
     loadFrames framesDisk indices loadedExample = Some (tt, s') /\
     (decodeCallsAt i (log s')
      <= decodeCallsAt i (log loadedExample)
         + if isFresh loadedExample i then 1 else 0)%nat).
Proof.
  exact (loadFrame_decodes_a_frame_at_most_once framesDisk loadedExample wf_loadedExample).
Defined.

(** C3 at the sequence [img8.png] to [img11.png], whose last file is missing. *)
Lemma decode_failure_witness :
  (exists s', loadFrame framesDisk 3 fourFrames = Some (tt, s') /\
     loadFailed s' !! Z.to_nat 3 = Some true /\
     texture s' = texture fourFrames /\
     lastFrameLoaded s' = lastFrameLoaded fourFrames) /\
  (exists s' events, preloadAllFrames framesDisk fourFrames = Some (tt, s') /\
     texture s' = texture fourFrames /\
     lastFrameLoaded s' = lastFrameLoaded fourFrames /\
     log s' = log fourFrames ++ events /\
     forall i path, (i < length (sequence fourFrames))%nat ->
       filenames fourFrames !! i = Some path ->
       LoadImage i path (decodes framesDisk path) ∈ events /\
       (decodeImageFile framesDisk path = None -> loadFailed s' !! i = Some true) /\
       (forall img, decodeImageFile framesDisk path = Some img ->
                    sequence s' !! i = Some (Some img))).
Proof.
  destruct (decode_failure_marks_frame_and_preload_goes_on framesDisk fourFrames
              wf_fourFrames) as [Hframe Hall].
  split.
  - apply (Hframe 3 "img11.png").
    + vm_compute. discriminate.
    + rewrite length_fourFrames. lia.
    + vm_compute. reflexivity.
    + vm_compute. reflexivity.
    + vm_compute. reflexivity.
  - apply Hall. vm_compute. reflexivity.
Defined.

(** C4 at three frames and the percentage [-1/4]. *)
Lemma getFrameIndexAtPercent_witness :
  1 <= Z.of_nat (length (sequence loadedExample)) <= 2 ^ 24 /\
  let n := Z.of_nat (length (sequence loadedExample)) in
  (exists p, wrapPercent (-1 # 4) = Some p /\ (0 <= p <= 1)%Q /\
     (inUnit (-1 # 4) -> p = (-1 # 4)%Q) /\
     (~ inUnit (-1 # 4) -> p = round32 ((-1 # 4) - f32_floor (-1 # 4))) /\
     getFrameIndexAtPercent (-1 # 4) loadedExample = Some (frameIndexOf p n, loadedExample) /\
     0 <= frameIndexOf p n <= n - 1) /\
  getFrameIndexAtPercent 0 loadedExample = Some (0, loadedExample) /\
  getFrameIndexAtPercent 1 loadedExample = Some (n - 1, loadedExample).
Proof.
  assert (H : 1 <= Z.of_nat (length (sequence loadedExample)) <= 2 ^ 24)
    by (rewrite length_loadedExample; lia).
  split; [exact H|].
  exact (getFrameIndexAtPercent_wraps_and_clamps loadedExample (-1 # 4) H).
Defined.

(** C5 at [img008.png] to [img010.png]. *)
Lemma loadSequence_lists_padded_paths_witness :
  exists s',
    loadSequence ofPixels framesDisk "img" "png" 8 10 3 fresh = Some (true, s') /\
    filenames s' = map (expectedPath "img" "png" (Z.to_nat 3)) (seqZ 8 (10 - 8 + 1)).
Proof.
  apply (loadSequence_lists_padded_paths ofPixels framesDisk fresh "img" "png" 8 10 3).
  - exact wf_fresh.
  - reflexivity.
  - reflexivity.
  - unfold INT_MIN. lia.
  - lia.
  - unfold INT_MAX. lia.
  - unfold INT_MAX. lia.
  - lia.
  - intros i Hi. assert (i = 8 \/ i = 9 \/ i = 10) as [->|[->| ->]] by lia;
      vm_compute; lia.
Defined.

(** A load by range is one operation away from a new object. *)
Lemma reachable_loadedExample : reachable ofPixels framesDisk loadedExample.
Proof.
  apply (reachable_call ofPixels framesDisk (CallLoadSequence4 "img" "png" 8 10) fresh).
  - apply reachable_new.
  - vm_compute. reflexivity.
Defined.

(** C8 at the sequence [img8.png] to [img10.png]. *)
Lemma loaded_implies_frames_witness :
  (loaded loadedExample = true ->
   (1 <= length (sequence loadedExample))%nat /\ getTotalFrames loadedExample <> 0) /\
  (forall index, INT_MIN <= index <= INT_MAX ->
     exists s', setFrame framesDisk index loadedExample = Some (tt, s')).
Proof.
  exact (loaded_implies_frames ofPixels framesDisk loadedExample reachable_loadedExample).
Defined.

(** C9 at the range 8 to 10 on a disk without files. *)
Lemma loadSequence_succeeds_without_files_witness :
  exists s' name0,
    sprintf 1024 (formatOf "img" "png" 0) [8] = Some name0 /\
    loadSequence ofPixels emptyDisk "img" "png" 8 10 0 fresh = Some (true, s') /\
    loaded s' = true /\
    length (sequence s') = Z.to_nat (10 - 8 + 1) /\
    (decodeImageFile emptyDisk name0 = None ->
       loadFailed s' = true :: replicate (Z.to_nat (10 - 8)) false /\
       sequence s' = replicate (Z.to_nat (10 - 8 + 1)) None /\
       width s' = 0%Q /\ height s' = 0%Q /\ lastFrameLoaded s' = -1).
Proof.
  apply (loadSequence_succeeds_without_files ofPixels emptyDisk fresh "img" "png" 8 10 0).
  - exact wf_fresh.
  - unfold INT_MIN. lia.
  - lia.
  - unfold INT_MAX. lia.
  - unfold INT_MAX. lia.
  - intros i Hi. assert (i = 8 \/ i = 9 \/ i = 10) as [->|[->| ->]] by lia.
    + exists "img8.png". vm_compute. reflexivity.
    + exists "img9.png". vm_compute. reflexivity.
    + exists "img10.png". vm_compute. reflexivity.
Defined.

(** C10 at the index -1 on a new object. *)
Lemma loadFrame_minus_one_witness :
  loadFrame emptyDisk (-1) fresh = Some (tt, fresh).
Proof.
  apply (proj1 (loadFrame_equality_check_precedes_bounds_check emptyDisk fresh (-1))).
  reflexivity.
Defined.

(* ===================================================================== *)
(** ** Examples *)
(* ===================================================================== *)

Example loadSequence_unpadded_example :
  filenames (stateAfter (loadSequence ofPixels framesDisk "img" "png" 8 10 0) fresh)
  = ["img8.png"; "img9.png"; "img10.png"].
Proof. vm_compute. reflexivity. Qed.

Example loadSequence_padded_example :
  filenames (stateAfter (loadSequence ofPixels framesDisk "img" "png" 8 10 3) fresh)
  = ["img008.png"; "img009.png"; "img010.png"].
Proof. vm_compute. reflexivity. Qed.

Example loadSequence_empty_range_example :
  exists s', loadSequence ofPixels framesDisk "img" "png" 10 8 0 fresh = Some (false, s') /\
    loaded s' = false /\ sequence s' = [].
Proof. eexists. split; [vm_compute; reflexivity|]. split; reflexivity. Qed.

Example setFrame_wraps_example :
  currentFrame (stateAfter (setFrame framesDisk 5) loadedExample) = 2.
Proof. vm_compute. reflexivity. Qed.

Example threaded_folder_load_example :
  let s1 := stateAfter (enableThreadedLoad true) fresh in
  let s2 := stateAfter (loadSequenceFolder ofPixels framesDisk "frames") s1 in
  let s3 := stateAfter (workerStep ofPixels framesDisk) s2 in
  let s4 := stateAfter (updateThreadedLoad framesDisk) s3 in
  isLoading s2 = true /\ isLoading s3 = false /\
  sequence s4 = [] /\ loaded s4 = false /\ percentLoaded s4 = 0%Q.
Proof. vm_compute. split_and!; reflexivity. Qed.

Example round32_rounds_up_to_one : round32 (1 - (1 # 1073741824)) = 1%Q.
Proof. vm_compute. reflexivity. Qed.
Example round32_one_tenth : round32 (1 # 10) = (13421773 # 134217728)%Q.
Proof. vm_compute. reflexivity. Qed.
Example round32_large_integer : round32 (inject_Z 67108867) = inject_Z 67108864.
Proof. vm_compute. reflexivity. Qed.
Example round32_tie_to_even : round32 (inject_Z 16777217) = inject_Z 16777216.
Proof. vm_compute. reflexivity. Qed.
Example round32_subnormal_tie : round32 (3 # (2 ^ 150)) = (1 # (2 ^ 148))%Q.
Proof. vm_compute. reflexivity. Qed.

Example sprintf_padded : sprintf 1024 "img%03d.png" [8] = Some "img008.png".
Proof. vm_compute. reflexivity. Qed.
Example sprintf_negative : sprintf 1024 "img%03d.png" [-5] = Some "img-05.png".
Proof. vm_compute. reflexivity. Qed.
Example sprintf_percent : sprintf 1024 "a%%b%d.png" [8] = Some "a%b8.png".
Proof. vm_compute. reflexivity. Qed.
Example sprintf_other_conversion : sprintf 1024 "a%sb%d.png" [8] = None.
Proof. vm_compute. reflexivity. Qed.
Example sprintf_left_aligned : sprintf 1024 "img%0-3d.png" [8] = Some "img8  .png".
Proof. vm_compute. reflexivity. Qed.

(* ===================================================================== *)
(** ** What the loader thread leaves to the owner *)
(* ===================================================================== *)

#[local] Instance ownerOnly_preorder : PreOrder ownerOnly.
Proof.
  split.
  - intros s. unfold ownerOnly. split_and!; auto.
  - intros a b c Hab Hbc. unfold ownerOnly in *.
    destruct Hab as (? & ? & ? & ? & ? & ? & ? & ? & ? & ? & ?).
    destruct Hbc as (? & ? & ? & ? & ? & ? & ? & ? & ? & ? & ?).
    split_and!; try congruence; auto.
Qed.

Lemma uploads_app l l' : uploads (l ++ l') = (uploads l + uploads l')%nat.
Proof. induction l as [|[] l IH]; cbn; auto. Qed.

Ltac owner_tac :=
  unfold ownerOnly; cbn; rewrite ?uploads_app; cbn;
  split_and!; first [reflexivity | lia | (intros; eauto) | idtac].

Lemma owner_ofLogError a b : stable ownerOnly (ofLogError a b).
Proof. apply stable_modify. intros s. owner_tac. Qed.
#[local] Hint Resolve owner_ofLogError : stable.

Lemma owner_ofLoadImage env i : stable ownerOnly (ofLoadImage env i).
Proof. unfold ofLoadImage. stable_auto; owner_tac. Qed.
#[local] Hint Resolve owner_ofLoadImage : stable.

Lemma owner_markFailed i : stable ownerOnly (markFailed i).
Proof. unfold markFailed. stable_auto. owner_tac. Qed.
#[local] Hint Resolve owner_markFailed : stable.

Lemma owner_preloadFrame env i : stable ownerOnly (preloadFrame env i).
Proof. unfold preloadFrame. stable_auto; owner_tac. Qed.
#[local] Hint Resolve owner_preloadFrame : stable.

Lemma owner_preloadFrames env n : forall i, stable ownerOnly (preloadFrames env n i).
Proof. induction n; intros i; cbn [preloadFrames]; stable_auto. Qed.
#[local] Hint Resolve owner_preloadFrames : stable.

(** [preloadAllFrames] decodes and uploads nothing: the texture, the
    cursor and the dimensions are as before. *)
Lemma owner_preloadAllFrames env : stable ownerOnly (preloadAllFrames env).
Proof. unfold preloadAllFrames. stable_auto. Qed.
#[local] Hint Resolve owner_preloadAllFrames : stable.

Lemma owner_pushPaths T paths : stable ownerOnly (pushPaths T paths).
Proof.
  intros s b s'. destruct paths as [|path rest].
  - rewrite pushPaths_nil. intros [= <- <-]. reflexivity.
  - rewrite pushPaths_cons. intros [= <- <-]. owner_tac.
Qed.
#[local] Hint Resolve owner_pushPaths : stable.

Lemma owner_preloadAllFilenames T env : stable ownerOnly (preloadAllFilenames T env).
Proof. unfold preloadAllFilenames. stable_auto. Qed.
#[local] Hint Resolve owner_preloadAllFilenames : stable.

Lemma owner_setLoader f : stable ownerOnly (setLoader f).
Proof. unfold setLoader. stable_auto. owner_tac. Qed.
#[local] Hint Resolve owner_setLoader : stable.

Lemma owner_workerReturn : stable ownerOnly workerReturn.
Proof. unfold workerReturn. stable_auto. Qed.
#[local] Hint Resolve owner_workerReturn : stable.

Lemma owner_workerStep T env : stable ownerOnly (workerStep T env).
Proof. unfold workerStep. stable_auto. Qed.
#[local] Hint Resolve owner_workerStep : stable.

Lemma owner_workerSteps T env n : stable ownerOnly (workerSteps T env n).
Proof. induction n; cbn [workerSteps]; stable_auto. Qed.
#[local] Hint Resolve owner_workerSteps : stable.

Lemma owner_waitForThread T env : stable ownerOnly (waitForThread T env).
Proof. unfold waitForThread. stable_auto. Qed.
#[local] Hint Resolve owner_waitForThread : stable.

Lemma owner_cancel T env : stable ownerOnly (cancel T env).
Proof. unfold cancel. stable_auto. Qed.
#[local] Hint Resolve owner_cancel : stable.

(** X1.  The loader thread leaves the display to the owner: whatever
    number of steps it takes on a well-formed object, it uploads nothing
    to the texture and changes neither the texture nor [lastFrameLoaded],
    the cursor, the dimensions or [loaded]. *)
Theorem loader_thread_leaves_the_display T env n s :
  wf s ->
  exists s', workerSteps T env n s = Some (tt, s') /\
    texture s' = texture s /\ uploads (log s') = uploads (log s) /\
    lastFrameLoaded s' = lastFrameLoaded s /\ currentFrame s' = currentFrame s /\
    width s' = width s /\ height s' = height s /\ loaded s' = loaded s.
Proof.
  intros Hwf. destruct (workerSteps_defined T env n s Hwf) as [s' Hrun].
  exists s'. split; [exact Hrun|].
  pose proof (owner_workerSteps T env n s tt s' Hrun)
    as (Ht & Hu & Hl & Hc & Hw & Hh & _).
  pose proof (stable_workerSteps T env n s tt s' Hrun) as (_ & _ & _ & Hld & _).
  split_and!; assumption.
Qed.

(* ===================================================================== *)
(** ** Unloading and cancelling *)
(* ===================================================================== *)

(** Deleting the loader waits for the thread and keeps what [keeps] and
    [ownerOnly] relate. *)
Lemma deleteLoader_run T env s :
  wf s -> is_Some (threadLoader s) ->
  exists s1, deleteLoader T env s = Some (tt, set_threadLoader None s1) /\
    keeps s s1 /\ ownerOnly s s1.
Proof.
  intros Hwf Hl. destruct (cancel_defined T env s Hwf Hl) as (s1 & Hrun).
  exists s1. unfold deleteLoader. unfold bind at 1. rewrite Hrun.
  split; [reflexivity|]. split.
  - eapply stable_cancel; eauto.
  - eapply owner_cancel; eauto.
Qed.

Lemma unloadSequence_no_loader T env s :
  threadLoader s = None -> unloadSequence T env s = Some (tt, reset s).
Proof.
  intros Hl. unfold unloadSequence. unfold bind at 1, get. rewrite Hl.
  rewrite bool_decide_false by (intros Hne; apply Hne; reflexivity).
  reflexivity.
Qed.

Lemma reset_reset s : reset (reset s) = reset s.
Proof. destruct s. vm_compute. reflexivity. Qed.

(** What [reset] assigns and what it keeps. *)
Lemma reset_fields s :
  threadLoader (reset s) = threadLoader s /\
  sequence (reset s) = [] /\ filenames (reset s) = [] /\ loadFailed (reset s) = [] /\
  loaded (reset s) = false /\ width (reset s) = 0%Q /\ height (reset s) = 0%Q /\
  curLoadFrame (reset s) = 0 /\ lastFrameLoaded (reset s) = -1 /\
  currentFrame (reset s) = 0 /\ configuration (reset s) = configuration s.
Proof. split_and!; reflexivity. Qed.

(** [unloadSequence] in closed form: the loader goes, then [reset]. *)
Lemma unloadSequence_run T env s :
  wf s ->
  exists s1, unloadSequence T env s = Some (tt, reset s1) /\
    threadLoader s1 = None /\ configuration s1 = configuration s /\
    (threadLoader s = None -> s1 = s).
Proof.
  intros Hwf. destruct (threadLoader s) as [l|] eqn:Hl.
  - destruct (deleteLoader_run T env s Hwf) as (s1 & Hrun & Hk & Ho);
      [rewrite Hl; done|].
    exists (set_threadLoader None s1). split_and!; [|reflexivity| |discriminate].
    + unfold unloadSequence. unfold bind at 1, get. rewrite Hl.
      rewrite bool_decide_true by done. unfold bind at 1. rewrite Hrun. reflexivity.
    + destruct Hk as (_ & _ & _ & _ & Hut & Hext & Hmax).
      destruct Ho as (Ht & _ & _ & _ & _ & _ & Hfr & Hmin & Hmag & Hfo & _).
      unfold configuration.
      cbn [texture extension folderToLoad maxFrames useThread frameRate minFilter
           magFilter set_threadLoader].
      congruence.
  - exists s. split_and!; [apply unloadSequence_no_loader; exact Hl|exact Hl|reflexivity|done].
Qed.

(** X2.  [unloadSequence] is defined on every well-formed object, with or
    without a loader thread: the loader is deleted, the three vectors are
    empty, [loaded] is [false], the dimensions, the cursor and
    [curLoadFrame] are 0 and [lastFrameLoaded] is -1.  The texture, the
    extension, the folder, [maxFrames], [useThread], the frame rate and the
    filters are as before: the texture is not cleared.  Unloading again
    changes nothing. *)
Theorem unloadSequence_returns_to_defaults T env s :
  wf s ->
  exists s', unloadSequence T env s = Some (tt, s') /\
    threadLoader s' = None /\
    sequence s' = [] /\ filenames s' = [] /\ loadFailed s' = [] /\
    loaded s' = false /\ width s' = 0%Q /\ height s' = 0%Q /\
    curLoadFrame s' = 0 /\ lastFrameLoaded s' = -1 /\ currentFrame s' = 0 /\
    configuration s' = configuration s /\
    unloadSequence T env s' = Some (tt, s').
Proof.
  intros Hwf.
  destruct (unloadSequence_run T env s Hwf) as (s1 & Hrun & Hnone & Hconf & _).
  exists (reset s1). split; [exact Hrun|].
  assert (Hagain : unloadSequence T env (reset s1) = Some (tt, reset s1)).
  { rewrite unloadSequence_no_loader, reset_reset; [reflexivity|].
    destruct (reset_fields s1) as (-> & _). exact Hnone. }
  destruct (reset_fields s1) as (Hl & Hseq & Hfn & Hlf & Hld & Hw & Hh & Hc & Hlast & Hcur & Hcf).
  generalize dependent (reset s1). intros s' Hrun Hagain Hl Hseq Hfn Hlf Hld Hw Hh Hc Hlast Hcur Hcf.
  split_and!; try assumption; congruence.
Qed.

(** [cancel] leaves the loader in place. *)
Lemma cancel_run T env s :
  wf s -> is_Some (threadLoader s) ->
  exists s1, cancel T env s = Some (tt, s1) /\
    wf s1 /\ is_Some (threadLoader s1) /\ keeps s s1 /\ ownerOnly s s1.
Proof.
  intros Hwf Hl. destruct (cancel_defined T env s Hwf Hl) as (s1 & Hrun).
  pose proof (stable_cancel T env s tt s1 Hrun) as Hk.
  pose proof (owner_cancel T env s tt s1 Hrun) as Ho.
  exists s1. split_and!; auto.
  - eapply wf_keeps; eauto.
  - destruct Ho as (_ & _ & _ & _ & _ & _ & _ & _ & _ & _ & Hsome). auto.
Qed.

(** X3.  [cancelLoad] is defined on every well-formed object.  With
    [useThread] set it waits for the thread and deletes the loader, so that
    the object is no longer loading; it keeps [loaded], the number of
    frames, the texture, [lastFrameLoaded] and the cursor.  With [useThread]
    not set, or without a loader, it does nothing at all, a running loader
    included. *)
Theorem cancelLoad_releases_the_loader T env s :
  wf s ->
  exists s', cancelLoad T env s = Some (tt, s') /\
    (useThread s = true -> threadLoader s' = None /\ isLoading s' = false) /\
    (useThread s = false \/ threadLoader s = None -> s' = s) /\
    loaded s' = loaded s /\ length (sequence s') = length (sequence s) /\
    texture s' = texture s /\ lastFrameLoaded s' = lastFrameLoaded s /\
    currentFrame s' = currentFrame s.
Proof.
  intros Hwf. unfold cancelLoad. unfold bind at 1, get.
  destruct (useThread s) eqn:Hut; cbn [andb].
  2:{ exists s. split; [reflexivity|]. split_and!; auto. discriminate. }
  destruct (threadLoader s) as [l|] eqn:Hl.
  2:{ rewrite bool_decide_false by (intros Hne; apply Hne; reflexivity).
      exists s. split; [reflexivity|]. split_and!; auto.
      intros _. unfold isLoading. rewrite Hl. auto. }
  rewrite bool_decide_true by done.
  destruct (cancel_run T env s Hwf) as (s1 & Hrun1 & Hwf1 & Hl1 & Hk1 & Ho1);
    [rewrite Hl; done|].
  destruct (deleteLoader_run T env s1 Hwf1 Hl1) as (s2 & Hrun2 & Hk2 & Ho2).
  unfold bind at 1. rewrite Hrun1, Hrun2.
  exists (set_threadLoader None s2). split; [reflexivity|].
  destruct Hk1 as (Hlen1 & _ & _ & Hld1 & _).
  destruct Hk2 as (Hlen2 & _ & _ & Hld2 & _).
  destruct Ho1 as (Ht1 & _ & Hlast1 & Hcur1 & _).
  destruct Ho2 as (Ht2 & _ & Hlast2 & Hcur2 & _).
  split_and!; cbn; try congruence.
  - intros _. split; reflexivity.
  - intros [Hf|Hn]; discriminate.
Qed.

(* ===================================================================== *)
(** ** Loads that fail and loads that succeed *)
(* ===================================================================== *)

(** X4.  A load by range whose end lies before its start returns [false]
    with the error [No image files found.]; the object is then unloaded,
    whatever it held before: no entry, [loaded = false], cursor and
    dimensions 0. *)
Theorem loadSequence_empty_range_unloads T env s prefix filetype
    startDigit endDigit numDigits :
  wf s -> endDigit < startDigit -> INT_MIN <= endDigit - startDigit ->
  exists s0 s',
    loadSequence T env prefix filetype startDigit endDigit numDigits s = Some (false, s') /\
    s' = set_log (log s0 ++ [LogError "ofxImageSequence<T>::loadSequence"
                               "No image files found."]) s0 /\
    sequence s' = [] /\ filenames s' = [] /\ loadFailed s' = [] /\
    loaded s' = false /\ threadLoader s' = None /\
    currentFrame s' = 0 /\ lastFrameLoaded s' = -1 /\
    width s' = 0%Q /\ height s' = 0%Q.
Proof.
  intros Hwf Hlt Hlo.
  destruct (unloadSequence_run T env s Hwf) as (s1 & Hun & Hnone & _).
  destruct (reset_fields s1) as (Hl & Hseq & Hfn & Hlf & Hld & Hw & Hh & _ & Hlast & Hcur & _).
  rewrite Hnone in Hl.
  exists (reset s1). eexists. split.
  - unfold loadSequence. unfold bind at 1. rewrite Hun.
    unfold bind at 1, defined, int_sub, int_checked, in_int.
    destruct (Z.leb_spec INT_MIN (endDigit - startDigit)); [|lia].
    destruct (Z.leb_spec (endDigit - startDigit) INT_MAX); [|unfold INT_MAX in *; lia].
    cbn [andb]. unfold bind at 1, defined, int_add, int_checked, in_int.
    destruct (Z.leb_spec INT_MIN (endDigit - startDigit + 1)); [|lia].
    destruct (Z.leb_spec (endDigit - startDigit + 1) INT_MAX); [|unfold INT_MAX in *; lia].
    cbn [andb]. destruct (Z.leb_spec (endDigit - startDigit + 1) 0); [|lia].
    reflexivity.
  - split; [reflexivity|].
    generalize dependent (reset s1). intros s0 _ Hl Hseq Hfn Hlf Hld Hw Hh Hlast Hcur.
    cbn. split_and!; assumption.
Qed.

(** X5.  A load by range on an object without a loader thread, whose first
    path decodes, decodes that frame and no other: frame 0 holds the image,
    every other buffer is empty and no failure is recorded; the texture
    holds frame 0 after a single upload, [lastFrameLoaded] and the cursor
    are 0, and width and height are those of the image, as [float]s. *)
Theorem loadSequence_decodes_only_frame_zero T env s prefix filetype
    startDigit endDigit numDigits name0 img :
  wf s -> threadLoader s = None ->
  INT_MIN <= startDigit -> startDigit <= endDigit -> endDigit < INT_MAX ->
  endDigit - startDigit < INT_MAX ->
  (forall i, startDigit <= i <= endDigit ->
     is_Some (sprintf 1024 (formatOf prefix filetype numDigits) [i])) ->
  sprintf 1024 (formatOf prefix filetype numDigits) [startDigit] = Some name0 ->
  decodeImageFile env name0 = Some img ->
  exists s',
    loadSequence T env prefix filetype startDigit endDigit numDigits s = Some (true, s') /\
    loaded s' = true /\
    sequence s' = Some img :: replicate (Z.to_nat (endDigit - startDigit)) None /\
    loadFailed s' = replicate (Z.to_nat (endDigit - startDigit + 1)) false /\
    texture s' = Some img /\ lastFrameLoaded s' = 0 /\ currentFrame s' = 0 /\
    width s' = f32_of_size_t (imageWidth img) /\
    height s' = f32_of_size_t (imageHeight img) /\
    decodeCalls (log s') = S (decodeCalls (log s)) /\
    uploads (log s') = S (uploads (log s)).
Proof.
  intros Hwf Hnone Hlo Hle Hhi Hcount Hdef Hfirstname Hdec.
  destruct (rangeNames_defined (formatOf prefix filetype numDigits)
              (Z.to_nat (endDigit - startDigit + 1)) startDigit)
    as (names & Hnames & Hhead).
  { intros j Hj. apply Hdef. lia. }
  pose proof (rangeNames_length _ _ _ _ Hnames) as Hlen.
  destruct (loadSequence_run T env s prefix filetype startDigit endDigit numDigits names
              Hwf Hlo Hle Hhi Hcount Hnames)
    as (s1 & name1 & first & _ & Hsame & Hname1 & Hfirst & Hrun).
  specialize (Hsame Hnone). subst s1.
  assert (Hn : Z.to_nat (endDigit - startDigit + 1) = S (Z.to_nat (endDigit - startDigit)))
    by lia.
  rewrite Hn in Hhead. assert (name1 = name0) as -> by congruence.
  eexists. split; [exact Hrun|]. clear Hrun. revert Hfirst.
  unfold measured, loadFrameOutcome, upload, decoded, failedDecode, listed, pushed, reset.
  rewrite Hdec. cbn. rewrite Hlen, Hn. cbn. intros [= <-].
  rewrite !decodeCalls_app, !uploads_app. cbn.
  split_and!; try reflexivity; lia.
Qed.

(** X6.  A load by folder without a thread returns [false] when the
    folder does not exist, with the error [Could not find folder], and when
    it exists but lists no file under the extension filter, with the error
    [No image files found in]; the existence is tested first.  The object
    is then unloaded and remembers the folder. *)
Theorem loadSequenceFolder_reports_missing_or_empty_folder T env s folder :
  wf s -> useThread s = false ->
  fileExists env folder = false \/ listDir env folder (extension s) = [] ->
  exists s0 s',
    loadSequenceFolder T env folder s = Some (false, s') /\
    s' = set_log (log s0 ++ [LogError "ofxImageSequence<T>::loadSequence"
            (if fileExists env folder
             then "No image files found in " +:+ folder
             else "Could not find folder " +:+ folder)]) s0 /\
    sequence s' = [] /\ filenames s' = [] /\ loadFailed s' = [] /\
    loaded s' = false /\ folderToLoad s' = folder.
Proof.
  intros Hwf Hut Hcase.
  destruct (unloadSequence_run T env s Hwf) as (s1 & Hun & _ & Hconf & _).
  destruct (reset_fields s1) as (_ & Hseq & Hfn & Hlf & Hld & _ & _ & _ & _ & _ & Hcf).
  assert (Hut0 : useThread (reset s1) = false).
  { unfold configuration in Hconf, Hcf. congruence. }
  assert (Hext0 : extension (reset s1) = extension s).
  { unfold configuration in Hconf, Hcf. congruence. }
  assert (Hmax0 : maxFrames (reset s1) = maxFrames s).
  { unfold configuration in Hconf, Hcf. congruence. }
  clear Hconf Hcf.
  unfold loadSequenceFolder. unfold bind at 1. rewrite Hun. clear Hun.
  generalize dependent (reset s1). intros s0 Hseq Hfn Hlf Hld Hut0 Hext0 Hmax0.
  exists (set_folderToLoad folder s0).
  exists (set_log (log (set_folderToLoad folder s0) ++
            [LogError "ofxImageSequence<T>::loadSequence"
               (if fileExists env folder
                then "No image files found in " +:+ folder
                else "Could not find folder " +:+ folder)]) (set_folderToLoad folder s0)).
  split.
  - unfold bind at 1, modify. unfold bind at 1, get.
    cbn [useThread set_folderToLoad]. rewrite Hut0.
    unfold bind at 1. unfold preloadAllFilenames. unfold bind at 1, get.
    cbn [folderToLoad extension maxFrames set_folderToLoad]. rewrite Hext0.
    destruct (fileExists env folder) eqn:Hex; cbn [negb].
    + destruct Hcase as [Hcase|Hcase]; [discriminate|]. rewrite Hcase.
      cbn [length]. change (Z.of_nat 0) with 0.
      assert ((if maxFrames s0 >? 0 then MIN 0 (maxFrames s0) else 0) = 0) as ->.
      { unfold MIN. destruct (Z.gtb_spec (maxFrames s0) 0); [|reflexivity].
        destruct (Z.ltb_spec 0 (maxFrames s0)); lia. }
      reflexivity.
    + reflexivity.
  - split; [reflexivity|]. cbn. split_and!; auto.
Qed.

(* ===================================================================== *)
(** ** The cursor *)
(* ===================================================================== *)

(** [getTotalFrames()] is the number of frames while that is an [int]. *)
Lemma getTotalFrames_length s :
  Z.of_nat (length (sequence s)) <= INT_MAX ->
  getTotalFrames s = Z.of_nat (length (sequence s)).
Proof.
  intros Hn. unfold getTotalFrames, to_int, INT_MAX in *.
  rewrite Z.mod_small by lia.
  destruct (Z.leb_spec (Z.of_nat (length (sequence s))) 2147483647); lia.
Qed.

(** [setFrame] on a loaded object at an index that is not negative, in
    closed form. *)
Lemma setFrame_run env s index :
  Inv s -> loaded s = true -> 0 <= index <= INT_MAX ->
  let n := Z.of_nat (length (sequence s)) in
  0 <= index mod n < n /\
  exists s1, loadFrame env (index mod n) s = Some (tt, s1) /\
    setFrame env index s = Some (tt, set_currentFrame (index mod n) s1).
Proof.
  intros (Hwf & Hl & Hn) Hld Hidx n.
  assert (Hnz : 0 < n).
  { specialize (Hl Hld). unfold n. destruct (sequence s); [done|cbn; lia]. }
  assert (Hmod : 0 <= index mod n < n) by (apply Z.mod_pos_bound; exact Hnz).
  split; [exact Hmod|].
  destruct (loadFrame_defined env s (index mod n) Hwf) as [s1 Hs1].
  exists s1. split; [exact Hs1|].
  unfold setFrame. unfold bind at 1, get. rewrite Hld. cbn [negb].
  destruct (Z.ltb_spec index 0); [lia|].
  unfold bind at 1, defined, int_rem. rewrite getTotalFrames_length by exact Hn. fold n.
  destruct (Z.eqb_spec n 0); [lia|].
  rewrite Z.rem_mod_nonneg by lia.
  unfold int_checked, in_int, INT_MIN, INT_MAX in *.
  destruct (Z.leb_spec (-2147483648) (index mod n)); [|lia].
  destruct (Z.leb_spec (index mod n) 2147483647); [|lia].
  cbn [andb]. unfold bind at 1. rewrite Hs1. reflexivity.
Qed.

(** X7.  [setFrame] on an object that is not loaded, or at a negative
    index, logs its error and changes nothing else.  On a loaded object
    and an index from 0 on, it is [loadFrame] at the index reduced modulo
    the number of frames, after which the cursor is that reduced index: an
    index of the sequence, the same for [index] and for [index] plus the
    number of frames. *)
Theorem setFrame_wraps_the_index env s index :
  Inv s ->
  let n := Z.of_nat (length (sequence s)) in
  (loaded s = false ->
   setFrame env index s =
     Some (tt, set_log (log s ++ [LogError "ofxImageSequence<T>::setFrame"
                "Calling getFrame on unitialized image sequence."]) s)) /\
  (loaded s = true -> index < 0 ->
   setFrame env index s =
     Some (tt, set_log (log s ++ [LogError "ofxImageSequence<T>::setFrame"
                "Asking for negative index."]) s)) /\
  (loaded s = true -> 0 <= index <= INT_MAX ->
   0 <= index mod n < n /\
   (index + n <= INT_MAX -> setFrame env (index + n) s = setFrame env index s) /\
   exists s1, loadFrame env (index mod n) s = Some (tt, s1) /\
     setFrame env index s = Some (tt, set_currentFrame (index mod n) s1) /\
     currentFrame (set_currentFrame (index mod n) s1) = index mod n).
Proof.
  intros Hinv n. split_and!.
  - intros Hld. unfold setFrame. unfold bind at 1, get. rewrite Hld. reflexivity.
  - intros Hld Hneg. unfold setFrame. unfold bind at 1, get. rewrite Hld. cbn [negb].
    destruct (Z.ltb_spec index 0); [reflexivity|lia].
  - intros Hld Hidx.
    destruct (setFrame_run env s index Hinv Hld Hidx) as (Hmod & s1 & Hload & Hset).
    fold n in Hmod, Hload, Hset.
    split; [exact Hmod|]. split.
    + intros Hsum.
      destruct (setFrame_run env s (index + n) Hinv Hld) as (_ & s2 & Hload2 & Hset2);
        [unfold n in *; lia|].
      fold n in Hload2, Hset2.
      assert (Hsame : (index + n) mod n = index mod n).
      { rewrite <- (Z.mul_1_l n) at 1. apply Z.mod_add. lia. }
      rewrite Hsame in Hload2, Hset2. rewrite Hset, Hset2. congruence.
    + exists s1. split_and!; [exact Hload|exact Hset|reflexivity].
Qed.

(* ===================================================================== *)
(** ** The texture shows the last frame loaded *)
(* ===================================================================== *)

#[local] Instance keepsShows_preorder env : PreOrder (keepsShows env).
Proof. split; unfold keepsShows; [intros s; auto | intros a b c; auto]. Qed.

Ltac shows_tac :=
  unfold keepsShows, Shows, wf, decodedFromNames, showsLastFrame; cbn; tauto.

Lemma Shows_decoded env s i path img :
  Shows env s -> (i < length (sequence s))%nat ->
  filenames s !! i = Some path -> decodeImageFile env path = Some img ->
  Shows env (decoded i path img s).
Proof.
  intros (Hwf & Hdec & Hshow) Hi Hp Hd. unfold Shows, decoded. split_and!.
  - unfold wf in *. cbn. rewrite length_insert. exact Hwf.
  - intros j img'. cbn. destruct (decide (j = i)) as [->|Hne].
    + rewrite list_lookup_insert_eq by exact Hi. intros [= <-]. eauto.
    + rewrite list_lookup_insert_ne by done. apply Hdec.
  - unfold showsLastFrame in *. cbn.
    destruct Hshow as [Hm|(Hpos & img0 & Hs0 & Ht0)]; [left; exact Hm|]. right.
    split; [exact Hpos|].
    destruct (decide (Z.to_nat (lastFrameLoaded s) = i)) as [Heq|Hne].
    + rewrite Heq in Hs0 |- *. destruct (Hdec i img0 Hs0) as (path0 & Hp0 & Hd0).
      assert (img0 = img) as -> by congruence.
      exists img. rewrite list_lookup_insert_eq by exact Hi. auto.
    + exists img0. rewrite list_lookup_insert_ne by done. auto.
Qed.

Lemma Shows_failedDecode env s i path :
  Shows env s -> Shows env (failedDecode i path s).
Proof.
  intros (Hwf & Hdec & Hshow). unfold Shows, failedDecode. split_and!.
  - unfold wf in *. cbn. rewrite length_insert. exact Hwf.
  - exact Hdec.
  - exact Hshow.
Qed.

Lemma Shows_upload env s idx img :
  Shows env s -> 0 <= idx -> sequence s !! Z.to_nat idx = Some (Some img) ->
  Shows env (upload idx (Some img) s).
Proof.
  intros (Hwf & Hdec & _) Hpos Hs. unfold Shows, upload. split_and!.
  - exact Hwf.
  - exact Hdec.
  - right. cbn. split; [exact Hpos|]. exists img. auto.
Qed.

Lemma shows_ofLogError env a b : stable (keepsShows env) (ofLogError a b).
Proof. apply stable_modify. intros s. shows_tac. Qed.
#[local] Hint Resolve shows_ofLogError : stable.

Lemma shows_ofLoadImage env i : stable (keepsShows env) (ofLoadImage env i).
Proof.
  intros s b s' Hrun HS. unfold ofLoadImage in Hrun.
  unfold bind at 1, get in Hrun.
  apply bind_Some in Hrun as (pix & s1 & Hpix & Hrun).
  apply at_index_Some in Hpix as [Hpix ->].
  apply bind_Some in Hrun as (path & s1 & Hpath & Hrun).
  apply at_index_Some in Hpath as [Hpath ->].
  destruct (decodeImageFile env path) as [img|] eqn:Hd.
  - unfold bind, modify, ret in Hrun. injection Hrun as <- <-.
    apply (Shows_decoded env s i path img); auto. eapply lookup_lt_Some; eauto.
  - unfold bind, modify, ret in Hrun. injection Hrun as <- <-.
    revert HS. shows_tac.
Qed.
#[local] Hint Resolve shows_ofLoadImage : stable.

Lemma shows_markFailed env i : stable (keepsShows env) (markFailed i).
Proof.
  unfold markFailed. stable_auto.
  unfold keepsShows, Shows, wf, decodedFromNames, showsLastFrame; cbn.
  rewrite length_insert. tauto.
Qed.
#[local] Hint Resolve shows_markFailed : stable.

Lemma shows_loadFrame env idx : stable (keepsShows env) (loadFrame env idx).
Proof.
  intros s [] s' Hrun HS. pose proof HS as (Hwf & Hdec & Hshow).
  destruct (Z.eq_dec idx (lastFrameLoaded s)) as [->|Hne].
  { rewrite loadFrame_last in Hrun. injection Hrun as <-. exact HS. }
  destruct (Z_lt_dec idx 0).
  { rewrite loadFrame_out_of_bounds in Hrun by auto. injection Hrun as <-.
    revert HS. shows_tac. }
  destruct (Z_le_dec (Z.of_nat (length (sequence s))) idx).
  { rewrite loadFrame_out_of_bounds in Hrun by auto. injection Hrun as <-.
    revert HS. shows_tac. }
  destruct (wf_lookup s (Z.to_nat idx) Hwf) as (pix & failed & path & Hs & Hf & Hp); [lia|].
  rewrite (loadFrame_in_range env s idx pix failed path) in Hrun by (auto; lia).
  injection Hrun as <-. unfold loadFrameOutcome.
  destruct pix as [img|], failed; try exact HS.
  - apply Shows_upload; [exact HS|lia|exact Hs].
  - destruct (decodeImageFile env path) as [img|] eqn:Hd.
    + apply Shows_upload; [|lia|].
      * apply Shows_decoded; auto. lia.
      * unfold decoded. cbn. apply list_lookup_insert_eq. lia.
    + apply Shows_failedDecode. exact HS.
Qed.
#[local] Hint Resolve shows_loadFrame : stable.

Lemma shows_preloadFrame env i : stable (keepsShows env) (preloadFrame env i).
Proof. unfold preloadFrame. stable_auto; shows_tac. Qed.
#[local] Hint Resolve shows_preloadFrame : stable.

Lemma shows_preloadFrames env n : forall i, stable (keepsShows env) (preloadFrames env n i).
Proof. induction n; intros i; cbn [preloadFrames]; stable_auto. Qed.
#[local] Hint Resolve shows_preloadFrames : stable.

Lemma shows_preloadAllFrames env : stable (keepsShows env) (preloadAllFrames env).
Proof. unfold preloadAllFrames. stable_auto. Qed.
#[local] Hint Resolve shows_preloadAllFrames : stable.

Lemma shows_pushPaths T env paths : stable (keepsShows env) (pushPaths T paths).
Proof.
  intros s b s'. destruct paths as [|path rest].
  - rewrite pushPaths_nil. intros [= <- <-]. reflexivity.
  - rewrite pushPaths_cons. intros [= <- <-] (Hwf & Hdec & Hshow).
    unfold Shows, unrecognised. split_and!.
    + unfold wf in *. cbn. rewrite length_app. cbn. lia.
    + intros i img Hs. cbn in Hs |- *. destruct (Hdec i img Hs) as (p & Hp & Hd).
      exists p. split; [|exact Hd]. apply lookup_app_l_Some. exact Hp.
    + exact Hshow.
Qed.
#[local] Hint Resolve shows_pushPaths : stable.

Lemma shows_preloadAllFilenames T env : stable (keepsShows env) (preloadAllFilenames T env).
Proof. unfold preloadAllFilenames. stable_auto. Qed.
#[local] Hint Resolve shows_preloadAllFilenames : stable.

Lemma shows_completeLoading env : stable (keepsShows env) (completeLoading env).
Proof. unfold completeLoading. stable_auto; shows_tac. Qed.
#[local] Hint Resolve shows_completeLoading : stable.

Lemma shows_setLoader env f : stable (keepsShows env) (setLoader f).
Proof. unfold setLoader. stable_auto. shows_tac. Qed.
#[local] Hint Resolve shows_setLoader : stable.

Lemma shows_workerReturn env : stable (keepsShows env) workerReturn.
Proof. unfold workerReturn. stable_auto. Qed.
#[local] Hint Resolve shows_workerReturn : stable.

Lemma shows_workerStep T env : stable (keepsShows env) (workerStep T env).
Proof. unfold workerStep. stable_auto. Qed.
#[local] Hint Resolve shows_workerStep : stable.

Lemma shows_workerSteps T env n : stable (keepsShows env) (workerSteps T env n).
Proof. induction n; cbn [workerSteps]; stable_auto. Qed.
#[local] Hint Resolve shows_workerSteps : stable.

Lemma shows_waitForThread T env : stable (keepsShows env) (waitForThread T env).
Proof. unfold waitForThread. stable_auto. Qed.
#[local] Hint Resolve shows_waitForThread : stable.

Lemma shows_cancel T env : stable (keepsShows env) (cancel T env).
Proof. unfold cancel. stable_auto. Qed.
#[local] Hint Resolve shows_cancel : stable.

Lemma shows_deleteLoader T env : stable (keepsShows env) (deleteLoader T env).
Proof. unfold deleteLoader. stable_auto. shows_tac. Qed.
#[local] Hint Resolve shows_deleteLoader : stable.

Lemma shows_cancelLoad T env : stable (keepsShows env) (cancelLoad T env).
Proof. unfold cancelLoad. stable_auto. Qed.
#[local] Hint Resolve shows_cancelLoad : stable.

Lemma shows_updateThreadedLoad env : stable (keepsShows env) (updateThreadedLoad env).
Proof. unfold updateThreadedLoad. stable_auto. Qed.
#[local] Hint Resolve shows_updateThreadedLoad : stable.

Lemma Shows_reset env s : Shows env (reset s).
Proof.
  split_and!; [apply wf_reset| |left; reflexivity].
  intros i img H. cbn in H. rewrite lookup_nil in H. discriminate.
Qed.

Lemma shows_unloadSequence T env : stable (keepsShows env) (unloadSequence T env).
Proof.
  intros s [] s' Hrun (Hwf & _).
  destruct (unloadSequence_defined T env s Hwf) as (s1 & Heq & _).
  rewrite Heq in Hrun. injection Hrun as <-. apply Shows_reset.
Qed.
#[local] Hint Resolve shows_unloadSequence : stable.

Lemma Shows_pushed env names s :
  Shows env s -> sequence s = [] -> Shows env (pushed names s).
Proof.
  intros ((Hlf & Hfn) & Hdec & Hshow) Hnil. rewrite Hnil in Hlf, Hfn. cbn in Hlf.
  apply nil_length_inv in Hlf. unfold Shows, pushed. split_and!.
  - unfold wf. cbn. rewrite Hnil, Hlf. cbn. rewrite !length_replicate, length_app. lia.
  - intros i img. cbn. rewrite Hnil. cbn. intros H.
    apply lookup_replicate in H as [H _]. discriminate.
  - unfold showsLastFrame in *. cbn.
    destruct Hshow as [Hm|(_ & img & Hs & _)]; [left; exact Hm|].
    rewrite Hnil, lookup_nil in Hs. discriminate.
Qed.

Lemma Shows_measured env first s : Shows env s -> Shows env (measured first s).
Proof. unfold measured. shows_tac. Qed.

(** The end of both loads keeps the invariant. *)
Lemma Shows_after_first_frame env s s2 first :
  Shows env s ->
  loadFrame env 0 (set_lastFrameLoaded (-1) (set_loaded true s)) = Some (tt, s2) ->
  Shows env (measured first s2).
Proof.
  intros HS Hload. apply Shows_measured.
  eapply shows_loadFrame; [exact Hload|]. revert HS. shows_tac.
Qed.

Lemma shows_loadSequence T env prefix filetype a b n :
  stable (keepsShows env) (loadSequence T env prefix filetype a b n).
Proof.
  intros s r s' Hrun (Hwf & _).
  destruct (unloadSequence_defined T env s Hwf) as (s1 & Heq & _).
  unfold loadSequence in Hrun. unfold bind at 1 in Hrun. rewrite Heq in Hrun.
  pose proof (Shows_reset env s1) as HS0.
  assert (Hnil : sequence (reset s1) = []) by reflexivity.
  clear Heq. generalize dependent (reset s1). intros s0 Hrun HS0 Hnil.
  apply bind_Some in Hrun as (d & s2 & Hd & Hrun).
  apply defined_Some in Hd as [Hd ->].
  apply bind_Some in Hrun as (numFiles & s2 & Hd' & Hrun).
  apply defined_Some in Hd' as [Hd' ->].
  destruct (numFiles <=? 0).
  - unfold bind, ofLogError, modify, ret in Hrun. injection Hrun as <- <-.
    revert HS0. shows_tac.
  - apply bind_Some in Hrun as (ok & s2 & Hloop & Hrun).
    apply loadRange_Some in Hloop as (-> & names & -> & _ & _).
    pose proof (Shows_pushed env names s0 HS0 Hnil) as HS2.
    generalize dependent (pushed names s0). intros s2 Hrun HS2.
    unfold bind at 1, modify in Hrun. unfold bind at 1, modify in Hrun.
    apply bind_Some in Hrun as ([] & s3 & Hload & Hrun).
    unfold bind at 1, get in Hrun.
    apply bind_Some in Hrun as (first & s4 & Hfirst & Hrun).
    apply at_index_Some in Hfirst as [Hfirst ->].
    unfold bind, modify, ret in Hrun. injection Hrun as <- <-.
    eapply Shows_after_first_frame; eauto.
Qed.

Lemma shows_loadSequenceFolder T env folder :
  stable (keepsShows env) (loadSequenceFolder T env folder).
Proof.
  intros s r s' Hrun (Hwf & _).
  destruct (unloadSequence_defined T env s Hwf) as (s1 & Heq & _).
  unfold loadSequenceFolder in Hrun. unfold bind at 1 in Hrun. rewrite Heq in Hrun.
  pose proof (Shows_reset env s1) as HS0.
  clear Heq. generalize dependent (reset s1). intros s0 Hrun HS0.
  unfold bind at 1, modify in Hrun. unfold bind at 1, get in Hrun.
  assert (HS : Shows env (set_folderToLoad folder s0)) by (revert HS0; shows_tac).
  generalize dependent (set_folderToLoad folder s0). intros s2 Hrun HS.
  destruct (useThread s2).
  - unfold bind, modify, ret in Hrun. injection Hrun as <- <-. revert HS. shows_tac.
  - apply bind_Some in Hrun as (found & s3 & Hfound & Hrun).
    apply (shows_preloadAllFilenames T env) in Hfound. specialize (Hfound HS).
    destruct found.
    + apply bind_Some in Hrun as ([] & s4 & Hdone & Hrun).
      injection Hrun as <- <-. eapply shows_completeLoading; eauto.
    + injection Hrun as <- <-. exact Hfound.
Qed.

Lemma shows_getFrameIndexAtPercent env percent :
  stable (keepsShows env) (getFrameIndexAtPercent percent).
Proof. unfold getFrameIndexAtPercent. stable_auto. Qed.
#[local] Hint Resolve shows_getFrameIndexAtPercent : stable.

Lemma shows_setFrame env index : stable (keepsShows env) (setFrame env index).
Proof. unfold setFrame. stable_auto. shows_tac. Qed.
#[local] Hint Resolve shows_setFrame : stable.

Lemma shows_setFrameAtPercent env percent :
  stable (keepsShows env) (setFrameAtPercent env percent).
Proof. unfold setFrameAtPercent. stable_auto. Qed.
#[local] Hint Resolve shows_setFrameAtPercent : stable.

Lemma shows_setFrameForTime env time : stable (keepsShows env) (setFrameForTime env time).
Proof. unfold setFrameForTime. stable_auto. Qed.
#[local] Hint Resolve shows_setFrameForTime : stable.

Lemma shows_getTexture env : stable (keepsShows env) getTexture.
Proof. unfold getTexture. stable_auto. Qed.
#[local] Hint Resolve shows_getTexture : stable.

Lemma shows_pixelsAtLastFrame env : stable (keepsShows env) pixelsAtLastFrame.
Proof. unfold pixelsAtLastFrame. stable_auto. Qed.
#[local] Hint Resolve shows_pixelsAtLastFrame : stable.

Lemma shows_call T env c : stable (keepsShows env) (call T env c).
Proof.
  destruct c; cbn [call];
    try (apply stable_discard; [typeclasses eauto|]).
  - unfold setExtension. stable_auto. shows_tac.
  - unfold setMaxFrames, ofLogError. stable_auto; shows_tac.
  - unfold enableThreadedLoad, ofLogError. stable_auto; shows_tac.
  - unfold loadSequence4. apply shows_loadSequence.
  - apply shows_loadSequence.
  - apply shows_loadSequenceFolder.
  - apply shows_cancelLoad.
  - apply shows_preloadAllFrames.
  - apply shows_unloadSequence.
  - unfold setFrameRate. stable_auto. shows_tac.
  - unfold getTextureForFrame. stable_auto.
  - unfold getTextureForTime. stable_auto.
  - unfold getTextureForPercent. stable_auto.
  - unfold getPixelsForFrame. stable_auto.
  - unfold getPixelsForTime. stable_auto.
  - unfold getPixelsForPercent. stable_auto.
  - apply shows_setFrame.
  - apply shows_setFrameForTime.
  - apply shows_setFrameAtPercent.
  - unfold getFilePath. stable_auto.
  - apply shows_loadFrame.
  - unfold setMinMagFilter. stable_auto; shows_tac.
  - apply shows_completeLoading.
  - apply shows_preloadAllFilenames.
  - apply shows_workerStep.
  - apply shows_updateThreadedLoad.
Qed.

Lemma Shows_new env w h minF magF : Shows env (constructor w h minF magF).
Proof.
  split_and!; [split; reflexivity| |left; reflexivity].
  intros i img H. cbn in H. rewrite lookup_nil in H. discriminate.
Qed.

Lemma reachable_Shows T env s : reachable T env s -> Shows env s.
Proof.
  induction 1 as [|c s s' _ IH Hcall]; [apply Shows_new|].
  eapply shows_call; eauto.
Qed.

(** X8.  In every state the object reaches through its operations,
    [lastFrameLoaded] is -1 or the index of a frame of the sequence whose
    buffer is set, and the texture holds that buffer: what is on display is
    the frame [lastFrameLoaded] names. *)
Theorem texture_shows_the_last_frame_loaded T env s :
  reachable T env s ->
  lastFrameLoaded s = -1 \/
  (0 <= lastFrameLoaded s < Z.of_nat (length (sequence s)) /\
   exists img, sequence s !! Z.to_nat (lastFrameLoaded s) = Some (Some img) /\
     texture s = Some img).
Proof.
  intros Hreach. destruct (reachable_Shows T env s Hreach) as (_ & _ & [Hm|(Hpos & img & Hs & Ht)]).
  - left. exact Hm.
  - right. split; [|eauto]. split; [exact Hpos|].
    apply lookup_lt_Some in Hs. lia.
Qed.

(** [loadFrame] at a frame that decodes and is not marked failed puts that
    frame on display. *)
Lemma loadFrame_displays env s m path img :
  Shows env s -> 0 <= m < Z.of_nat (length (sequence s)) ->
  filenames s !! Z.to_nat m = Some path -> decodeImageFile env path = Some img ->
  loadFailed s !! Z.to_nat m = Some false ->
  exists s1, loadFrame env m s = Some (tt, s1) /\
    lastFrameLoaded s1 = m /\ sequence s1 !! Z.to_nat m = Some (Some img) /\
    texture s1 = Some img.
Proof.
  intros (Hwf & Hdec & Hshow) Hm Hp Hd Hf.
  assert (Hsame : forall img0, sequence s !! Z.to_nat m = Some (Some img0) -> img0 = img).
  { intros img0 Hs. destruct (Hdec _ _ Hs) as (p & Hp' & Hd'). congruence. }
  destruct (Z.eq_dec m (lastFrameLoaded s)) as [Heq|Hne].
  - exists s. rewrite Heq at 1. rewrite loadFrame_last. split; [reflexivity|].
    destruct Hshow as [Hminus|(_ & img0 & Hs & Ht)]; [lia|].
    rewrite <- Heq in Hs. pose proof (Hsame img0 Hs) as ->. auto.
  - destruct (wf_lookup s (Z.to_nat m) Hwf) as (pix & failed & path' & Hs & Hf' & Hp'); [lia|].
    assert (failed = false) as -> by congruence.
    assert (path' = path) as -> by congruence.
    rewrite (loadFrame_in_range env s m pix false path) by (auto; lia).
    eexists. split; [reflexivity|]. unfold loadFrameOutcome.
    destruct pix as [img0|].
    + pose proof (Hsame img0 Hs) as ->. unfold upload. cbn. auto.
    + rewrite Hd. unfold upload, decoded. cbn. split_and!; [reflexivity| |reflexivity].
      apply list_lookup_insert_eq. lia.
Qed.

(** X9.  On a loaded object, [getPixelsForFrame] and [getTextureForFrame]
    at an index from 0 on, whose frame (the index modulo the number of
    frames) decodes and is not marked failed, both return the image of
    that frame and leave the same object: the cursor and [lastFrameLoaded]
    are the reduced index. *)
Theorem getPixelsForFrame_returns_the_frame env s index path img :
  Inv s -> Shows env s -> loaded s = true -> 0 <= index <= INT_MAX ->
  let m := index mod Z.of_nat (length (sequence s)) in
  filenames s !! Z.to_nat m = Some path -> decodeImageFile env path = Some img ->
  loadFailed s !! Z.to_nat m = Some false ->
  exists s',
    getPixelsForFrame env index s = Some (Some img, s') /\
    getTextureForFrame env index s = Some (Some img, s') /\
    currentFrame s' = m /\ lastFrameLoaded s' = m.
Proof.
  intros Hinv HS Hld Hidx m Hp Hd Hf.
  destruct (setFrame_run env s index Hinv Hld Hidx) as (Hmod & s1 & Hload & Hset).
  fold m in Hmod, Hload, Hset.
  destruct (loadFrame_displays env s m path img HS Hmod Hp Hd Hf)
    as (s1' & Hload' & Hlast & Hseq & Htex).
  assert (s1' = s1) as -> by congruence.
  exists (set_currentFrame m s1). split_and!.
  - unfold getPixelsForFrame. unfold bind at 1. rewrite Hset.
    unfold pixelsAtLastFrame. unfold bind at 1, get.
    cbn [lastFrameLoaded sequence set_currentFrame]. rewrite Hlast.
    destruct (Z.ltb_spec m 0); [lia|].
    unfold at_index, defined. rewrite Hseq. reflexivity.
  - unfold getTextureForFrame. unfold bind at 1. rewrite Hset.
    unfold getTexture, bind, get, ret. cbn [texture set_currentFrame].
    rewrite Htex. reflexivity.
  - reflexivity.
  - exact Hlast.
Qed.

(** X10.  While no frame has been uploaded ([lastFrameLoaded] is -1),
    [getPixelsForFrame] has no defined behaviour when the object is not
    loaded, when the index is negative, and when the frame asked for is
    marked failed: [setFrame] returns without a frame on display and the
    method reads [sequence[-1]].  [getTextureForFrame] is defined in all
    three cases and returns the texture as it was. *)
Theorem getPixelsForFrame_needs_a_frame_on_display env s index :
  Inv s -> lastFrameLoaded s = -1 ->
  loaded s = false \/ index < 0 \/
  (0 <= index <= INT_MAX /\
   loadFailed s !! Z.to_nat (index mod Z.of_nat (length (sequence s))) = Some true) ->
  getPixelsForFrame env index s = None /\
  exists s', getTextureForFrame env index s = Some (texture s, s').
Proof.
  intros Hinv Hlast Hcase.
  assert (exists s', setFrame env index s = Some (tt, s') /\
            lastFrameLoaded s' = -1 /\ texture s' = texture s) as (s' & Hset & Hlast' & Htex).
  { destruct (loaded s) eqn:Hld.
    - destruct Hcase as [Hc|[Hneg|[Hidx Hf]]]; [discriminate| |].
      + eexists. split.
        * unfold setFrame. unfold bind at 1, get. rewrite Hld. cbn [negb].
          destruct (Z.ltb_spec index 0); [reflexivity|lia].
        * split; [exact Hlast|reflexivity].
      + destruct (setFrame_run env s index Hinv Hld Hidx) as (Hmod & s1 & Hload & Hset).
        destruct Hinv as (Hwf & _).
        destruct (wf_lookup s (Z.to_nat (index mod Z.of_nat (length (sequence s)))) Hwf)
          as (pix & failed & path & Hs & Hf' & Hp); [lia|].
        assert (failed = true) as -> by congruence.
        rewrite (loadFrame_in_range env s _ pix true path) in Hload by (auto; lia).
        assert (s1 = s) as ->.
        { unfold loadFrameOutcome in Hload. destruct pix; congruence. }
        eexists. split; [exact Hset|]. split; [exact Hlast|reflexivity].
    - eexists. split.
      + unfold setFrame. unfold bind at 1, get. rewrite Hld. reflexivity.
      + split; [exact Hlast|reflexivity]. }
  split.
  - unfold getPixelsForFrame. unfold bind at 1. rewrite Hset.
    unfold pixelsAtLastFrame. unfold bind at 1, get. rewrite Hlast'. reflexivity.
  - exists s'. unfold getTextureForFrame. unfold bind at 1. rewrite Hset.
    unfold getTexture, bind, get, ret. rewrite Htex. reflexivity.
Qed.

(* ===================================================================== *)
(** ** Frames already decoded *)
(* ===================================================================== *)

(** On a settled object [loadFrame] calls the decoder no more. *)
Lemma loadFrame_settled env s idx s' :
  wf s -> settled s -> loadFrame env idx s = Some (tt, s') ->
  wf s' /\ settled s' /\ decodeCalls (log s') = decodeCalls (log s).
Proof.
  intros Hwf Hset Hrun.
  assert (Hwf' : wf s') by (eapply wf_keeps; [exact Hwf|]; eapply stable_loadFrame; eauto).
  split; [exact Hwf'|]. clear Hwf'.
  destruct (Z.eq_dec idx (lastFrameLoaded s)) as [->|Hne].
  { rewrite loadFrame_last in Hrun. injection Hrun as <-. auto. }
  destruct (Z_lt_dec idx 0).
  { rewrite loadFrame_out_of_bounds in Hrun by auto. injection Hrun as <-.
    split; [exact Hset|]. cbn. rewrite decodeCalls_app. cbn. lia. }
  destruct (Z_le_dec (Z.of_nat (length (sequence s))) idx).
  { rewrite loadFrame_out_of_bounds in Hrun by auto. injection Hrun as <-.
    split; [exact Hset|]. cbn. rewrite decodeCalls_app. cbn. lia. }
  destruct (wf_lookup s (Z.to_nat idx) Hwf) as (pix & failed & path & Hs & Hf & Hp); [lia|].
  rewrite (loadFrame_in_range env s idx pix failed path) in Hrun by (auto; lia).
  injection Hrun as <-. unfold loadFrameOutcome.
  pose proof (Hset (Z.to_nat idx)) as Hfresh. unfold isFresh in Hfresh.
  rewrite Hs, Hf in Hfresh.
  destruct pix as [img|], failed; try discriminate; auto.
  split.
  - intros i. specialize (Hset i). unfold isFresh in *. exact Hset.
  - unfold upload. cbn. rewrite decodeCalls_app. cbn. lia.
Qed.

Lemma loadFrames_settled env indices : forall s,
  wf s -> settled s ->
  exists s', loadFrames env indices s = Some (tt, s') /\
    decodeCalls (log s') = decodeCalls (log s).
Proof.
  induction indices as [|idx rest IH]; intros s Hwf Hset.
  - exists s. split; reflexivity.
  - destruct (loadFrame_defined env s idx Hwf) as [s1 Hs1].
    destruct (loadFrame_settled env s idx s1 Hwf Hset Hs1) as (Hwf1 & Hset1 & Hcalls).
    destruct (IH s1 Hwf1 Hset1) as (s' & Hrun & Hcalls').
    exists s'. cbn [loadFrames]. unfold bind at 1. rewrite Hs1.
    split; [exact Hrun|lia].
Qed.

(** After [preloadAllFrames] has run to its end every frame is settled. *)
Lemma preloadAllFrames_settles env s :
  wf s -> willContinue s = true ->
  exists s', preloadAllFrames env s = Some (tt, s') /\ wf s' /\ settled s'.
Proof.
  intros Hwf Hgo. unfold preloadAllFrames. unfold bind at 1, get.
  destruct (Nat.eqb_spec (length (sequence s)) 0) as [Hz|Hnz].
  - eexists. unfold ofLogError, modify. split; [reflexivity|]. split; [exact Hwf|].
    intros i. unfold isFresh. cbn. apply nil_length_inv in Hz. rewrite Hz, lookup_nil.
    reflexivity.
  - destruct (preloadFrames_run env (length (sequence s)) 0%nat s) as
      (s' & Hrun & _ & _ & Hfn & Hk & _ & _ & events & _ & H8); auto.
    exists s'. split; [exact Hrun|].
    assert (Hwf' : wf s') by (eapply wf_keeps; eauto).
    split; [exact Hwf'|]. intros i. unfold isFresh.
    destruct Hk as (Hlen & _).
    destruct (Nat.lt_ge_cases i (length (sequence s))) as [Hi|Hi].
    + destruct (wf_lookup s i Hwf Hi) as (pix & failed & path & Hs & Hf & Hp).
      destruct (H8 i path) as [_ Hres]; [lia|exact Hp|].
      destruct (decodeImageFile env path).
      * rewrite Hres. reflexivity.
      * destruct Hres as [-> _]. destruct (sequence s' !! i) as [[|]|]; reflexivity.
    + rewrite (lookup_ge_None_2 (sequence s') i) by lia. reflexivity.
Qed.

(** X11.  After [preloadAllFrames] has run to its end on a well-formed
    object, no series of calls of [loadFrame], at whatever indices, calls
    the decoder again: every frame has its buffer or its failure
    recorded. *)
Theorem preloaded_frames_are_not_decoded_again env s indices :
  wf s -> willContinue s = true ->
  exists s1 s2,
    preloadAllFrames env s = Some (tt, s1) /\
    loadFrames env indices s1 = Some (tt, s2) /\
    decodeCalls (log s2) = decodeCalls (log s1).
Proof.
  intros Hwf Hgo.
  destruct (preloadAllFrames_settles env s Hwf Hgo) as (s1 & Hrun & Hwf1 & Hset).
  destruct (loadFrames_settled env indices s1 Hwf1 Hset) as (s2 & Hrun2 & Hcalls).
  exists s1, s2. auto.
Qed.

(* ===================================================================== *)
(** ** Rounding is monotone *)
(* ===================================================================== *)

Section RoundingMonotone.
Local Open Scope Q_scope.

Lemma pow2_nonneg_exp k : (0 <= k)%Z -> pow2 k == inject_Z (2 ^ k).
Proof. intros Hk. unfold pow2. rewrite Zpower_Qpower by exact Hk. reflexivity. Qed.

Lemma pow2_add a b : pow2 (a + b) == pow2 a * pow2 b.
Proof. unfold pow2. apply Qpower_plus. discriminate. Qed.

Lemma pow2_le a b : (a <= b)%Z -> pow2 a <= pow2 b.
Proof.
  intros H. replace b with (a + (b - a))%Z by lia. rewrite pow2_add.
  rewrite <- (Qmult_1_r (pow2 a)) at 1.
  apply Qmult_le_l; [apply pow2_pos|].
  rewrite pow2_nonneg_exp by lia. change 1 with (inject_Z 1). rewrite <- Zle_Qle.
  pose proof (Z.pow_pos_nonneg 2 (b - a)). lia.
Qed.

Lemma pow2_lt_inv a b : pow2 a < pow2 b -> (a < b)%Z.
Proof.
  intros H. destruct (Z_lt_dec a b) as [|Hge]; [assumption|].
  assert (pow2 b <= pow2 a) by (apply pow2_le; lia). lra.
Qed.


Lemma Qabs_of_pos x : 0 < x -> Qabs x = x.
Proof.
  destruct x as [[|p|p] d]; intros H; [inversion H|reflexivity|inversion H].
Qed.

Lemma ilog2_spec x : 0 < x -> pow2 (ilog2 x) <= x /\ x < pow2 (ilog2 x + 1).
Proof.
  intros Hx. unfold ilog2. rewrite (Qabs_of_pos x Hx).
  destruct (Qle_bool 1 x) eqn:E.
  - apply Qle_bool_iff in E.
    assert (Hf : (1 <= Qfloor x)%Z).
    { change 1%Z with (Qfloor 1). apply Qfloor_resp_le. exact E. }
    destruct (Z.log2_spec (Qfloor x)) as [Hlo Hhi]; [lia|].
    pose proof (Z.log2_nonneg (Qfloor x)) as Hnn.
    pose proof (Qfloor_le x) as Hfl. pose proof (Qlt_floor x) as Hlt.
    rewrite !pow2_nonneg_exp by lia. split.
    + apply Qle_trans with (inject_Z (Qfloor x)); [|exact Hfl].
      rewrite <- Zle_Qle. exact Hlo.
    + apply Qlt_le_trans with (inject_Z (Qfloor x + 1)); [exact Hlt|].
      rewrite <- Zle_Qle. replace (Z.log2 (Qfloor x) + 1)%Z with (Z.succ (Z.log2 (Qfloor x))) by lia.
      lia.
  - assert (Hlt1 : x < 1).
    { apply Qnot_le_lt. intros H. apply Qle_bool_iff in H. congruence. }
    assert (Hinv : 1 < / x).
    { apply Qlt_shift_inv_l; [exact Hx|]. lra. }
    pose proof (Qle_ceiling (/ x)) as Hc. pose proof (Qceiling_lt (/ x)) as Hc'.
    set (c := Qceiling (/ x)) in *.
    assert (Hc2 : (1 < c)%Z).
    { rewrite Zlt_Qlt. change (inject_Z 1) with 1. lra. }
    destruct (Z.log2_up_spec c Hc2) as [Hlo Hhi].
    pose proof (Z.log2_up_nonneg c) as Hnn.
    set (m := Z.log2_up c) in *.
    assert (Hm : (1 <= m)%Z).
    { destruct (Z_le_dec 1 m); [assumption|].
      assert (m = 0%Z) as Hm0 by lia. rewrite Hm0 in Hhi. cbn in Hhi. lia. }
    assert (Hinvx : 0 < / x) by (apply Qinv_lt_0_compat; exact Hx).
    split.
    + unfold pow2. rewrite Qpower_opp. fold (pow2 m). rewrite pow2_nonneg_exp by lia.
      apply Qle_shift_inv_r.
      * rewrite <- (Zlt_Qlt 0). pose proof (Z.pow_pos_nonneg 2 m). lia.
      * assert (Hle : / x <= inject_Z (2 ^ m)).
        { apply Qle_trans with (inject_Z c); [exact Hc|]. rewrite <- Zle_Qle. exact Hhi. }
        assert (Hone : / x * x == 1) by (field; lra).
        rewrite <- Hone. rewrite (Qmult_comm x).
        apply Qmult_le_compat_r; [exact Hle|lra].
    + replace (- m + 1)%Z with (- (m - 1))%Z by lia.
      unfold pow2. rewrite Qpower_opp. fold (pow2 (m - 1)). rewrite pow2_nonneg_exp by lia.
      assert (Hpos : 0 < inject_Z (2 ^ (m - 1))).
      { rewrite <- (Zlt_Qlt 0). pose proof (Z.pow_pos_nonneg 2 (m - 1)). lia. }
      apply Qlt_shift_inv_l; [exact Hpos|].
      assert (Hgt : inject_Z (2 ^ (m - 1)) < / x).
      { apply Qle_lt_trans with (inject_Z (c - 1)); [|exact Hc'].
        rewrite <- Zle_Qle. replace (m - 1)%Z with (Z.pred m) by lia. lia. }
      assert (Hone : / x * x == 1) by (field; lra).
      rewrite <- Hone. rewrite (Qmult_comm x).
      apply Qmult_lt_compat_r; [exact Hx|exact Hgt].
Qed.

Lemma ilog2_mono x y : 0 < x -> x <= y -> (ilog2 x <= ilog2 y)%Z.
Proof.
  intros Hx Hxy.
  destruct (ilog2_spec x Hx) as [Hlo _].
  destruct (ilog2_spec y) as [_ Hhi]; [lra|].
  assert (H : pow2 (ilog2 x) < pow2 (ilog2 y + 1)) by lra.
  apply pow2_lt_inv in H. lia.
Qed.

Lemma rne_mono x y : x <= y -> (rne x <= rne y)%Z.
Proof.
  intros Hxy. pose proof (Qfloor_resp_le _ _ Hxy) as Hf.
  destruct (Z_lt_dec (Qfloor x) (Qfloor y)) as [Hlt|Hge].
  - assert (rne x <= Qfloor x + 1)%Z by (destruct (rne_cases x) as [->|[-> _]]; lia).
    assert (Qfloor y <= rne y)%Z by (destruct (rne_cases y) as [->|[-> _]]; lia).
    lia.
  - assert (Heq : Qfloor x = Qfloor y) by lia.
    unfold rne. rewrite Heq.
    destruct (Qcompare_spec (x - inject_Z (Qfloor y)) (1 # 2));
      destruct (Qcompare_spec (y - inject_Z (Qfloor y)) (1 # 2));
      destruct (Z.even (Qfloor y)); first [lia | exfalso; lra].
Qed.


Lemma pow2_multiple a b : (b <= a)%Z -> inject_Z (2 ^ (a - b)) * pow2 b == pow2 a.
Proof.
  intros H. rewrite <- pow2_nonneg_exp by lia. rewrite <- pow2_add.
  replace (a - b + b)%Z with a by lia. reflexivity.
Qed.

Lemma round_to_mono prec emin x y :
  (1 <= prec)%Z -> 0 <= x -> x <= y -> round_to prec emin x <= round_to prec emin y.
Proof.
  intros Hprec Hx Hxy.
  destruct (Qeq_dec x 0) as [Hz|Hnz].
  { rewrite (round_to_zero _ _ _ Hz). apply round_to_nonneg. lra. }
  assert (Hxpos : 0 < x) by lra. assert (Hypos : 0 < y) by lra.
  assert (Hynz : ~ y == 0) by lra.
  pose proof (Qred_correct x) as Hrx. pose proof (Qred_correct y) as Hry.
  assert (Hx' : 0 < Qred x) by lra. assert (Hy' : 0 < Qred y) by lra.
  pose proof (ilog2_mono (Qred x) (Qred y) Hx' ltac:(lra)) as Hlog.
  destruct (ilog2_spec (Qred x) Hx') as [_ Hxhi].
  destruct (ilog2_spec (Qred y) Hy') as [Hylo _].
  set (ex := exponent prec emin (Qred x)). set (ey := exponent prec emin (Qred y)).
  assert (Hexy : (ex <= ey)%Z) by (unfold ex, ey, exponent; lia).
  destruct (Z.eq_dec ex ey) as [Heq|Hne].
  - rewrite (round_to_nonzero prec emin x Hnz), (round_to_nonzero prec emin y Hynz).
    fold ex ey. rewrite <- Heq.
    pose proof (pow2_pos ex) as Hp.
    apply Qmult_le_compat_r; [|lra].
    rewrite <- Zle_Qle. apply rne_mono.
    apply Qmult_le_compat_r; [lra|]. apply Qlt_le_weak, Qinv_lt_0_compat. exact Hp.
  - assert (Hlt : (ex < ey)%Z) by lia.
    assert (Hey : ey = (ilog2 (Qred y) - (prec - 1))%Z) by (unfold ex, ey, exponent in *; lia).
    assert (Hk : (ilog2 (Qred x) + 1 <= ilog2 (Qred y))%Z) by (unfold ex, ey, exponent in *; lia).
    set (k := ilog2 (Qred y)) in *.
    apply Qle_trans with (pow2 k).
    + rewrite <- (pow2_multiple k ex) by lia.
      apply round_to_le_multiple; [exact Hnz|].
      fold ex. rewrite (pow2_multiple k ex) by lia.
      apply Qle_trans with (pow2 (ilog2 (Qred x) + 1)); [lra|]. apply pow2_le. exact Hk.
    + rewrite <- (pow2_multiple k ey) by lia.
      apply round_to_ge_multiple; [exact Hynz|].
      fold ey. rewrite (pow2_multiple k ey) by lia. lra.
Qed.

End RoundingMonotone.

(** X15.  On a sequence of 1 to [2^24] frames the frame index grows with
    the percentage: for two percentages of [0, 1] in order,
    [getFrameIndexAtPercent] is defined at both, changes nothing, and
    returns indices of the sequence in the same order. *)
Theorem getFrameIndexAtPercent_is_monotone s p q :
  1 <= Z.of_nat (length (sequence s)) <= 2 ^ 24 ->
  inUnit p -> inUnit q -> (p <= q)%Q ->
  exists i j,
    getFrameIndexAtPercent p s = Some (i, s) /\
    getFrameIndexAtPercent q s = Some (j, s) /\
    0 <= i /\ i <= j /\ j <= Z.of_nat (length (sequence s)) - 1.
Proof.
  intros Hn Hp Hq Hpq.
  destruct (wrapPercent_spec p) as (p' & Hwp & _ & Hin & _). rewrite (Hin Hp) in Hwp.
  destruct (wrapPercent_spec q) as (q' & Hwq & _ & Hin' & _). rewrite (Hin' Hq) in Hwq.
  destruct (getFrameIndexAtPercent_wrapped s p p Hn Hwp Hp) as [Hrunp Hrp].
  destruct (getFrameIndexAtPercent_wrapped s q q Hn Hwq Hq) as [Hrunq Hrq].
  set (n := Z.of_nat (length (sequence s))) in *.
  exists (frameIndexOf p n), (frameIndexOf q n).
  split; [exact Hrunp|]. split; [exact Hrunq|].
  split; [lia|]. split; [|lia].
  unfold frameIndexOf. apply Z.min_le_compat_r. apply Qfloor_resp_le.
  unfold round32. destruct Hp as [Hp0 _].
  assert (Hn0 : (0 <= inject_Z n)%Q) by (rewrite <- (Zle_Qle 0); lia).
  apply round_to_mono; [lia| |].
  - apply Qmult_le_0_compat; assumption.
  - apply Qmult_le_compat_r; assumption.
Qed.

(* ===================================================================== *)
(** ** The cursor by percentage and by time *)
(* ===================================================================== *)

(** [setFrameAtPercent] on a loaded sequence of up to [2^24] frames, in
    closed form. *)
Lemma setFrameAtPercent_run env s percent :
  Inv s -> loaded s = true -> Z.of_nat (length (sequence s)) <= 2 ^ 24 ->
  let n := Z.of_nat (length (sequence s)) in
  exists p s1,
    wrapPercent percent = Some p /\ (0 <= p <= 1)%Q /\ (inUnit percent -> p = percent) /\
    0 <= frameIndexOf p n < n /\
    loadFrame env (frameIndexOf p n) s = Some (tt, s1) /\
    setFrameAtPercent env percent s = Some (tt, set_currentFrame (frameIndexOf p n) s1).
Proof.
  intros Hinv Hld Hmax n.
  assert (Hn : 1 <= n <= 2 ^ 24).
  { destruct Hinv as (_ & Hl & _). specialize (Hl Hld). unfold n.
    destruct (sequence s); [done|]. cbn [length] in *. lia. }
  destruct (wrapPercent_spec percent) as (p & Hw & Hp & Hin & _).
  destruct (getFrameIndexAtPercent_wrapped s percent p Hn Hw Hp) as [Hrun Hr].
  fold n in Hrun, Hr.
  destruct (setFrame_run env s (frameIndexOf p n) Hinv Hld) as (_ & s1 & Hload & Hset).
  { unfold INT_MAX. lia. }
  fold n in Hload, Hset. rewrite Z.mod_small in Hload, Hset by lia.
  exists p, s1. split_and!.
  - exact Hw.
  - apply Hp.
  - apply Hp.
  - exact Hin.
  - lia.
  - lia.
  - exact Hload.
  - unfold setFrameAtPercent. unfold bind at 1. rewrite Hrun. exact Hset.
Qed.

(** X17.  On a loaded sequence of up to [2^24] frames, [setFrameAtPercent]
    is defined at every percentage and leaves the cursor on a frame of the
    sequence; the percentage 0 gives frame 0 and the percentage 1 the last
    frame.  [setFrameForTime] at a time [t] is [setFrameAtPercent] at the
    quotient of [t] by the duration (the number of frames by the frame
    rate), whenever these two [float] quotients are finite, and so leaves
    the cursor on a frame as well. *)
Theorem setFrameAtPercent_lands_on_a_frame env s :
  Inv s -> loaded s = true -> Z.of_nat (length (sequence s)) <= 2 ^ 24 ->
  let n := Z.of_nat (length (sequence s)) in
  (forall percent, exists s',
     setFrameAtPercent env percent s = Some (tt, s') /\ 0 <= currentFrame s' < n) /\
  (exists s', setFrameAtPercent env 0 s = Some (tt, s') /\ currentFrame s' = 0) /\
  (exists s', setFrameAtPercent env 1 s = Some (tt, s') /\ currentFrame s' = n - 1) /\
  (forall time total percent,
     f32_div (f32_of_size_t n) (frameRate s) = Some total ->
     f32_div time total = Some percent ->
     setFrameForTime env time s = setFrameAtPercent env percent s).
Proof.
  intros Hinv Hld Hmax n.
  assert (Hn : 1 <= n <= 2 ^ 24).
  { destruct Hinv as (_ & Hl & _). specialize (Hl Hld). unfold n.
    destruct (sequence s); [done|]. cbn [length] in *. lia. }
  split_and!.
  - intros percent.
    destruct (setFrameAtPercent_run env s percent Hinv Hld Hmax)
      as (p & s1 & _ & _ & _ & Hr & _ & Hset).
    eexists. split; [exact Hset|]. exact Hr.
  - destruct (setFrameAtPercent_run env s 0 Hinv Hld Hmax)
      as (p & s1 & _ & _ & Hin & _ & _ & Hset).
    rewrite Hin in Hset by (split; discriminate).
    eexists. split; [exact Hset|]. cbn [currentFrame set_currentFrame].
    apply frameIndexOf_zero. fold n. lia.
  - destruct (setFrameAtPercent_run env s 1 Hinv Hld Hmax)
      as (p & s1 & _ & _ & Hin & _ & _ & Hset).
    rewrite Hin in Hset by (split; discriminate).
    eexists. split; [exact Hset|]. cbn [currentFrame set_currentFrame].
    apply frameIndexOf_one. exact Hn.
  - intros time total percent Htotal Hpercent.
    unfold setFrameForTime. unfold bind at 1, get. fold n.
    unfold bind at 1, defined. rewrite Htotal.
    unfold bind at 1, defined. rewrite Hpercent. reflexivity.
Qed.

(* ===================================================================== *)
(** ** Operations that are defined on every object the class builds *)
(* ===================================================================== *)

Lemma preloadFrames_defined env n : forall i s,
  wf s -> (i + n = length (sequence s))%nat ->
  exists s', preloadFrames env n i s = Some (tt, s').
Proof.
  induction n as [|n IH]; intros i s Hwf Hlen; [eexists; reflexivity|].
  cbn [preloadFrames]. unfold bind at 1.
  destruct (willContinue s) eqn:Hgo.
  - destruct (wf_lookup s i Hwf) as (pix & failed & path & Hs & Hf & Hp); [lia|].
    rewrite (preloadFrame_go env i s pix failed path) by auto.
    pose proof (keeps_preloadOne env i path s) as Hk.
    apply IH; [eapply wf_keeps; eauto|]. destruct Hk as (-> & _). lia.
  - rewrite preloadFrame_stop by exact Hgo. eexists; reflexivity.
Qed.

Lemma preloadAllFrames_defined env s :
  wf s -> exists s', preloadAllFrames env s = Some (tt, s').
Proof.
  intros Hwf. unfold preloadAllFrames. unfold bind at 1, get.
  destruct (length (sequence s) =? 0)%nat; [eexists; reflexivity|].
  apply preloadFrames_defined; [exact Hwf|lia].
Qed.

(** [completeLoading] on a sequence with a frame is defined and sets
    [loaded]. *)
Lemma completeLoading_run env s :
  wf s -> sequence s <> [] ->
  exists s', completeLoading env s = Some (tt, s') /\ loaded s' = true /\
    length (sequence s') = length (sequence s).
Proof.
  intros Hwf Hne. unfold completeLoading. unfold bind at 1, get.
  destruct (Nat.eqb_spec (length (sequence s)) 0) as [Hz|Hnz].
  { apply nil_length_inv in Hz. contradiction. }
  unfold bind at 1, modify. unfold bind at 1, modify.
  assert (Hwf2 : wf (set_lastFrameLoaded (-1) (set_loaded true s))) by exact Hwf.
  destruct (loadFrame_defined env _ 0 Hwf2) as [s2 Hload].
  unfold bind at 1. rewrite Hload.
  pose proof (stable_loadFrame env 0 _ _ _ Hload) as (Hlen & _ & _ & Hld & _).
  cbn in Hlen, Hld. clear Hload Hwf2.
  unfold bind at 1, get.
  destruct (sequence s2) as [|first rest] eqn:Hs2; [cbn in Hlen; lia|].
  unfold bind at 1, at_index, defined. cbn [lookup list_lookup].
  eexists. split; [reflexivity|]. cbn. rewrite Hs2. split; [exact Hld|exact Hlen].
Qed.

Lemma completeLoading_defined env s :
  wf s -> exists s', completeLoading env s = Some (tt, s').
Proof.
  intros Hwf. destruct (sequence s) as [|first rest] eqn:Hseq.
  - unfold completeLoading. unfold bind at 1, get. rewrite Hseq. eexists; reflexivity.
  - destruct (completeLoading_run env s Hwf) as (s' & Hrun & _); [rewrite Hseq; discriminate|].
    eauto.
Qed.

Lemma loadSequenceFolder_defined T env folder s :
  wf s -> exists b s', loadSequenceFolder T env folder s = Some (b, s').
Proof.
  intros Hwf. destruct (unloadSequence_defined T env s Hwf) as (s1 & Hun & _).
  unfold loadSequenceFolder. unfold bind at 1. rewrite Hun. clear Hun.
  pose proof (wf_reset s1) as Hwf0. generalize dependent (reset s1). intros s0 Hwf0.
  unfold bind at 1, modify. unfold bind at 1, get.
  assert (Hwf2 : wf (set_folderToLoad folder s0)) by exact Hwf0.
  generalize dependent (set_folderToLoad folder s0). intros s2 Hwf2.
  destruct (useThread s2); [eexists _, _; reflexivity|].
  destruct (preloadAllFilenames_defined T env s2) as (found & s3 & Hfound & _).
  unfold bind at 1. rewrite Hfound.
  destruct found; [|eexists _, _; reflexivity].
  assert (Hwf3 : wf s3).
  { eapply wf_keeps; [exact Hwf2|]. eapply stable_preloadAllFilenames; eauto. }
  destruct (completeLoading_defined env s3 Hwf3) as (s4 & Hdone).
  unfold bind at 1. rewrite Hdone. eexists _, _; reflexivity.
Qed.

Lemma getFilePath_defined index s : exists path s', getFilePath index s = Some (path, s').
Proof.
  unfold getFilePath. unfold bind at 1, get.
  destruct (Z.gtb_spec index 0); cbn [andb]; [|eexists _, _; reflexivity].
  destruct (Z.ltb_spec index (Z.of_nat (length (filenames s)))); [|eexists _, _; reflexivity].
  destruct (lookup_lt_is_Some_2 (filenames s) (Z.to_nat index)) as [path Hp]; [lia|].
  unfold at_index, defined. rewrite Hp. eexists _, _; reflexivity.
Qed.


(* ===================================================================== *)
(** ** The cursor stays on the sequence *)
(* ===================================================================== *)

#[local] Instance cursorKept_preorder : PreOrder cursorKept.
Proof.
  split.
  - intros s. split; reflexivity.
  - intros a b c [H1 H2] [G1 G2]. split; congruence.
Qed.

Ltac cursor_tac := unfold cursorKept; cbn; rewrite ?length_insert; split; reflexivity.

Lemma cursor_ofLogError a b : stable cursorKept (ofLogError a b).
Proof. apply stable_modify. intros s. cursor_tac. Qed.
#[local] Hint Resolve cursor_ofLogError : stable.

Lemma cursor_ofLoadImage env i : stable cursorKept (ofLoadImage env i).
Proof. unfold ofLoadImage. stable_auto; cursor_tac. Qed.
#[local] Hint Resolve cursor_ofLoadImage : stable.

Lemma cursor_markFailed i : stable cursorKept (markFailed i).
Proof. unfold markFailed. stable_auto. cursor_tac. Qed.
#[local] Hint Resolve cursor_markFailed : stable.

Lemma cursor_loadFrame env idx : stable cursorKept (loadFrame env idx).
Proof. unfold loadFrame, textureLoadData. stable_auto; cursor_tac. Qed.
#[local] Hint Resolve cursor_loadFrame : stable.

Lemma cursor_preloadFrame env i : stable cursorKept (preloadFrame env i).
Proof. unfold preloadFrame. stable_auto; cursor_tac. Qed.
#[local] Hint Resolve cursor_preloadFrame : stable.

Lemma cursor_preloadFrames env n : forall i, stable cursorKept (preloadFrames env n i).
Proof. induction n; intros i; cbn [preloadFrames]; stable_auto. Qed.
#[local] Hint Resolve cursor_preloadFrames : stable.

Lemma cursor_preloadAllFrames env : stable cursorKept (preloadAllFrames env).
Proof. unfold preloadAllFrames. stable_auto. Qed.
#[local] Hint Resolve cursor_preloadAllFrames : stable.

Lemma cursor_pushPaths T paths : stable cursorKept (pushPaths T paths).
Proof.
  intros s b s'. destruct paths as [|path rest].
  - rewrite pushPaths_nil. intros [= <- <-]. reflexivity.
  - rewrite pushPaths_cons. intros [= <- <-]. cursor_tac.
Qed.
#[local] Hint Resolve cursor_pushPaths : stable.

Lemma cursor_preloadAllFilenames T env : stable cursorKept (preloadAllFilenames T env).
Proof. unfold preloadAllFilenames. stable_auto. Qed.
#[local] Hint Resolve cursor_preloadAllFilenames : stable.

Lemma cursor_completeLoading env : stable cursorKept (completeLoading env).
Proof. unfold completeLoading. stable_auto; cursor_tac. Qed.
#[local] Hint Resolve cursor_completeLoading : stable.

Lemma cursor_setLoader f : stable cursorKept (setLoader f).
Proof. unfold setLoader. stable_auto. cursor_tac. Qed.
#[local] Hint Resolve cursor_setLoader : stable.

Lemma cursor_workerReturn : stable cursorKept workerReturn.
Proof. unfold workerReturn. stable_auto. Qed.
#[local] Hint Resolve cursor_workerReturn : stable.

Lemma cursor_workerStep T env : stable cursorKept (workerStep T env).
Proof. unfold workerStep. stable_auto. Qed.
#[local] Hint Resolve cursor_workerStep : stable.

Lemma cursor_workerSteps T env n : stable cursorKept (workerSteps T env n).
Proof. induction n; cbn [workerSteps]; stable_auto. Qed.
#[local] Hint Resolve cursor_workerSteps : stable.

Lemma cursor_waitForThread T env : stable cursorKept (waitForThread T env).
Proof. unfold waitForThread. stable_auto. Qed.
#[local] Hint Resolve cursor_waitForThread : stable.

Lemma cursor_cancel T env : stable cursorKept (cancel T env).
Proof. unfold cancel. stable_auto. Qed.
#[local] Hint Resolve cursor_cancel : stable.

Lemma cursor_deleteLoader T env : stable cursorKept (deleteLoader T env).
Proof. unfold deleteLoader. stable_auto. cursor_tac. Qed.
#[local] Hint Resolve cursor_deleteLoader : stable.

Lemma cursor_cancelLoad T env : stable cursorKept (cancelLoad T env).
Proof. unfold cancelLoad. stable_auto. Qed.

Lemma cursor_updateThreadedLoad env : stable cursorKept (updateThreadedLoad env).
Proof. unfold updateThreadedLoad. stable_auto. Qed.

Lemma cursorOnFrame_kept s s' : cursorKept s s' -> cursorOnFrame s -> cursorOnFrame s'.
Proof. intros [Hc Hl]. unfold cursorOnFrame. rewrite Hc, Hl. auto. Qed.

(** [setFrame] leaves the cursor on the sequence. *)
Lemma cursor_setFrame env index s s' :
  Inv s -> cursorOnFrame s -> setFrame env index s = Some (tt, s') -> cursorOnFrame s'.
Proof.
  intros (Hwf & _ & Hn) Hc Hrun. unfold setFrame in Hrun. unfold bind at 1, get in Hrun.
  destruct (loaded s); cbn [negb] in Hrun.
  2:{ unfold ofLogError, modify in Hrun. injection Hrun as <-. exact Hc. }
  destruct (Z.ltb_spec index 0).
  { unfold ofLogError, modify in Hrun. injection Hrun as <-. exact Hc. }
  apply bind_Some in Hrun as (r & s0 & Hr & Hrun).
  apply defined_Some in Hr as [Hr ->].
  unfold int_rem in Hr. rewrite getTotalFrames_length in Hr by exact Hn.
  destruct (Z.eqb_spec (Z.of_nat (length (sequence s))) 0); [discriminate|].
  unfold int_checked in Hr. destruct (in_int _); [|discriminate]. injection Hr as <-.
  apply bind_Some in Hrun as ([] & s1 & Hload & Hrun).
  unfold modify in Hrun. injection Hrun as <-.
  pose proof (cursor_loadFrame env _ s tt s1 Hload) as [_ Hlen].
  pose proof (Z.rem_bound_pos index (Z.of_nat (length (sequence s)))).
  unfold cursorOnFrame. cbn. rewrite Hlen. lia.
Qed.

Lemma getFrameIndexAtPercent_pure percent s i s' :
  getFrameIndexAtPercent percent s = Some (i, s') -> s' = s.
Proof.
  unfold getFrameIndexAtPercent. unfold bind at 1, get.
  intros (p & s1 & Hp & Hrun)%bind_Some. apply defined_Some in Hp as [_ ->].
  apply bind_Some in Hrun as (x & s1 & Hx & Hrun). apply defined_Some in Hx as [_ ->].
  apply bind_Some in Hrun as (y & s1 & Hy & Hrun). apply defined_Some in Hy as [_ ->].
  injection Hrun as _ <-. reflexivity.
Qed.

Lemma cursor_setFrameAtPercent env percent s s' :
  Inv s -> cursorOnFrame s -> setFrameAtPercent env percent s = Some (tt, s') ->
  cursorOnFrame s'.
Proof.
  intros Hinv Hc Hrun. unfold setFrameAtPercent in Hrun.
  apply bind_Some in Hrun as (i & s1 & Hi & Hrun).
  apply getFrameIndexAtPercent_pure in Hi as ->.
  eapply cursor_setFrame; eauto.
Qed.

Lemma cursor_setFrameForTime env time s s' :
  Inv s -> cursorOnFrame s -> setFrameForTime env time s = Some (tt, s') ->
  cursorOnFrame s'.
Proof.
  intros Hinv Hc Hrun. unfold setFrameForTime in Hrun. unfold bind at 1, get in Hrun.
  apply bind_Some in Hrun as (x & s1 & Hx & Hrun). apply defined_Some in Hx as [_ ->].
  apply bind_Some in Hrun as (y & s1 & Hy & Hrun). apply defined_Some in Hy as [_ ->].
  eapply cursor_setFrameAtPercent; eauto.
Qed.

(** After a load or an unload the cursor is 0. *)
Lemma cursor_unloadSequence T env s s' :
  wf s -> unloadSequence T env s = Some (tt, s') -> currentFrame s' = 0.
Proof.
  intros Hwf Hrun. destruct (unloadSequence_defined T env s Hwf) as (s1 & Heq & _).
  rewrite Heq in Hrun. injection Hrun as <-. reflexivity.
Qed.

Lemma cursor_loadSequence T env prefix filetype a b n s r s' :
  wf s -> loadSequence T env prefix filetype a b n s = Some (r, s') -> currentFrame s' = 0.
Proof.
  intros Hwf Hrun.
  destruct (unloadSequence_defined T env s Hwf) as (s1 & Heq & _).
  unfold loadSequence in Hrun. unfold bind at 1 in Hrun. rewrite Heq in Hrun.
  assert (Hc0 : currentFrame (reset s1) = 0) by reflexivity.
  clear Heq. generalize dependent (reset s1). intros s0 Hrun Hc0.
  apply bind_Some in Hrun as (d & s2 & Hd & Hrun).
  apply defined_Some in Hd as [Hd ->].
  apply bind_Some in Hrun as (numFiles & s2 & Hd' & Hrun).
  apply defined_Some in Hd' as [Hd' ->].
  destruct (numFiles <=? 0).
  - unfold bind, ofLogError, modify, ret in Hrun. injection Hrun as <- <-. exact Hc0.
  - apply bind_Some in Hrun as (ok & s2 & Hloop & Hrun).
    apply loadRange_Some in Hloop as (-> & names & -> & _ & _).
    assert (Hc2 : currentFrame (pushed names s0) = 0) by exact Hc0.
    generalize dependent (pushed names s0). intros s2 Hrun Hc2.
    unfold bind at 1, modify in Hrun. unfold bind at 1, modify in Hrun.
    apply bind_Some in Hrun as ([] & s3 & Hload & Hrun).
    apply cursor_loadFrame in Hload as [Hc3 _]. cbn in Hc3.
    unfold bind at 1, get in Hrun.
    apply bind_Some in Hrun as (first & s4 & Hfirst & Hrun).
    apply at_index_Some in Hfirst as [Hfirst ->].
    unfold bind, modify, ret in Hrun. injection Hrun as <- <-. cbn. congruence.
Qed.

Lemma cursor_loadSequenceFolder T env folder s r s' :
  wf s -> loadSequenceFolder T env folder s = Some (r, s') -> currentFrame s' = 0.
Proof.
  intros Hwf Hrun.
  destruct (unloadSequence_defined T env s Hwf) as (s1 & Heq & _).
  unfold loadSequenceFolder in Hrun. unfold bind at 1 in Hrun. rewrite Heq in Hrun.
  assert (Hc0 : currentFrame (reset s1) = 0) by reflexivity.
  clear Heq. generalize dependent (reset s1). intros s0 Hrun Hc0.
  unfold bind at 1, modify in Hrun. unfold bind at 1, get in Hrun.
  assert (Hc2 : currentFrame (set_folderToLoad folder s0) = 0) by exact Hc0.
  generalize dependent (set_folderToLoad folder s0). intros s2 Hrun Hc2.
  destruct (useThread s2).
  - unfold bind, modify, ret in Hrun. injection Hrun as <- <-. exact Hc2.
  - apply bind_Some in Hrun as (found & s3 & Hfound & Hrun).
    apply cursor_preloadAllFilenames in Hfound as [Hc3 _].
    destruct found.
    + apply bind_Some in Hrun as ([] & s4 & Hdone & Hrun).
      injection Hrun as <- <-. apply cursor_completeLoading in Hdone as [Hc4 _]. congruence.
    + injection Hrun as <- <-. congruence.
Qed.

Lemma cursorOnFrame_zero s : currentFrame s = 0 -> cursorOnFrame s.
Proof. intros H. unfold cursorOnFrame. rewrite H. split; [lia|right; reflexivity]. Qed.

Lemma reachable_cursorOnFrame T env s : reachable T env s -> cursorOnFrame s.
Proof.
  induction 1 as [|c s s' Hreach IH Hcall]; [apply cursorOnFrame_zero; reflexivity|].
  pose proof (reachable_Inv T env s Hreach) as Hinv. pose proof Hinv as (Hwf & _).
  assert (Hkept : forall m : M unit, stable cursorKept m -> m s = Some (tt, s') ->
            cursorOnFrame s').
  { intros m Hm Hrun. eapply cursorOnFrame_kept; [eapply Hm; eauto|exact IH]. }
  destruct c; cbn [call] in Hcall;
    try (unfold discard in Hcall; apply bind_Some in Hcall as (x & s1 & Hcall & Hret);
         injection Hret as <-).
  - eapply Hkept; [|exact Hcall]. unfold setExtension. stable_auto. cursor_tac.
  - eapply Hkept; [|exact Hcall]. unfold setMaxFrames. stable_auto; cursor_tac.
  - eapply Hkept; [|exact Hcall]. unfold enableThreadedLoad. stable_auto; cursor_tac.
  - apply cursorOnFrame_zero. unfold loadSequence4 in Hcall.
    eapply cursor_loadSequence; eauto.
  - apply cursorOnFrame_zero. eapply cursor_loadSequence; eauto.
  - apply cursorOnFrame_zero. eapply cursor_loadSequenceFolder; eauto.
  - eapply Hkept; [apply cursor_cancelLoad|exact Hcall].
  - eapply Hkept; [apply cursor_preloadAllFrames|exact Hcall].
  - apply cursorOnFrame_zero. eapply cursor_unloadSequence; eauto.
  - eapply Hkept; [|exact Hcall]. unfold setFrameRate. stable_auto. cursor_tac.
  - unfold getTextureForFrame in Hcall.
    apply bind_Some in Hcall as ([] & s2 & Hset & Hget). injection Hget as _ <-.
    eapply cursor_setFrame; eauto.
  - unfold getTextureForTime in Hcall.
    apply bind_Some in Hcall as ([] & s2 & Hset & Hget). injection Hget as _ <-.
    eapply cursor_setFrameForTime; eauto.
  - unfold getTextureForPercent in Hcall.
    apply bind_Some in Hcall as ([] & s2 & Hset & Hget). injection Hget as _ <-.
    eapply cursor_setFrameAtPercent; eauto.
  - unfold getPixelsForFrame in Hcall.
    apply bind_Some in Hcall as ([] & s2 & Hset & Hget).
    assert (s1 = s2) as ->.
    { unfold pixelsAtLastFrame in Hget. unfold bind at 1, get in Hget.
      destruct (lastFrameLoaded s2 <? 0); [discriminate|].
      apply at_index_Some in Hget as [_ ->]. reflexivity. }
    eapply cursor_setFrame; eauto.
  - unfold getPixelsForTime in Hcall.
    apply bind_Some in Hcall as ([] & s2 & Hset & Hget).
    assert (s1 = s2) as ->.
    { unfold pixelsAtLastFrame in Hget. unfold bind at 1, get in Hget.
      destruct (lastFrameLoaded s2 <? 0); [discriminate|].
      apply at_index_Some in Hget as [_ ->]. reflexivity. }
    eapply cursor_setFrameForTime; eauto.
  - unfold getPixelsForPercent in Hcall.
    apply bind_Some in Hcall as ([] & s2 & Hset & Hget).
    assert (s1 = s2) as ->.
    { unfold pixelsAtLastFrame in Hget. unfold bind at 1, get in Hget.
      destruct (lastFrameLoaded s2 <? 0); [discriminate|].
      apply at_index_Some in Hget as [_ ->]. reflexivity. }
    eapply cursor_setFrameAtPercent; eauto.
  - eapply cursor_setFrame; eauto.
  - eapply cursor_setFrameForTime; eauto.
  - eapply cursor_setFrameAtPercent; eauto.
  - eapply (cursorOnFrame_kept s); [|exact IH].
    assert (Hst : stable cursorKept (getFilePath index)) by (unfold getFilePath; stable_auto).
    eapply Hst; eauto.
  - eapply Hkept; [apply cursor_loadFrame|exact Hcall].
  - unfold modify in Hcall. injection Hcall as _ <-.
    eapply cursorOnFrame_kept; [|exact IH]. cursor_tac.
  - eapply Hkept; [apply cursor_completeLoading|exact Hcall].
  - eapply (cursorOnFrame_kept s); [|exact IH].
    eapply cursor_preloadAllFilenames; eauto.
  - eapply Hkept; [apply cursor_workerStep|exact Hcall].
  - eapply Hkept; [apply cursor_updateThreadedLoad|exact Hcall].
Qed.

(** X20.  In every state the object reaches through its operations the
    cursor [currentFrame] is the index of a frame of the sequence, and 0
    when the sequence is empty: no operation leaves it negative or past
    the last frame. *)
Theorem cursor_stays_on_the_sequence T env s :
  reachable T env s ->
  0 <= currentFrame s /\
  (sequence s = [] -> currentFrame s = 0) /\
  (sequence s <> [] -> currentFrame s < Z.of_nat (length (sequence s))).
Proof.
  intros Hreach. destruct (reachable_cursorOnFrame T env s Hreach) as [H0 Hc].
  split; [exact H0|]. split.
  - intros Hnil. rewrite Hnil in Hc. cbn in Hc. lia.
  - intros Hne. destruct (sequence s); [done|]. cbn [length] in *. lia.
Qed.

(* ===================================================================== *)
(** ** An object with a loader has no frame *)
(* ===================================================================== *)

#[local] Instance loaderKept_preorder : PreOrder loaderKept.
Proof.
  split.
  - intros s. split_and!; [tauto|reflexivity|tauto].
  - intros a b c (H1 & H2 & H3) (G1 & G2 & G3). split_and!; [tauto|congruence|].
    intros Hc. destruct (G3 Hc) as [Hb|Hb]; [exact (H3 Hb)|].
    right. intros Ha. apply Hb. destruct (sequence b); [done|].
    rewrite Ha in H2. discriminate.
Qed.

Ltac loader_tac :=
  unfold loaderKept; cbn; rewrite ?length_insert;
  split_and!; [ first [tauto | intros [? ?]; discriminate] | reflexivity | tauto ].

Lemma kept_ofLogError a b : stable loaderKept (ofLogError a b).
Proof. apply stable_modify. intros s. loader_tac. Qed.
#[local] Hint Resolve kept_ofLogError : stable.

Lemma kept_ofLoadImage env i : stable loaderKept (ofLoadImage env i).
Proof. unfold ofLoadImage. stable_auto; loader_tac. Qed.
#[local] Hint Resolve kept_ofLoadImage : stable.

Lemma kept_markFailed i : stable loaderKept (markFailed i).
Proof. unfold markFailed. stable_auto. loader_tac. Qed.
#[local] Hint Resolve kept_markFailed : stable.

Lemma kept_loadFrame env idx : stable loaderKept (loadFrame env idx).
Proof. unfold loadFrame, textureLoadData. stable_auto; loader_tac. Qed.
#[local] Hint Resolve kept_loadFrame : stable.

Lemma kept_preloadFrame env i : stable loaderKept (preloadFrame env i).
Proof. unfold preloadFrame. stable_auto; loader_tac. Qed.
#[local] Hint Resolve kept_preloadFrame : stable.

Lemma kept_preloadFrames env n : forall i, stable loaderKept (preloadFrames env n i).
Proof. induction n; intros i; cbn [preloadFrames]; stable_auto. Qed.
#[local] Hint Resolve kept_preloadFrames : stable.

Lemma kept_preloadAllFrames env : stable loaderKept (preloadAllFrames env).
Proof. unfold preloadAllFrames. stable_auto. Qed.
#[local] Hint Resolve kept_preloadAllFrames : stable.

(** The listing of a folder pushes names and no frame. *)
Lemma kept_pushPaths T paths : stable loaderKept (pushPaths T paths).
Proof.
  intros s b s'. destruct paths as [|path rest].
  - rewrite pushPaths_nil. intros [= <- <-]. reflexivity.
  - rewrite pushPaths_cons. intros [= <- <-]. loader_tac.
Qed.
#[local] Hint Resolve kept_pushPaths : stable.

Lemma kept_preloadAllFilenames T env : stable loaderKept (preloadAllFilenames T env).
Proof. unfold preloadAllFilenames. stable_auto. Qed.
#[local] Hint Resolve kept_preloadAllFilenames : stable.

(** [completeLoading] sets [loaded] on a sequence with a frame only. *)
Lemma kept_completeLoading env : stable loaderKept (completeLoading env).
Proof.
  intros s a s' Hrun. unfold completeLoading in Hrun. unfold bind at 1, get in Hrun.
  destruct (Nat.eqb_spec (length (sequence s)) 0) as [Hz|Hnz].
  { eapply kept_ofLogError; eauto. }
  unfold bind at 1, modify in Hrun. unfold bind at 1, modify in Hrun.
  apply bind_Some in Hrun as ([] & s1 & Hload & Hrun).
  apply kept_loadFrame in Hload as (Hl1 & Hn1 & _). cbn in Hl1, Hn1.
  unfold bind at 1, get in Hrun.
  apply bind_Some in Hrun as (first & s2 & Hfirst & Hrun).
  apply at_index_Some in Hfirst as [_ ->].
  unfold bind, modify in Hrun. injection Hrun as _ <-.
  unfold loaderKept. cbn. split_and!; [exact Hl1|exact Hn1|].
  intros _. right. intros Hnil. rewrite Hnil in Hnz. done.
Qed.
#[local] Hint Resolve kept_completeLoading : stable.

Lemma kept_setLoader f : stable loaderKept (setLoader f).
Proof.
  intros s a s' Hrun. unfold setLoader in Hrun. unfold bind, get in Hrun.
  destruct (threadLoader s) as [l|] eqn:Hl; [|discriminate].
  unfold modify in Hrun. injection Hrun as _ <-.
  unfold loaderKept. cbn. rewrite Hl. split_and!; [done|reflexivity|tauto].
Qed.
#[local] Hint Resolve kept_setLoader : stable.

Lemma kept_workerReturn : stable loaderKept workerReturn.
Proof. unfold workerReturn. stable_auto. Qed.
#[local] Hint Resolve kept_workerReturn : stable.

Lemma kept_workerStep T env : stable loaderKept (workerStep T env).
Proof. unfold workerStep. stable_auto. Qed.
#[local] Hint Resolve kept_workerStep : stable.

Lemma kept_workerSteps T env n : stable loaderKept (workerSteps T env n).
Proof. induction n; cbn [workerSteps]; stable_auto. Qed.
#[local] Hint Resolve kept_workerSteps : stable.

Lemma kept_waitForThread T env : stable loaderKept (waitForThread T env).
Proof. unfold waitForThread. stable_auto. Qed.
#[local] Hint Resolve kept_waitForThread : stable.

Lemma kept_cancel T env : stable loaderKept (cancel T env).
Proof. unfold cancel. stable_auto. Qed.
#[local] Hint Resolve kept_cancel : stable.

Lemma kept_deleteLoader T env : stable loaderKept (deleteLoader T env).
Proof. unfold deleteLoader. stable_auto. loader_tac. Qed.
#[local] Hint Resolve kept_deleteLoader : stable.

Lemma kept_cancelLoad T env : stable loaderKept (cancelLoad T env).
Proof. unfold cancelLoad. stable_auto. Qed.
#[local] Hint Resolve kept_cancelLoad : stable.

Lemma kept_updateThreadedLoad env : stable loaderKept (updateThreadedLoad env).
Proof. unfold updateThreadedLoad. stable_auto. Qed.

Lemma kept_getFilePath index : stable loaderKept (getFilePath index).
Proof. unfold getFilePath. stable_auto. Qed.

Lemma kept_getFrameIndexAtPercent percent : stable loaderKept (getFrameIndexAtPercent percent).
Proof. unfold getFrameIndexAtPercent. stable_auto. Qed.
#[local] Hint Resolve kept_getFrameIndexAtPercent : stable.

Lemma kept_setFrame env index : stable loaderKept (setFrame env index).
Proof. unfold setFrame. stable_auto. loader_tac. Qed.
#[local] Hint Resolve kept_setFrame : stable.

Lemma kept_setFrameAtPercent env percent : stable loaderKept (setFrameAtPercent env percent).
Proof. unfold setFrameAtPercent. stable_auto. Qed.
#[local] Hint Resolve kept_setFrameAtPercent : stable.

Lemma kept_setFrameForTime env time : stable loaderKept (setFrameForTime env time).
Proof. unfold setFrameForTime. stable_auto. Qed.
#[local] Hint Resolve kept_setFrameForTime : stable.

Lemma kept_getTexture : stable loaderKept getTexture.
Proof. unfold getTexture. stable_auto. Qed.
#[local] Hint Resolve kept_getTexture : stable.

Lemma kept_pixelsAtLastFrame : stable loaderKept pixelsAtLastFrame.
Proof. unfold pixelsAtLastFrame. stable_auto. Qed.
#[local] Hint Resolve kept_pixelsAtLastFrame : stable.

Lemma loaderWithoutFrames_kept s s' :
  loaderKept s s' -> loaderWithoutFrames s -> loaderWithoutFrames s'.
Proof.
  intros (Hl & Hn & Hld) Hs Hl'. destruct (Hs (Hl Hl')) as [Hnil Hno].
  split.
  - destruct (sequence s'); [reflexivity|]. rewrite Hnil in Hn. discriminate.
  - destruct (loaded s') eqn:E; [|reflexivity].
    destruct (Hld eq_refl) as [H|H]; [congruence|contradiction].
Qed.

Lemma loaderWithoutFrames_none s : threadLoader s = None -> loaderWithoutFrames s.
Proof. intros H [l Hl]. congruence. Qed.

(** After a load by range the object has no loader. *)
Lemma loadSequence_no_loader T env prefix filetype a b n s r s' :
  wf s -> loadSequence T env prefix filetype a b n s = Some (r, s') ->
  threadLoader s' = None.
Proof.
  intros Hwf Hrun.
  destruct (unloadSequence_defined T env s Hwf) as (s1 & Heq & _ & Hnone & _).
  unfold loadSequence in Hrun. unfold bind at 1 in Hrun. rewrite Heq in Hrun.
  assert (Hc0 : threadLoader (reset s1) = None) by exact Hnone.
  clear Heq. generalize dependent (reset s1). intros s0 Hrun Hc0.
  apply bind_Some in Hrun as (d & s2 & Hd & Hrun).
  apply defined_Some in Hd as [Hd ->].
  apply bind_Some in Hrun as (numFiles & s2 & Hd' & Hrun).
  apply defined_Some in Hd' as [Hd' ->].
  destruct (numFiles <=? 0).
  - unfold bind, ofLogError, modify, ret in Hrun. injection Hrun as <- <-. exact Hc0.
  - apply bind_Some in Hrun as (ok & s2 & Hloop & Hrun).
    apply loadRange_Some in Hloop as (-> & names & -> & _ & _).
    assert (Hc2 : threadLoader (pushed names s0) = None) by exact Hc0.
    generalize dependent (pushed names s0). intros s2 Hrun Hc2.
    unfold bind at 1, modify in Hrun. unfold bind at 1, modify in Hrun.
    apply bind_Some in Hrun as ([] & s3 & Hload & Hrun).
    apply kept_loadFrame in Hload as (Hc3 & _). cbn in Hc3. rewrite Hc2 in Hc3.
    unfold bind at 1, get in Hrun.
    apply bind_Some in Hrun as (first & s4 & Hfirst & Hrun).
    apply at_index_Some in Hfirst as [Hfirst ->].
    unfold bind, modify, ret in Hrun. injection Hrun as <- <-. cbn.
    destruct (threadLoader s3) as [l|]; [|reflexivity].
    destruct Hc3 as [l' Hl']; [done|discriminate].
Qed.

(** A load by folder creates its loader on an object without frames. *)
Lemma loadSequenceFolder_without_frames T env folder s r s' :
  wf s -> loadSequenceFolder T env folder s = Some (r, s') -> loaderWithoutFrames s'.
Proof.
  intros Hwf Hrun.
  destruct (unloadSequence_defined T env s Hwf) as (s1 & Heq & _ & Hnone & _).
  unfold loadSequenceFolder in Hrun. unfold bind at 1 in Hrun. rewrite Heq in Hrun.
  assert (Hc0 : threadLoader (reset s1) = None) by exact Hnone.
  assert (Hs0 : sequence (reset s1) = []) by reflexivity.
  assert (Hl0 : loaded (reset s1) = false) by reflexivity.
  clear Heq. generalize dependent (reset s1). intros s0 Hrun Hc0 Hs0 Hl0.
  unfold bind at 1, modify in Hrun. unfold bind at 1, get in Hrun.
  assert (Hc2 : threadLoader (set_folderToLoad folder s0) = None) by exact Hc0.
  assert (Hs2 : sequence (set_folderToLoad folder s0) = []) by exact Hs0.
  assert (Hl2 : loaded (set_folderToLoad folder s0) = false) by exact Hl0.
  generalize dependent (set_folderToLoad folder s0). intros s2 Hrun Hc2 Hs2 Hl2.
  destruct (useThread s2).
  - unfold bind, modify, ret in Hrun. injection Hrun as <- <-.
    intros _. split; [exact Hs2|exact Hl2].
  - apply bind_Some in Hrun as (found & s3 & Hfound & Hrun).
    apply kept_preloadAllFilenames in Hfound.
    pose proof (loaderWithoutFrames_kept _ _ Hfound (loaderWithoutFrames_none s2 Hc2)) as H3.
    destruct found.
    + apply bind_Some in Hrun as ([] & s4 & Hdone & Hrun).
      injection Hrun as <- <-. apply kept_completeLoading in Hdone.
      eapply loaderWithoutFrames_kept; eauto.
    + injection Hrun as <- <-. exact H3.
Qed.

(** Every state the object can be in: a loader, no frame. *)
Lemma reachable_loaderWithoutFrames T env s : reachable T env s -> loaderWithoutFrames s.
Proof.
  induction 1 as [|c s s' Hreach IH Hcall];
    [apply loaderWithoutFrames_none; reflexivity|].
  pose proof (reachable_Inv T env s Hreach) as (Hwf & _).
  assert (Hkept : forall (m : M unit), stable loaderKept m -> m s = Some (tt, s') ->
            loaderWithoutFrames s').
  { intros m Hm Hrun. eapply loaderWithoutFrames_kept; [eapply Hm; eauto|exact IH]. }
  assert (Hdiscard : forall A (m : M A), stable loaderKept m ->
            discard m s = Some (tt, s') -> loaderWithoutFrames s').
  { intros A m Hm Hrun. eapply loaderWithoutFrames_kept; [|exact IH].
    eapply (stable_discard loaderKept m Hm); eauto. }
  destruct c; cbn [call] in Hcall.
  - eapply Hkept; [|exact Hcall]. unfold setExtension. stable_auto. loader_tac.
  - eapply Hkept; [|exact Hcall]. unfold setMaxFrames. stable_auto; loader_tac.
  - eapply Hkept; [|exact Hcall]. unfold enableThreadedLoad. stable_auto; loader_tac.
  - unfold discard, loadSequence4 in Hcall.
    apply bind_Some in Hcall as (x & s1 & Hcall & [= <-]).
    apply loaderWithoutFrames_none. eapply loadSequence_no_loader; eauto.
  - unfold discard in Hcall.
    apply bind_Some in Hcall as (x & s1 & Hcall & [= <-]).
    apply loaderWithoutFrames_none. eapply loadSequence_no_loader; eauto.
  - unfold discard in Hcall.
    apply bind_Some in Hcall as (x & s1 & Hcall & [= <-]).
    eapply loadSequenceFolder_without_frames; eauto.
  - eapply Hkept; [apply kept_cancelLoad|exact Hcall].
  - eapply Hkept; [apply kept_preloadAllFrames|exact Hcall].
  - destruct (unloadSequence_defined T env s Hwf) as (s1 & Heq & _ & Hnone & _).
    rewrite Heq in Hcall. injection Hcall as <-.
    apply loaderWithoutFrames_none. exact Hnone.
  - eapply Hkept; [|exact Hcall]. unfold setFrameRate. stable_auto. loader_tac.
  - eapply Hdiscard; [|exact Hcall]. unfold getTextureForFrame. stable_auto.
  - eapply Hdiscard; [|exact Hcall]. unfold getTextureForTime. stable_auto.
  - eapply Hdiscard; [|exact Hcall]. unfold getTextureForPercent. stable_auto.
  - eapply Hdiscard; [|exact Hcall]. unfold getPixelsForFrame. stable_auto.
  - eapply Hdiscard; [|exact Hcall]. unfold getPixelsForTime. stable_auto.
  - eapply Hdiscard; [|exact Hcall]. unfold getPixelsForPercent. stable_auto.
  - eapply Hkept; [apply kept_setFrame|exact Hcall].
  - eapply Hkept; [apply kept_setFrameForTime|exact Hcall].
  - eapply Hkept; [apply kept_setFrameAtPercent|exact Hcall].
  - eapply Hdiscard; [apply kept_getFilePath|exact Hcall].
  - eapply Hkept; [apply kept_loadFrame|exact Hcall].
  - eapply Hkept; [|exact Hcall]. unfold setMinMagFilter. stable_auto; loader_tac.
  - eapply Hkept; [apply kept_completeLoading|exact Hcall].
  - eapply Hdiscard; [apply kept_preloadAllFilenames|exact Hcall].
  - eapply Hkept; [apply kept_workerStep|exact Hcall].
  - eapply Hkept; [apply kept_updateThreadedLoad|exact Hcall].
Qed.

(** [cancelLoad] is defined on every well-formed object. *)
Lemma cancelLoad_returns T env s : wf s -> exists s', cancelLoad T env s = Some (tt, s').
Proof.
  intros Hwf. unfold cancelLoad. unfold bind at 1, get.
  destruct (useThread s); cbn [andb]; [|eexists; reflexivity].
  destruct (threadLoader s) as [l|] eqn:Hl.
  - rewrite bool_decide_true by done.
    destruct (cancel_run T env s Hwf) as (s1 & Hrun1 & Hwf1 & Hl1 & _); [rewrite Hl; done|].
    destruct (deleteLoader_run T env s1 Hwf1 Hl1) as (s2 & Hrun2 & _).
    unfold bind at 1. rewrite Hrun1, Hrun2. eexists; reflexivity.
  - rewrite bool_decide_false by (intros Hne; apply Hne; reflexivity).
    eexists; reflexivity.
Qed.


(* ===================================================================== *)
(** ** The further properties at concrete objects *)
(* ===================================================================== *)

(** The sequence [img8.png] to [img10.png] satisfies the invariants. *)
Lemma Inv_loadedExample : Inv loadedExample.
Proof. exact (reachable_Inv ofPixels framesDisk loadedExample reachable_loadedExample). Defined.

Lemma Shows_loadedExample : Shows framesDisk loadedExample.
Proof. exact (reachable_Shows ofPixels framesDisk loadedExample reachable_loadedExample). Defined.

(** A threaded load by folder is two operations away from a new object;
    a step of the thread is one more. *)
Lemma reachable_threadedLoad : reachable ofPixels framesDisk threadedLoad.
Proof.
  apply (reachable_call ofPixels framesDisk (CallLoadSequenceFolder "frames")
           (stateAfter (enableThreadedLoad true) fresh)).
  - apply (reachable_call ofPixels framesDisk (CallEnableThreadedLoad true) fresh).
    + apply reachable_new.
    + vm_compute. reflexivity.
  - vm_compute. reflexivity.
Defined.

Lemma reachable_threadReturned : reachable ofPixels framesDisk threadReturned.
Proof.
  apply (reachable_call ofPixels framesDisk WorkerStep threadedLoad).
  - exact reachable_threadedLoad.
  - vm_compute. reflexivity.
Defined.

Lemma wf_threadedLoad : wf threadedLoad.
Proof. split; vm_compute; [reflexivity|lia]. Defined.


(** X1 at four steps of the thread of the threaded load. *)
Lemma loader_thread_leaves_the_display_witness :
  exists s', workerSteps ofPixels framesDisk 4 threadedLoad = Some (tt, s') /\
    texture s' = texture threadedLoad /\ uploads (log s') = uploads (log threadedLoad) /\
    lastFrameLoaded s' = lastFrameLoaded threadedLoad /\
    currentFrame s' = currentFrame threadedLoad /\
    width s' = width threadedLoad /\ height s' = height threadedLoad /\
    loaded s' = loaded threadedLoad.
Proof.
  exact (loader_thread_leaves_the_display ofPixels framesDisk 4 threadedLoad
           wf_threadedLoad).
Defined.

(** X2 at the sequence [img8.png] to [img10.png]. *)
Lemma unloadSequence_returns_to_defaults_witness :
  exists s', unloadSequence ofPixels framesDisk loadedExample = Some (tt, s') /\
    threadLoader s' = None /\
    sequence s' = [] /\ filenames s' = [] /\ loadFailed s' = [] /\
    loaded s' = false /\ width s' = 0%Q /\ height s' = 0%Q /\
    curLoadFrame s' = 0 /\ lastFrameLoaded s' = -1 /\ currentFrame s' = 0 /\
    configuration s' = configuration loadedExample /\
    unloadSequence ofPixels framesDisk s' = Some (tt, s').
Proof.
  exact (unloadSequence_returns_to_defaults ofPixels framesDisk loadedExample
           wf_loadedExample).
Defined.

(** X3 at the threaded load of the folder [frames]. *)
Lemma cancelLoad_releases_the_loader_witness :
  exists s', cancelLoad ofPixels framesDisk threadedLoad = Some (tt, s') /\
    (useThread threadedLoad = true -> threadLoader s' = None /\ isLoading s' = false) /\
    (useThread threadedLoad = false \/ threadLoader threadedLoad = None ->
     s' = threadedLoad) /\
    loaded s' = loaded threadedLoad /\
    length (sequence s') = length (sequence threadedLoad) /\
    texture s' = texture threadedLoad /\
    lastFrameLoaded s' = lastFrameLoaded threadedLoad /\
    currentFrame s' = currentFrame threadedLoad.
Proof.
  exact (cancelLoad_releases_the_loader ofPixels framesDisk threadedLoad wf_threadedLoad).
Defined.

(** X4 at the range 10 to 8, on the loaded sequence. *)
Lemma loadSequence_empty_range_unloads_witness :
  exists s0 s',
    loadSequence ofPixels framesDisk "img" "png" 10 8 0 loadedExample = Some (false, s') /\
    s' = set_log (log s0 ++ [LogError "ofxImageSequence<T>::loadSequence"
                               "No image files found."]) s0 /\
    sequence s' = [] /\ filenames s' = [] /\ loadFailed s' = [] /\
    loaded s' = false /\ threadLoader s' = None /\
    currentFrame s' = 0 /\ lastFrameLoaded s' = -1 /\
    width s' = 0%Q /\ height s' = 0%Q.
Proof.
  apply (loadSequence_empty_range_unloads ofPixels framesDisk loadedExample
           "img" "png" 10 8 0).
  - exact wf_loadedExample.
  - lia.
  - unfold INT_MIN. lia.
Defined.

(** X5 at [img8.png] to [img10.png], on a new object. *)
Lemma loadSequence_decodes_only_frame_zero_witness :
  exists s',
    loadSequence ofPixels framesDisk "img" "png" 8 10 0 fresh = Some (true, s') /\
    loaded s' = true /\
    sequence s' = Some (image 8) :: replicate (Z.to_nat (10 - 8)) None /\
    loadFailed s' = replicate (Z.to_nat (10 - 8 + 1)) false /\
    texture s' = Some (image 8) /\ lastFrameLoaded s' = 0 /\ currentFrame s' = 0 /\
    width s' = f32_of_size_t (imageWidth (image 8)) /\
    height s' = f32_of_size_t (imageHeight (image 8)) /\
    decodeCalls (log s') = S (decodeCalls (log fresh)) /\
    uploads (log s') = S (uploads (log fresh)).
Proof.
  apply (loadSequence_decodes_only_frame_zero ofPixels framesDisk fresh
           "img" "png" 8 10 0 "img8.png" (image 8)).
  - exact wf_fresh.
  - reflexivity.
  - unfold INT_MIN. lia.
  - lia.
  - unfold INT_MAX. lia.
  - unfold INT_MAX. lia.
  - intros i Hi. assert (i = 8 \/ i = 9 \/ i = 10) as [->|[->| ->]] by lia.
    + exists "img8.png". vm_compute. reflexivity.
    + exists "img9.png". vm_compute. reflexivity.
    + exists "img10.png". vm_compute. reflexivity.
  - vm_compute. reflexivity.
  - reflexivity.
Defined.

(** X6 at a folder of a disk without files. *)
Lemma loadSequenceFolder_reports_missing_or_empty_folder_witness :
  exists s0 s',
    loadSequenceFolder ofPixels emptyDisk "frames" fresh = Some (false, s') /\
    s' = set_log (log s0 ++ [LogError "ofxImageSequence<T>::loadSequence"
            (if fileExists emptyDisk "frames"
             then "No image files found in " +:+ "frames"
             else "Could not find folder " +:+ "frames")]) s0 /\
    sequence s' = [] /\ filenames s' = [] /\ loadFailed s' = [] /\
    loaded s' = false /\ folderToLoad s' = "frames".
Proof.
  apply (loadSequenceFolder_reports_missing_or_empty_folder ofPixels emptyDisk fresh
           "frames").
  - exact wf_fresh.
  - reflexivity.
  - left. reflexivity.
Defined.

(** X7 at the index 4 of three frames. *)
Lemma setFrame_wraps_the_index_witness :
  let n := Z.of_nat (length (sequence loadedExample)) in
  0 <= 4 mod n < n /\
  exists s1, loadFrame framesDisk (4 mod n) loadedExample = Some (tt, s1) /\
    setFrame framesDisk 4 loadedExample = Some (tt, set_currentFrame (4 mod n) s1).
Proof.
  intros n.
  destruct (setFrame_wraps_the_index framesDisk loadedExample 4 Inv_loadedExample)
    as (_ & _ & H).
  destruct H as (Hmod & _ & s1 & Hload & Hset & _).
  - vm_compute. reflexivity.
  - unfold INT_MAX. lia.
  - split; [exact Hmod|]. exists s1. split; [exact Hload|exact Hset].
Defined.

(** X8 at the sequence [img8.png] to [img10.png]. *)
Lemma texture_shows_the_last_frame_loaded_witness :
  lastFrameLoaded loadedExample = -1 \/
  (0 <= lastFrameLoaded loadedExample < Z.of_nat (length (sequence loadedExample)) /\
   exists img,
     sequence loadedExample !! Z.to_nat (lastFrameLoaded loadedExample) = Some (Some img) /\
     texture loadedExample = Some img).
Proof.
  exact (texture_shows_the_last_frame_loaded ofPixels framesDisk loadedExample
           reachable_loadedExample).
Defined.

(** X9 at the index 4 of three frames: frame 1, [img9.png]. *)
Lemma getPixelsForFrame_returns_the_frame_witness :
  let m := 4 mod Z.of_nat (length (sequence loadedExample)) in
  exists s',
    getPixelsForFrame framesDisk 4 loadedExample = Some (Some (image 9), s') /\
    getTextureForFrame framesDisk 4 loadedExample = Some (Some (image 9), s') /\
    currentFrame s' = m /\ lastFrameLoaded s' = m.
Proof.
  intros m.
  refine (getPixelsForFrame_returns_the_frame framesDisk loadedExample 4 "img9.png"
            (image 9) Inv_loadedExample Shows_loadedExample _ _ _ _ _).
  - vm_compute. reflexivity.
  - unfold INT_MAX. lia.
  - vm_compute. reflexivity.
  - reflexivity.
  - vm_compute. reflexivity.
Defined.

(** X10 at a new object. *)
Lemma getPixelsForFrame_needs_a_frame_on_display_witness :
  getPixelsForFrame framesDisk 0 fresh = None /\
  exists s', getTextureForFrame framesDisk 0 fresh = Some (texture fresh, s').
Proof.
  apply (getPixelsForFrame_needs_a_frame_on_display framesDisk fresh 0).
  - apply Inv_new.
  - reflexivity.
  - left. reflexivity.
Defined.

(** X11 at the ten frames [f0.png] to [f9.png]. *)
Lemma preloaded_frames_are_not_decoded_again_witness :
  exists s1 s2,
    preloadAllFrames solidDisk tenFrames = Some (tt, s1) /\
    loadFrames solidDisk [0; 3; 3; 9] s1 = Some (tt, s2) /\
    decodeCalls (log s2) = decodeCalls (log s1).
Proof.
  apply (preloaded_frames_are_not_decoded_again solidDisk tenFrames [0; 3; 3; 9]).
  - exact wf_tenFrames.
  - reflexivity.
Defined.

(** X15 at three frames and the percentages [1/4] and [3/4]. *)
Lemma getFrameIndexAtPercent_is_monotone_witness :
  exists i j,
    getFrameIndexAtPercent (1 # 4) loadedExample = Some (i, loadedExample) /\
    getFrameIndexAtPercent (3 # 4) loadedExample = Some (j, loadedExample) /\
    0 <= i /\ i <= j /\ j <= Z.of_nat (length (sequence loadedExample)) - 1.
Proof.
  apply (getFrameIndexAtPercent_is_monotone loadedExample (1 # 4) (3 # 4)).
  - rewrite length_loadedExample. lia.
  - split; vm_compute; discriminate.
  - split; vm_compute; discriminate.
  - vm_compute. discriminate.
Defined.

(** X17 at the sequence [img8.png] to [img10.png]. *)
Lemma setFrameAtPercent_lands_on_a_frame_witness :
  let n := Z.of_nat (length (sequence loadedExample)) in
  (forall percent, exists s',
     setFrameAtPercent framesDisk percent loadedExample = Some (tt, s') /\
     0 <= currentFrame s' < n) /\
  (exists s', setFrameAtPercent framesDisk 0 loadedExample = Some (tt, s') /\
     currentFrame s' = 0) /\
  (exists s', setFrameAtPercent framesDisk 1 loadedExample = Some (tt, s') /\
     currentFrame s' = n - 1) /\
  (forall time total percent,
     f32_div (f32_of_size_t n) (frameRate loadedExample) = Some total ->
     f32_div time total = Some percent ->
     setFrameForTime framesDisk time loadedExample
     = setFrameAtPercent framesDisk percent loadedExample).
Proof.
  refine (setFrameAtPercent_lands_on_a_frame framesDisk loadedExample
            Inv_loadedExample _ _).
  - vm_compute. reflexivity.
  - rewrite length_loadedExample. lia.
Defined.

(** X18 at frame 1 of the sequence [img8.png] to [img10.png]. *)
Lemma loadFrames_decode_each_frame_once_witness :
  exists s', loadFrames framesDisk [1; 1; 2; 1] loadedExample = Some (tt, s') /\
    (decodeCallsAt 1 (log s') <= 1)%nat.
Proof.
  apply (loadFrames_decode_each_frame_once framesDisk [1; 1; 2; 1] loadedExample 1%nat).
  - exact wf_loadedExample.
  - vm_compute. reflexivity.
Defined.


(** X20 at the sequence [img8.png] to [img10.png]. *)
Lemma cursor_stays_on_the_sequence_witness :
  0 <= currentFrame loadedExample /\
  (sequence loadedExample = [] -> currentFrame loadedExample = 0) /\
  (sequence loadedExample <> [] ->
   currentFrame loadedExample < Z.of_nat (length (sequence loadedExample))).
Proof.
  exact (cursor_stays_on_the_sequence ofPixels framesDisk loadedExample
           reachable_loadedExample).
Defined.
